(** * Interval exchanges: the constructors of [surface_dynamics]

    A shallow embedding of
    [surface_dynamics/interval_exchanges/constructors.py] and of the
    combinatorial objects its factories hand out, followed by the
    properties of the written specification. *)

From Stdlib Require Import String.
From Stdlib Require Import List Bool Arith ZArith QArith Lia Lqa DecimalString.
Import ListNotations.

Set Implicit Arguments.

Local Open Scope nat_scope.
Local Open Scope list_scope.

(** ** Labels

    The rows of a permutation hold arbitrary hashable Python values; the
    docstrings use strings and integers, also mixed in one row
    ([iet.Permutation([0, 'A', 'B', 1], ['B', 0, 1, 'A'])]). *)

Inductive letter : Type :=
| LStr (s : string)
| LInt (z : Z).

Definition letter_eq_dec (x y : letter) : {x = y} + {x <> y}.
Proof.
  decide equality; [apply string_dec | apply Z.eq_dec].
Defined.

Definition letter_eqb (x y : letter) : bool :=
  if letter_eq_dec x y then true else false.

(** [row.count(x)] *)
Definition count (row : list letter) (x : letter) : nat :=
  count_occ letter_eq_dec row x.

(** [x in row] *)
Definition mem (x : letter) (row : list letter) : bool :=
  existsb (letter_eqb x) row.

(** ** Python exceptions and results *)

Inductive exn : Type :=
| ValueError (msg : string)
| TypeError (msg : string)
| KeyError (msg : string)
| OverflowError (msg : string).

Inductive result (A : Type) : Type :=
| Ok (a : A)
| Raise (e : exn).

Arguments Ok {A} a.
Arguments Raise {A} e.

Definition bind {A B} (r : result A) (k : A -> result B) : result B :=
  match r with
  | Ok a => k a
  | Raise e => Raise e
  end.

Notation "x <- r ;; k" := (bind r (fun x => k))
  (at level 61, r at next level, right associativity).
Notation "r ;;; k" := (bind r (fun _ => k))
  (at level 61, right associativity).

(** The messages of the exceptions raised in [constructors.py], under the
    names the specification gives to the failures. *)
Definition InvalidFlipLetter : exn :=
  ValueError "flips contains not valid letters".
Definition LetterMultiplicityError : exn :=
  ValueError "letters must appear once in each interval".
Definition LetterMultiplicityError_LI : exn :=
  ValueError "letters must appear twice".
Definition NoAdmissibleLength : exn :=
  ValueError "no admissible length".
Definition NotInList : exn :=
  ValueError "x is not in list".
Definition NotFlippable : exn :=
  TypeError "interval exchange with flips not yet implemented".
Definition LengthMismatchError : exn :=
  ValueError "bad number of lengths".
Definition InvalidLengthValue : exn :=
  TypeError "unable to convert x into a real number".
Definition NonPositiveLength : exn :=
  ValueError "lengths must be non-negative".

(** The exceptions of [float(x)] and of [x < 0] that the loop over the
    lengths does not catch. *)
Definition FloatOverflow : exn :=
  OverflowError "int too large to convert to float".
Definition NotANumber : exn :=
  TypeError "float() argument must be a string or a real number".
Definition NotComparable : exn :=
  TypeError "'<' not supported between instances of 'str' and 'int'".

(** ** Permutation objects

    The eight classes of [labelled.py] and [reduced.py] that the factories
    instantiate.  An object is recorded as the call that builds it:
    [cls(a, alphabet=alphabet, reduced=reduced, flips=flips)]. *)

Inductive cls : Type :=
| LabelledPermutationIET
| FlippedLabelledPermutationIET
| ReducedPermutationIET
| FlippedReducedPermutationIET
| LabelledPermutationLI
| FlippedLabelledPermutationLI
| ReducedPermutationLI
| FlippedReducedPermutationLI.

Inductive kind : Type := IET_kind | LI_kind.

Definition cls_kind (c : cls) : kind :=
  match c with
  | LabelledPermutationIET | FlippedLabelledPermutationIET
  | ReducedPermutationIET | FlippedReducedPermutationIET => IET_kind
  | _ => LI_kind
  end.

Record Permutation_class : Type := new {
  p_cls : cls;
  p_a : list letter * list letter;
  p_alphabet : option (list letter);
  p_reduced : bool;
  p_flips : option (list letter)
}.

Definition is_nil {A} (l : list A) : bool :=
  match l with [] => true | _ => false end.

(** ** The factories of [constructors.py] *)

Section Constructors.

(** [set(l)] is iterated in an order the language does not fix; all that
    is known is that the iteration visits the members of [l]. *)
Variable set_iter : list letter -> list letter.
Hypothesis set_iter_In : forall l x, In x (set_iter l) <-> In x l.

(** [for letter in flips: if letter not in letters: raise ValueError] *)
Fixpoint check_flips (l flips : list letter) : result unit :=
  match flips with
  | [] => Ok tt
  | x :: rest =>
      if mem x l then check_flips l rest else Raise InvalidFlipLetter
  end.

(** [for letter in letters:
       if a[0].count(letter) != 1 or a[1].count(letter) != 1: raise] *)
Fixpoint check_once (top bottom letters : list letter) : result unit :=
  match letters with
  | [] => Ok tt
  | x :: rest =>
      if negb (count top x =? 1) || negb (count bottom x =? 1)
      then Raise LetterMultiplicityError
      else check_once top bottom rest
  end.

(** [Permutation(arg1, arg2, reduced, flips, alphabet)] on two rows:
    [a = _two_lists(arg1, arg2)] has already turned the arguments into the
    lists [top] and [bottom]; [l = a[0] + a[1]], [letters = set(l)]. *)
Definition Permutation (top bottom : list letter) (reduced : option bool)
    (flips alphabet : option (list letter)) : result Permutation_class :=
  let reduced := match reduced with None => false | Some b => b end in
  let l := top ++ bottom in
  let letters := set_iter l in
  flips <- match flips with
           | None => Ok None
           | Some f =>
               if is_nil f then Ok None
               else check_flips l f ;;; Ok (Some f)
           end ;;
  check_once top bottom letters ;;;
  let c := if reduced
           then match flips with
                | None => ReducedPermutationIET
                | Some _ => FlippedReducedPermutationIET
                end
           else match flips with
                | None => LabelledPermutationIET
                | Some _ => FlippedLabelledPermutationIET
                end in
  Ok (new c (top, bottom) alphabet reduced flips).

(** [for letter in letters: if l.count(letter) != 2: raise ValueError] *)
Fixpoint check_twice (l letters : list letter) : result unit :=
  match letters with
  | [] => Ok tt
  | x :: rest =>
      if negb (count l x =? 2) then Raise LetterMultiplicityError_LI
      else check_twice l rest
  end.

(** [del b[b.index(x)]]; [list.index] raises when [x] is absent. *)
Fixpoint del_index (x : letter) (b : list letter) : result (list letter) :=
  match b with
  | [] => Raise NotInList
  | y :: rest =>
      if letter_eqb x y then Ok rest
      else rest' <- del_index x rest ;; Ok (y :: rest')
  end.

(** [for letter in letters:
       if b0.count(letter) == 1:
           del b0[b0.index(letter)]
           del b1[b1.index(letter)]] *)
Fixpoint strip_once (letters b0 b1 : list letter)
    : result (list letter * list letter) :=
  match letters with
  | [] => Ok (b0, b1)
  | x :: rest =>
      if count b0 x =? 1 then
        b0' <- del_index x b0 ;;
        b1' <- del_index x b1 ;;
        strip_once rest b0' b1'
      else strip_once rest b0 b1
  end.

(** [GeneralizedPermutation(arg1, arg2, reduced, flips, alphabet)] on two
    rows: the flips and the multiplicities are checked, the letters that
    occur once in each row are deleted from the copies [b0] and [b1], and
    the outcome depends on which of the copies is left empty. *)
Definition GeneralizedPermutation (top bottom : list letter)
    (reduced : option bool) (flips alphabet : option (list letter))
    : result Permutation_class :=
  let reduced := match reduced with None => false | Some b => b end in
  let l := top ++ bottom in
  let letters := set_iter l in
  match flips with
  | None => Ok tt
  | Some f => check_flips l f
  end ;;;
  check_twice l letters ;;;
  b <- strip_once letters top bottom ;;
  let '(b0, b1) := b in
  if is_nil b0 && is_nil b1 then
    Permutation top bottom (Some reduced) flips alphabet
  else if is_nil b0 || is_nil b1 then
    Raise NoAdmissibleLength
  else
    let c := if reduced
             then match flips with
                  | None => ReducedPermutationLI
                  | Some _ => FlippedReducedPermutationLI
                  end
             else match flips with
                  | None => LabelledPermutationLI
                  | Some _ => FlippedLabelledPermutationLI
                  end in
    Ok (new c (top, bottom) alphabet reduced flips).

End Constructors.

(** The distinct letters of a list, in order of first occurrence. *)
Definition dedup (l : list letter) : list letter :=
  rev (nodup letter_eq_dec (rev l)).

(** *** Accessors of the permutation classes

    [template.py], [labelled.py] and [reduced.py] are not part of the
    sources at hand; the accessors the factories call on an existing
    object are modelled here. *)

(** Modelled from the spec: the letters of a permutation in discovery
    order (the default alphabet of section 6, "default = discovery
    order"), the class body being absent from the sources. *)
Definition discovery (a : list letter * list letter) : list letter :=
  dedup (fst a ++ snd a).

(** Modelled from the spec: [p.alphabet()], "an ordered set of distinct
    labels", by default the discovery order. *)
Definition alphabet (p : Permutation_class) : list letter :=
  match p_alphabet p with
  | Some al => al
  | None => discovery (p_a p)
  end.

(** Modelled from the spec: [len(p)], the number of letters of the
    permutation ([__len__] of [template.py] is absent): each letter
    fills two places of the rows. *)
Definition len (p : Permutation_class) : nat :=
  (length (fst (p_a p)) + length (snd (p_a p))) / 2.

(** Position of [x] in [l] ([l.index(x)], [length l] when absent). *)
Fixpoint index (x : letter) (l : list letter) : nat :=
  match l with
  | [] => 0
  | y :: rest => if letter_eqb x y then 0 else S (index x rest)
  end.

(** Modelled from the spec: the canonical numbering of a reduced
    permutation ("canonical representative of the equivalence class under
    simultaneous relabeling that preserves row structure"): every letter
    is replaced by its rank in discovery order. *)
Definition rank (a : list letter * list letter) (x : letter) : nat :=
  index x (discovery a).

Definition canon (a : list letter * list letter) : list nat * list nat :=
  (map (rank a) (fst a), map (rank a) (snd a)).

(** Modelled from the spec: how an object shows a letter.  A labelled
    permutation keeps its labels; for a reduced one "the alphabet does not
    play any role excepted for printing the object" (docstring of
    [Permutation]): the letter of canonical rank [i] is printed as the
    [i]-th letter of the alphabet. *)
Definition render (p : Permutation_class) (x : letter) : letter :=
  if p_reduced p then nth (rank (p_a p) x) (alphabet p) x else x.

(** Modelled from the spec: [p.list()], the two rows ("row(top|bottom)"). *)
Definition list_ (p : Permutation_class) : list letter * list letter :=
  (map (render p) (fst (p_a p)), map (render p) (snd (p_a p))).

(** The flipped letters among the letters of the rows. *)
Definition flipped (p : Permutation_class) : list letter :=
  match p_flips p with
  | None => []
  | Some f => filter (fun x => mem x f) (discovery (p_a p))
  end.

(** Modelled from the spec: [p.flips()], the "subset of labels marked
    orientation-reversed", as the object shows them. *)
Definition flips_ (p : Permutation_class) : list letter :=
  map (render p) (flipped p).

(** Modelled from the spec: [p._labels is None], the attribute of the
    absent classes by which [Permutation] tells the mode: the reduced
    classes carry no labels. *)
Definition labels_is_None (p : Permutation_class) : bool := p_reduced p.

(** Modelled from the spec: [p._flips is not None], the attribute of the
    absent classes: the flipped classes carry flips. *)
Definition has_flips (p : Permutation_class) : bool :=
  match p_flips p with None => false | Some _ => true end.

(** ** Lengths of a numeric interval exchange *)

(** A supplied length, by what [float(x)] and [x < 0] make of it: a number
    [q] of an exact type (an [int], a [Fraction], an integer or a rational
    of Sage) or a finite [float]; one of the floats [inf], [-inf] and
    [nan]; a string; or a value that is neither a number nor a string
    ([None], a list), on which [float] raises [TypeError]. *)
Inductive pyval : Type :=
| Num (q : Q)
| PosInf
| NegInf
| NaN
| Text (s : string)
| NoNumber.

(** [lengths]: "a list or a dictionary of lengths". *)
Inductive lengths_arg : Type :=
| LengthsList (l : list pyval)
| LengthsDict (d : list (letter * pyval)).

(** [len(lengths)] *)
Definition lengths_len (lengths : lengths_arg) : nat :=
  match lengths with
  | LengthsList l => length l
  | LengthsDict d => length d
  end.

(** [lengths.values()] or [iter(lengths)] *)
Definition lengths_iter (lengths : lengths_arg) : list pyval :=
  match lengths with
  | LengthsList l => l
  | LengthsDict d => map snd d
  end.

(** [permutation], by the branch it takes and the call of [Permutation]
    it leads to:
    - an object of the permutation classes;
    - two rows, given as a tuple [(top, bottom)], or as a value that is not
      a tuple and that [Permutation] reads as two rows (a list of two rows,
      a string of two lines);
    - a longer tuple [(top, bottom, reduced, ...)], whose items
      [Permutation(top, bottom, reduced, flips, alphabet)] receives by
      position, the items that the tuple does not reach being [None];
    - a tuple [(p,)] or [(p, None, reduced, ...)] around an object of the
      permutation classes, which [Permutation] receives in the same
      way. *)
Inductive permutation_arg : Type :=
| PermObject (p : Permutation_class)
| PermRows (top bottom : list letter)
| PermTuple (top bottom : list letter) (reduced : option bool)
    (flips alphabet_ : option (list letter))
| PermTupleObject (p : Permutation_class) (reduced : option bool)
    (flips alphabet_ : option (list letter)).

(** The call [_IET(p, lengths)] that ends [IntervalExchangeTransformation]
    ([iet.py] is not part of the sources). *)
Record iet_call : Type := _IET {
  call_permutation : Permutation_class;
  call_lengths : lengths_arg
}.

(** [x < 0] on the numeric type *)
Definition Qneg (q : Q) : bool := negb (Qle_bool 0 q).

Section Runtime.

Variable set_iter : list letter -> list letter.

(** Whether [float(x)] returns on the number [x].  The type of the number
    decides: on an [int] or a [Fraction] beyond the range of the doubles
    [float] raises [OverflowError]; a [float] is returned as it is. *)
Variable float_converts : Q -> bool.

(** Whether [float(x)] parses the string [x]; it raises [ValueError] on
    the others. *)
Variable float_parses : string -> bool.

(** The body of the loop over the lengths:
    [try: y = float(x)
     except ValueError: raise TypeError(...)
     if x < 0: raise ValueError(...)].
    Only [ValueError] is caught: on a number out of range and on a value
    that is not a number the exception of [float] goes through.  A string
    that [float] parses passes the [try] and then fails at [x < 0]; [nan]
    and [inf] are not below zero, [-inf] is. *)
Definition check_length (x : pyval) : result unit :=
  match x with
  | Num q =>
      if float_converts q
      then if Qneg q then Raise NonPositiveLength else Ok tt
      else Raise FloatOverflow
  | PosInf | NaN => Ok tt
  | NegInf => Raise NonPositiveLength
  | Text s =>
      if float_parses s then Raise NotComparable
      else Raise InvalidLengthValue
  | NoNumber => Raise NotANumber
  end.

(** [for x in it: ...] *)
Fixpoint check_lengths (it : list pyval) : result unit :=
  match it with
  | [] => Ok tt
  | x :: rest => check_length x ;;; check_lengths rest
  end.

(** [Permutation(arg1)] on an object of the permutation classes:
    [Permutation(arg1.list(),
                 reduced=(arg1._labels is None) if reduced is None else reduced,
                 flips=arg1.flips() if flips is None else flips,
                 alphabet=arg1.alphabet() if alphabet is None else alphabet)] *)
Definition Permutation_of (arg1 : Permutation_class) (reduced : option bool)
    (flips alphabet_ : option (list letter)) : result Permutation_class :=
  Permutation set_iter (fst (list_ arg1)) (snd (list_ arg1))
    (Some match reduced with None => labels_is_None arg1 | Some b => b end)
    (Some match flips with None => flips_ arg1 | Some f => f end)
    (Some match alphabet_ with None => alphabet arg1 | Some al => al end).

(** The permutation [p] that [IntervalExchangeTransformation] settles on:
    [if isinstance(permutation, Permutation_class)
          and permutation._flips is not None: raise TypeError(...)
     elif isinstance(permutation, LabelledPermutationIET): p = permutation
     elif isinstance(permutation, tuple):
         p = Permutation(top, bottom, ...), on the items of the tuple
     else: p = Permutation(permutation)]
    The test on the flips looks at an object only: a tuple that holds
    flips, or an object with flips, goes to [Permutation]. *)
Definition as_permutation (permutation : permutation_arg)
    : result Permutation_class :=
  match permutation with
  | PermObject o =>
      if has_flips o then Raise NotFlippable
      else match p_cls o with
           | LabelledPermutationIET => Ok o
           | _ => Permutation_of o None None None
           end
  | PermRows top bottom => Permutation set_iter top bottom None None None
  | PermTuple top bottom reduced flips alphabet_ =>
      Permutation set_iter top bottom reduced flips alphabet_
  | PermTupleObject o reduced flips alphabet_ =>
      Permutation_of o reduced flips alphabet_
  end.

Definition IntervalExchangeTransformation (permutation : permutation_arg)
    (lengths : lengths_arg) : result iet_call :=
  p <- as_permutation permutation ;;
  if negb (lengths_len lengths =? len p) then Raise LengthMismatchError
  else check_lengths (lengths_iter lengths) ;;; Ok (_IET p lengths).

End Runtime.

(** ** Vocabulary of the specification for the rows *)

(** The supplied flips name letters of the rows only. *)
Definition flips_valid (l : list letter) (flips : option (list letter))
    : Prop :=
  match flips with
  | None => True
  | Some f => forall x, In x f -> In x l
  end.

(** A row "after deleting every letter that occurs once in each row". *)
Definition delete_once (top bottom row : list letter) : list letter :=
  filter (fun x => negb ((count top x =? 1) && (count bottom x =? 1))) row.

(** The letters not deleted so far, in the loop of [GeneralizedPermutation]. *)
Definition notin (del : list letter) (y : letter) : bool := negb (mem y del).

(** Letters of the examples of the docstrings. *)
Definition a_ : letter := LStr "a".
Definition b_ : letter := LStr "b".
Definition c_ : letter := LStr "c".
Definition d_ : letter := LStr "d".

(** The iteration of a set in order of first occurrence, one of the orders
    Python may follow. *)
Definition first_seen : list letter -> list letter := dedup.

(** Every supplied length is a number. *)
Definition all_numeric (it : list pyval) : Prop :=
  forall v, In v it -> exists q, v = Num q.

(** ** Equality of permutations *)

(** [x] is marked orientation-reversed in [p]. *)
Definition is_flipped (p : Permutation_class) (x : letter) : bool :=
  match p_flips p with
  | None => false
  | Some f => mem x f
  end.

(** Modelled from the spec: the flips of a reduced permutation in its
    canonical numbering, one flag per letter in discovery order. *)
Definition canon_flips (p : Permutation_class) : list bool :=
  map (is_flipped p) (discovery (p_a p)).

Definition eq_decb {A} (dec : forall x y : A, {x = y} + {x <> y}) (x y : A)
    : bool :=
  if dec x y then true else false.

Definition letters_eqb : list letter -> list letter -> bool :=
  eq_decb (list_eq_dec letter_eq_dec).
Definition ranks_eqb : list nat -> list nat -> bool :=
  eq_decb (list_eq_dec Nat.eq_dec).
Definition flags_eqb : list bool -> list bool -> bool :=
  eq_decb (list_eq_dec Bool.bool_dec).

(** Modelled from the spec: [p == q], "equality respecting mode"
    ([__eq__] of the permutation classes is absent from the sources).  In
    labelled mode the comparison is literal: same rows, same alphabet, same
    flipped letters.  In reduced mode "equality ignores the concrete
    alphabet identity": the canonical numberings of the rows and of the
    flips are compared.  A labelled and a reduced permutation differ
    ([q == p] is [False] in the docstring of [Permutation]). *)
Definition perm_eqb (p q : Permutation_class) : bool :=
  match p_reduced p, p_reduced q with
  | false, false =>
      letters_eqb (fst (p_a p)) (fst (p_a q))
      && letters_eqb (snd (p_a p)) (snd (p_a q))
      && letters_eqb (alphabet p) (alphabet q)
      && letters_eqb (flipped p) (flipped q)
  | true, true =>
      ranks_eqb (fst (canon (p_a p))) (fst (canon (p_a q)))
      && ranks_eqb (snd (canon (p_a p))) (snd (canon (p_a q)))
      && flags_eqb (canon_flips p) (canon_flips q)
  | _, _ => false
  end.

(** "One row-sequence pattern matches the other after a label-consistent
    renaming": [f] renames the letters of [p] one to one, turns the rows of
    [p] into the rows of [q] and flipped letters into flipped letters. *)
Definition renaming (f : letter -> letter) (p q : Permutation_class) : Prop :=
  (forall x y, In x (fst (p_a p) ++ snd (p_a p)) ->
               In y (fst (p_a p) ++ snd (p_a p)) -> f x = f y -> x = y)
  /\ map f (fst (p_a p)) = fst (p_a q)
  /\ map f (snd (p_a p)) = snd (p_a q)
  /\ (forall x, In x (fst (p_a p) ++ snd (p_a p)) ->
                is_flipped p x = is_flipped q (f x)).



(** [if not flips: flips = None] *)
Definition norm_flips (flips : option (list letter)) : option (list letter) :=
  match flips with
  | None => None
  | Some f => if is_nil f then None else Some f
  end.

(** The class [Permutation] picks for a mode and flips. *)
Definition IET_cls (reduced : bool) (flips : option (list letter)) : cls :=
  if reduced
  then match flips with
       | None => ReducedPermutationIET
       | Some _ => FlippedReducedPermutationIET
       end
  else match flips with
       | None => LabelledPermutationIET
       | Some _ => FlippedLabelledPermutationIET
       end.

(** ** The numeric interval exchanges

    [iet.py] is not part of the sources.  The runtime of section 4.6 is
    modelled from the specification and from the session of the module
    docstring ([T*T], [S = T.inverse()], [S*T], [T*S], [is_identity]). *)

(** Modelled from the spec: an IET instance, "a Permutation (IET kind, no
    flips) plus a mapping label -> positive length"; the class of [iet.py]
    is absent. *)
Record IET : Type := mkIET {
  iet_top : list letter;
  iet_bottom : list letter;
  iet_lengths : list (letter * Q)
}.

(** [d[x]] on a mapping *)
Fixpoint lookup {A} (x : letter) (d : list (letter * A)) : option A :=
  match d with
  | [] => None
  | (y, v) :: rest => if letter_eqb x y then Some v else lookup x rest
  end.

Definition length_of (T : IET) (x : letter) : result Q :=
  match lookup x (iet_lengths T) with
  | Some q => Ok q
  | None => Raise (KeyError "length")
  end.

Definition Qsum (l : list Q) : Q := fold_right Qplus 0%Q l.

(** Modelled from the spec: "total length = sum of lengths". *)
Definition total_length (T : IET) : Q := Qsum (map snd (iet_lengths T)).

(** The right ends of the intervals of a row laid from [start] on, each
    with the label of its interval (the singularities of the map, the
    first one left out). *)
Fixpoint singularities (T : IET) (start : Q) (row : list letter)
    : result (list (letter * Q)) :=
  match row with
  | [] => Ok []
  | x :: rest =>
      l <- length_of T x ;;
      sg <- singularities T (start + l)%Q rest ;;
      Ok ((x, (start + l)%Q) :: sg)
  end.

(** Modelled from the spec: [inverse(T)] "swaps the roles of the two rows,
    preserving lengths". *)
Definition inverse (T : IET) : IET :=
  mkIET (iet_bottom T) (iet_top T) (iet_lengths T).

(** Modelled from the spec: [is_identity(T)] is "true iff ... the
    permutation is literally the identity row pair". *)
Definition is_identity (T : IET) : bool :=
  letters_eqb (iet_top T) (iet_bottom T).

(** [str(x)] *)
Definition str (x : letter) : string :=
  match x with
  | LStr s => s
  | LInt z => NilZero.string_of_int (Z.to_int z)
  end.

(** The name of the piece of the interval [i] of the first map that lies
    in the interval [j] of the second: [str(i) + str(j)], as in the rows
    [aa ab ba] of the docstring. *)
Definition piece_name (i j : letter) : letter := LStr (str i ++ str j).

(** The common refinement of the partition [other] (the intervals the
    first map arrives on) and the partition [self] (the intervals the
    second map departs from), from the point [x] on: each piece with the
    two labels and its length. *)
Fixpoint pieces (x : Q) (other self : list (letter * Q))
    : list (letter * letter * Q) :=
  let fix pieces_self (x : Q) (self : list (letter * Q))
      : list (letter * letter * Q) :=
    match other, self with
    | (jo, so) :: other', (js, ss) :: self' =>
        match (so ?= ss)%Q with
        | Lt => (jo, js, (so - x)%Q) :: pieces so other' self
        | Gt => (jo, js, (ss - x)%Q) :: pieces_self ss self'
        | Eq => (jo, js, (ss - x)%Q) :: pieces ss other' self'
        end
    | _, _ => []
    end in
  pieces_self x self.

(** The pieces of the interval [i] of the first map, from left to right:
    the label of the second map and the length. *)
Definition d_other (pcs : list (letter * letter * Q)) (i : letter)
    : list (letter * Q) :=
  map (fun pc => (snd (fst pc), snd pc))
    (filter (fun pc => letter_eqb (fst (fst pc)) i) pcs).

(** The pieces of the interval [i] of the second map, from left to
    right: the label of the first map. *)
Definition d_self (pcs : list (letter * letter * Q)) (i : letter)
    : list letter :=
  map (fun pc => fst (fst pc))
    (filter (fun pc => letter_eqb (snd (fst pc)) i) pcs).

(** The top row of the composed map with its lengths: the pieces in the
    order in which the first map departs from them. *)
Fixpoint top_interval (keys : list letter) (pcs : list (letter * letter * Q))
    (row : list letter) : result (list (letter * Q)) :=
  match row with
  | [] => Ok []
  | i :: rest =>
      if mem i keys then
        r <- top_interval keys pcs rest ;;
        Ok (map (fun jl => (piece_name i (fst jl), snd jl)) (d_other pcs i)
              ++ r)
      else Raise (KeyError "interval")
  end.

(** The bottom row of the composed map: the pieces in the order in which
    the second map arrives on them. *)
Fixpoint bottom_interval (keys : list letter)
    (pcs : list (letter * letter * Q)) (row : list letter)
    : result (list letter) :=
  match row with
  | [] => Ok []
  | i :: rest =>
      if mem i keys then
        r <- bottom_interval keys pcs rest ;;
        Ok (map (fun j => piece_name j i) (d_self pcs i) ++ r)
      else Raise (KeyError "interval")
  end.

(** Modelled from the spec: [compose(S, T)], "functional composition of S
    after T, defined only when both act on intervals of equal total
    length, else LengthMismatchError" ([S * T] in the docstring; [__mul__]
    of [iet.py] is absent).  The intervals of the composed map are the
    pieces cut by the arrival partition of [T] and the departure partition
    of [S]. *)
Definition compose (S T : IET) : result IET :=
  if negb (Qeq_bool (total_length S) (total_length T))
  then Raise LengthMismatchError
  else
    other_sg <- singularities T 0 (iet_bottom T) ;;
    self_sg <- singularities S 0 (iet_top S) ;;
    let pcs := pieces 0 other_sg self_sg in
    top <- top_interval (map fst other_sg) pcs (iet_top T) ;;
    bottom <- bottom_interval (map fst self_sg) pcs (iet_bottom S) ;;
    Ok (mkIET (map fst top) bottom top).

(** A numeric IET is well formed when its rows are the rows of a
    permutation of IET kind and every letter has a length. *)
Definition well_formed (T : IET) : Prop :=
  (forall x, In x (iet_top T ++ iet_bottom T) ->
             count (iet_top T) x = 1 /\ count (iet_bottom T) x = 1)
  /\ (forall x, In x (iet_top T) -> lookup x (iet_lengths T) <> None).

(** The map [T] of the module docstring, [a b / b a], with a first length
    between 1 and 2 in place of the square root of 2. *)
Definition T_ab : IET :=
  mkIET [a_; b_] [b_; a_] [(a_, 7 # 5); (b_, 1)]%Q.

(** Every piece lies in intervals of the same name of the two maps. *)
Definition diagonal (pcs : list (letter * letter * Q)) : Prop :=
  forall pc, In pc pcs -> fst (fst pc) = snd (fst pc).

(** The numbers of a list of supplied lengths, when all of them are
    numbers. *)
Fixpoint numbers (it : list pyval) : option (list Q) :=
  match it with
  | [] => Some []
  | Num q :: rest =>
      match numbers rest with
      | Some qs => Some (q :: qs)
      | None => None
      end
  | _ :: _ => None
  end.

(** Modelled from the spec: the IET instance that the call [_IET(p,
    lengths)] builds, "created from a permutation and a length vector of
    matching size": a list of lengths follows the alphabet of the
    permutation, a dictionary names the letters. *)
Definition instance (c : iet_call) : option IET :=
  let p := call_permutation c in
  let keys := match call_lengths c with
              | LengthsList _ => alphabet p
              | LengthsDict d => map fst d
              end in
  match numbers (lengths_iter (call_lengths c)) with
  | Some qs => Some (mkIET (fst (list_ p)) (snd (list_ p)) (combine keys qs))
  | None => None
  end.

(** ** Rauzy induction

    The induction moves and the diagrams live in [template.py],
    [labelled.py] and [reduced.py], which are not part of the sources; they
    are modelled from sections 3 and 4.2 to 4.4 of the specification. *)

Definition rows : Type := (list letter * list letter)%type.

Definition letters (a : rows) : list letter := fst a ++ snd a.

Inductive row : Type := Top | Bottom.
Inductive side : Type := Right | Left.

(** The move kinds that tag the edges of a diagram. *)
Inductive move_kind : Type :=
| RauzyMove (winner : row) (s : side)
| LeftRightInversion
| TopBottomInversion
| Symmetric.

(** Modelled from the spec: the two failures of sections 4.2 and 4.3 (the
    exceptions of the absent modules are not known). *)
Definition DegenerateInductionError : exn :=
  ValueError "degenerate induction".
Definition InvalidMoveLabelError : exn :=
  ValueError "invalid move label".

(** A row split into what precedes its rightmost letter and that letter. *)
Fixpoint unsnoc (l : list letter) : option (list letter * letter) :=
  match l with
  | [] => None
  | x :: rest =>
      match unsnoc rest with
      | None => Some ([], x)
      | Some (init, y) => Some (x :: init, y)
      end
  end.

(** [y] placed immediately after, or immediately before, the occurrence of
    [x]. *)
Fixpoint insert_after (x y : letter) (l : list letter) : list letter :=
  match l with
  | [] => []
  | z :: rest =>
      if letter_eqb z x then z :: y :: rest else z :: insert_after x y rest
  end.

Fixpoint insert_before (x y : letter) (l : list letter) : list letter :=
  match l with
  | [] => []
  | z :: rest =>
      if letter_eqb z x then y :: z :: rest else z :: insert_before x y rest
  end.

(** Rows that admit lengths: the test that ends [GeneralizedPermutation]
    ("no admissible length" when exactly one of the two rows stripped of
    the letters that occur once in each row is empty). *)
Definition admissible (a : rows) : bool :=
  negb (xorb (is_nil (delete_once (fst a) (snd a) (fst a)))
             (is_nil (delete_once (fst a) (snd a) (snd a)))).

Definition row_of (r : row) (a : rows) : list letter :=
  match r with Top => fst a | Bottom => snd a end.

Definition other (r : row) : row :=
  match r with Top => Bottom | Bottom => Top end.

Definition mirror (a : rows) : rows := (rev (fst a), rev (snd a)).

(** The letters at the end of the rows on which a move acts: the winner
    and the loser. *)
Definition ends (winner : row) (s : side) (a : rows)
    : option (letter * letter) :=
  let a := match s with Right => a | Left => mirror a end in
  match unsnoc (row_of winner a), unsnoc (row_of (other winner) a) with
  | Some (_, w), Some (_, l) => Some (w, l)
  | _, _ => None
  end.

(** Modelled from the spec: right induction, "the classical Rauzy move:
    the rightmost letters of the two rows are compared; the row nominated
    as winner keeps its letter fixed while the other row's rightmost letter
    is relocated immediately past the winner's occurrence"; it fails "when
    the two rightmost letters of the two rows coincide".  For a linear
    involution the other occurrence of the winner may lie in the winner's
    own row, where the two copies are glued with a reversal: the loser then
    goes to that row, immediately before that occurrence (the classical
    construction the specification refers to), and the move is defined
    only when the rows it produces admit lengths. *)
Definition right_rauzy_move (winner : row) (a : rows) : result rows :=
  match unsnoc (row_of winner a), unsnoc (row_of (other winner) a) with
  | Some (w_init, w), Some (l_init, l) =>
      if letter_eqb w l then Raise DegenerateInductionError
      else
        let wl := if mem w l_init
                  then (row_of winner a, insert_after w l l_init)
                  else (insert_before w l w_init ++ [w], l_init) in
        let r := match winner with
                 | Top => (fst wl, snd wl)
                 | Bottom => (snd wl, fst wl)
                 end in
        if admissible r then Ok r else Raise DegenerateInductionError
  | _, _ => Raise DegenerateInductionError
  end.

(** Modelled from the spec: the moves of the induction engine.  "Left
    induction is the mirror operation on the left ends of the rows.
    left_right_inversion reverses both rows' order; top_bottom_inversion
    swaps the two rows; symmetric composes both inversions." *)
Definition apply_move (k : move_kind) (a : rows) : result rows :=
  match k with
  | RauzyMove winner Right => right_rauzy_move winner a
  | RauzyMove winner Left =>
      r <- right_rauzy_move winner (mirror a) ;; Ok (mirror r)
  | LeftRightInversion => Ok (mirror a)
  | TopBottomInversion => Ok (snd a, fst a)
  | Symmetric => Ok (mirror (snd a, fst a))
  end.

(** The switches of [RauzyDiagram]. *)
Record switches : Type := mkSwitches {
  right_induction : bool;
  left_induction : bool;
  left_right_inversion : bool;
  top_bottom_inversion : bool;
  symmetric : bool
}.

(** The defaults of [RauzyDiagram]: right induction only. *)
Definition default_switches : switches :=
  mkSwitches true false false false false.

(** The move kinds the switches enable. *)
Definition edge_types (sw : switches) : list move_kind :=
  (if right_induction sw
   then [RauzyMove Top Right; RauzyMove Bottom Right] else [])
  ++ (if left_induction sw
      then [RauzyMove Top Left; RauzyMove Bottom Left] else [])
  ++ (if left_right_inversion sw then [LeftRightInversion] else [])
  ++ (if top_bottom_inversion sw then [TopBottomInversion] else [])
  ++ (if symmetric sw then [Symmetric] else []).

Definition move_kind_eq_dec (k1 k2 : move_kind) : {k1 = k2} + {k1 <> k2}.
Proof. repeat decide equality. Defined.

Definition rows_eq_dec (a b : rows) : {a = b} + {a <> b}.
Proof. decide equality; apply (list_eq_dec letter_eq_dec). Defined.

(** Modelled from the spec: the "deduplication key", "identity for
    labelled, relabeling-class for reduced". *)
Definition same_vertex (reduced : bool) (a b : rows) : bool :=
  if reduced
  then ranks_eqb (fst (canon a)) (fst (canon b))
       && ranks_eqb (snd (canon a)) (snd (canon b))
  else eq_decb rows_eq_dec a b.

Definition known (reduced : bool) (a : rows) (vs : list rows) : bool :=
  existsb (same_vertex reduced a) vs.

(** The vertices a frontier vertex leads to, one per enabled move that
    is defined on it. *)
Fixpoint successors (kinds : list move_kind) (v : rows) : list rows :=
  match kinds with
  | [] => []
  | k :: rest =>
      match apply_move k v with
      | Ok v' => v' :: successors rest v
      | Raise _ => successors rest v
      end
  end.

(** The successors that are new, each added once. *)
Fixpoint add_new (reduced : bool) (succ vs : list rows) : list rows :=
  match succ with
  | [] => []
  | v :: rest =>
      if known reduced v vs then add_new reduced rest vs
      else v :: add_new reduced rest (vs ++ [v])
  end.

(** Modelled from the spec: the breadth-first exploration of section 4.3,
    which "halts when the frontier is empty"; [None] when the steps
    allowed run out first. *)
Fixpoint explore (steps : nat) (reduced : bool) (kinds : list move_kind)
    (frontier vs : list rows) : option (list rows) :=
  match frontier with
  | [] => Some vs
  | v :: rest =>
      match steps with
      | 0 => None
      | S steps' =>
          let fresh := add_new reduced (successors kinds v) vs in
          explore steps' reduced kinds (rest ++ fresh) (vs ++ fresh)
      end
  end.

(** A bound on the number of pairs of rows over the places of [a]: the
    arrangements of the places times the places where the rows split. *)
Definition vertex_bound (a : rows) : nat :=
  let n := length (letters a) in S n * fact n.

(** Modelled from the spec: a Rauzy diagram, the vertices reached from a
    seed under the enabled move kinds in the diagram's mode, over the
    seed's alphabet. *)
Record diagram : Type := mkDiagram {
  d_reduced : bool;
  d_alphabet : list letter;
  d_kinds : list move_kind;
  d_vertices : list rows
}.

(** Modelled from the spec: [p.rauzy_diagram(...)] (the method is absent
    from the sources), for a permutation without flips. *)
Definition rauzy_diagram (p : Permutation_class) (sw : switches)
    : option diagram :=
  if has_flips p then None
  else
    match explore (vertex_bound (p_a p)) (p_reduced p) (edge_types sw)
            [p_a p] [p_a p] with
    | Some vs => Some (mkDiagram (p_reduced p) (alphabet p) (edge_types sw) vs)
    | None => None
    end.

Definition cardinality (d : diagram) : nat := length (d_vertices d).

Section Diagrams.

Variable set_iter : list letter -> list letter.

(** [RauzyDiagram]:
    [p = GeneralizedPermutation(arg1, arg2, reduced=reduced, flips=flips,
                                alphabet=alphabet)
     return p.rauzy_diagram(right_induction=right_induction, ...)] *)
Definition RauzyDiagram (top bottom : list letter) (reduced : bool)
    (flips alphabet_ : option (list letter)) (sw : switches)
    : result (option diagram) :=
  p <- GeneralizedPermutation set_iter top bottom (Some reduced) flips
         alphabet_ ;;
  Ok (rauzy_diagram p sw).

End Diagrams.

(** ** Paths, matrices and substitutions *)

(** An edge: an application of a move kind to a vertex. *)
Record edge : Type := mkEdge {
  e_start : rows;
  e_kind : move_kind;
  e_end : rows
}.

(** Modelled from the spec: [path(seed, move_labels...)] "resolves a
    sequence of ... move labels into the corresponding edge sequence
    starting at a given vertex, failing with InvalidMoveLabelError if a
    label does not name an enabled move kind or the move is degenerate at
    that point". *)
Fixpoint resolve (kinds : list move_kind) (v : rows)
    (labels : list move_kind) : result (list edge) :=
  match labels with
  | [] => Ok []
  | k :: rest =>
      if in_dec move_kind_eq_dec k kinds then
        match apply_move k v with
        | Ok v' =>
            es <- resolve kinds v' rest ;; Ok (mkEdge v k v' :: es)
        | Raise _ => Raise InvalidMoveLabelError
        end
      else Raise InvalidMoveLabelError
  end.

(** A path of a diagram: its start vertex and its edges. *)
Record path_ : Type := mkPath {
  path_start : rows;
  path_edges : list edge
}.

Definition path (d : diagram) (v : rows) (labels : list move_kind)
    : result path_ :=
  if known (d_reduced d) v (d_vertices d) then
    es <- resolve (d_kinds d) v labels ;; Ok (mkPath v es)
  else Raise InvalidMoveLabelError.

(** The vertex a path ends on. *)
Definition path_end (g : path_) : rows :=
  match rev (path_edges g) with
  | [] => path_start g
  | e :: _ => e_end e
  end.

(** Modelled from the spec: [is_loop], "first edge's start equals last
    edge's end", under the key of the diagram. *)
Definition is_loop (d : diagram) (g : path_) : bool :=
  same_vertex (d_reduced d) (path_start g) (path_end g).

(** Integer matrices indexed by the letters of the alphabet. *)
Definition matrix_ : Type := letter -> letter -> nat.

Definition identity_matrix : matrix_ :=
  fun i j => if letter_eqb i j then 1 else 0.

Definition mmul (al : list letter) (M N : matrix_) : matrix_ :=
  fun i j => list_sum (map (fun k => M i k * N k j) al).

(** The rows of a matrix, in the order of the alphabet. *)
Definition matrix_rows (al : list letter) (M : matrix_) : list (list nat) :=
  map (fun i => map (fun j => M i j) al) al.

(** Modelled from the spec: the elementary matrix of an induction step,
    the "identity matrix with exactly one off-diagonal entry incremented
    by 1", in the row of the winner and the column of the loser as
    [p.rauzy_move_matrix('top')] prints it in the docstring of
    [Permutation]. *)
Definition elementary (w l : letter) : matrix_ :=
  fun i j =>
    identity_matrix i j + (if letter_eqb i w && letter_eqb j l then 1 else 0).

(** The winner and the loser of an edge, for the edges that absorb an
    interval. *)
Definition absorption (e : edge) : option (row * letter * letter) :=
  match e_kind e with
  | RauzyMove winner s =>
      match ends winner s (e_start e) with
      | Some (w, l) => Some (winner, w, l)
      | None => None
      end
  | _ => None
  end.

(** Modelled from the spec: [is_full], the letters that take part in the
    absorptions "across all edges" cover "the full alphabet".  The letters
    counted are the winners: only then are [g0.is_full()] and
    [g1.is_full()] false and [g.is_full()] true in the docstring of
    [RauzyDiagram]. *)
Definition is_full (al : list letter) (g : path_) : bool :=
  forallb
    (fun x =>
       existsb (fun e => match absorption e with
                         | Some (_, w, _) => letter_eqb w x
                         | None => false
                         end) (path_edges g))
    al.

Definition edge_matrix (e : edge) : matrix_ :=
  match absorption e with
  | Some (_, w, l) => elementary w l
  | None => identity_matrix
  end.

(** Modelled from the spec: [matrix(path)], the "ordered product of edge
    matrices", in the order of the edges (the convention under which the
    docstring of [RauzyDiagram] prints the matrix of its path). *)
Definition matrix (al : list letter) (g : path_) : matrix_ :=
  fold_left (fun M e => mmul al M (edge_matrix e)) (path_edges g)
    identity_matrix.

(** A word morphism. *)
Definition substitution : Type := letter -> list letter.

(** Modelled from the spec: one step of [orbit_substitution], "the loser's
    new image becomes ... the concatenation of the pre-step images of the
    two letters involved, in the order fixed by the move kind (top-right
    moves append, bottom-right moves prepend ...)". *)
Definition substitution_step (s : substitution) (e : edge) : substitution :=
  match absorption e with
  | Some (winner, w, l) =>
      fun x =>
        if letter_eqb x l
        then match winner with
             | Top => s l ++ s w
             | Bottom => s w ++ s l
             end
        else s x
  | None => s
  end.

(** Modelled from the spec: [orbit_substitution(path)] "builds the word
    morphism by walking the path". *)
Definition orbit_substitution (g : path_) : substitution :=
  fold_left substitution_step (path_edges g) (fun x => [x]).

(** Modelled from the spec: the incidence matrix of a substitution, the
    "count of each label in the image of each label": the entry in the
    row of [i] and the column of [j] counts [i] in the image of [j]. *)
Definition incidence_matrix (s : substitution) : matrix_ :=
  fun i j => count (s j) i.

(** The image of each letter of the alphabet, as [print(s)] shows it. *)
Definition images (al : list letter) (s : substitution) : list string :=
  map (fun x => String.concat EmptyString (map str (s x))) al.

(** The class [GeneralizedPermutation] picks for a mode and flips. *)
Definition LI_cls (reduced : bool) (flips : option (list letter)) : cls :=
  if reduced
  then match flips with
       | None => ReducedPermutationLI
       | Some _ => FlippedReducedPermutationLI
       end
  else match flips with
       | None => LabelledPermutationLI
       | Some _ => FlippedLabelledPermutationLI
       end.

(** The path of the docstring of [RauzyDiagram]: from [a b c / c b a],
    [g0 = top, bottom, top] followed by [g1 = bottom, top, bottom]. *)
Definition abc_cba : rows := ([a_; b_; c_], [c_; b_; a_]).

Definition d_abc_cba : diagram :=
  mkDiagram false [a_; b_; c_]
    [RauzyMove Top Right; RauzyMove Bottom Right]
    [([a_; b_; c_], [c_; b_; a_]); ([a_; b_; c_], [c_; a_; b_]);
     ([a_; c_; b_], [c_; b_; a_])].

Definition g_labels : list move_kind :=
  [RauzyMove Top Right; RauzyMove Bottom Right; RauzyMove Top Right;
   RauzyMove Bottom Right; RauzyMove Top Right; RauzyMove Bottom Right].

(** The vertices a seed leads to under the enabled move kinds: "closure
    under the enabled move kinds starting from one seed vertex". *)
Inductive reachable (kinds : list move_kind) (seed : rows) : rows -> Prop :=
| reach_seed : reachable kinds seed seed
| reach_move v k v' :
    reachable kinds seed v -> In k kinds -> apply_move k v = Ok v' ->
    reachable kinds seed v'.

(** No two vertices of a list fall under the same deduplication key. *)
Fixpoint distinct (reduced : bool) (vs : list rows) : bool :=
  match vs with
  | [] => true
  | v :: rest => negb (known reduced v rest) && distinct reduced rest
  end.

(** The product of an integer matrix and a vector of lengths. *)
Definition Qnat (n : nat) : Q := inject_Z (Z.of_nat n).

Definition mvec (al : list letter) (M : matrix_) (v : letter -> Q)
    : letter -> Q :=
  fun i => Qsum (map (fun j => (Qnat (M i j) * v j)%Q) al).

(** The rename of the three letters of [a b c / c b a] into [0 1 2]. *)
Definition abc_to_012 (x : letter) : letter :=
  if letter_eqb x a_ then LInt 0
  else if letter_eqb x b_ then LInt 1
  else if letter_eqb x c_ then LInt 2
  else x.

(** ** The rest of [constructors.py] *)

(** [GeneralizedPermutation(arg1)] on an object of the permutation
    classes:
    [GeneralizedPermutation(arg1.list(),
         reduced=(arg1._labels is None) if reduced is None else reduced,
         flips=arg1.flips() if flips is None else flips,
         alphabet=arg1.alphabet() if alphabet is None else alphabet)] *)
Definition GeneralizedPermutation_of (set_iter : list letter -> list letter)
    (arg1 : Permutation_class) (reduced : option bool)
    (flips alphabet_ : option (list letter)) : result Permutation_class :=
  GeneralizedPermutation set_iter (fst (list_ arg1)) (snd (list_ arg1))
    (Some match reduced with None => labels_is_None arg1 | Some b => b end)
    (Some match flips with None => flips_ arg1 | Some f => f end)
    (Some match alphabet_ with None => alphabet arg1 | Some al => al end).

(** Some letter occurs twice in the row. *)
Definition doubled (r : list letter) : Prop := exists x, count r x = 2.

(** A supplied length that passes the loop of
    [IntervalExchangeTransformation]: a number that [float] converts and
    that is not below zero, or one of the floats [inf] and [nan]. *)
Definition passes (float_converts : Q -> bool) (v : pyval) : Prop :=
  match v with
  | Num q => float_converts q = true /\ (0 <= q)%Q
  | PosInf | NaN => True
  | _ => False
  end.

(** The flips that an argument of [IntervalExchangeTransformation] which
    is not an object brings to [Permutation]: the flips a tuple holds, the
    flips of an object inside a tuple. *)
Definition tuple_flips (permutation : permutation_arg) : list letter :=
  match permutation with
  | PermTuple _ _ _ (Some f) _ => f
  | PermTupleObject o _ None _ => flips_ o
  | PermTupleObject _ _ (Some f) _ => f
  | _ => []
  end.

(** [float] on the numbers of Python, [int] and [Fraction]: the division
    is rounded to the nearest double, and overflows from
    [2^1024 - 2^970] on. *)
Definition double_bound : Q := inject_Z (2 ^ 1024 - 2 ^ 970).
Definition py_float_converts (q : Q) : bool :=
  negb (Qle_bool double_bound q) && negb (Qle_bool q (- double_bound)).

(** A decimal digit. *)
Definition is_digit (c : Ascii.ascii) : bool :=
  (48 <=? Ascii.nat_of_ascii c) && (Ascii.nat_of_ascii c <=? 57).

(** *** [_two_lists] *)

Definition newline : Ascii.ascii := Ascii.ascii_of_nat 10.
Definition space : Ascii.ascii := Ascii.ascii_of_nat 32.

(** [s.split(sep)] for a separator of one character: the pieces between
    the occurrences of [sep], empty pieces included. *)
Fixpoint split_on (sep : Ascii.ascii) (s : string) : list string :=
  match s with
  | EmptyString => [EmptyString]
  | String c s' =>
      if Ascii.eqb c sep then EmptyString :: split_on sep s'
      else match split_on sep s' with
           | w :: ws => String c w :: ws
           | [] => [String c EmptyString]
           end
  end.

(** The number of occurrences of a character. *)
Fixpoint occurrences (sep : Ascii.ascii) (s : string) : nat :=
  match s with
  | EmptyString => 0
  | String c s' => (if Ascii.eqb c sep then 1 else 0) + occurrences sep s'
  end.

(** Every character of the string passes the test. *)
Fixpoint all_chars (P : Ascii.ascii -> bool) (s : string) : bool :=
  match s with
  | EmptyString => true
  | String c s' => P c && all_chars P s'
  end.

(** For the examples: the strings of decimal digits, which [float]
    parses; the examples hold no other string that [float] parses. *)
Definition decimal_digits (s : string) : bool :=
  negb (String.eqb s EmptyString) && all_chars is_digit s.

(** What [_two_lists] receives: [None], a string, a list or a tuple, a
    permutation of Sage ([sage.combinat.permutation.Permutation], by the
    list of its images), an element of a permutation group (by its domain
    and the images of the domain), or a value of another type (an integer
    in the doctests). *)
#[warnings="-register-all"]
Inductive arg : Type :=
| ANone
| AStr (s : string)
| AInt (z : Z)
| AList (items : list arg)
| ATuple (items : list arg)
| ACombinatPermutation (images : list Z)
| APermutationGroupElement (dom images : list arg).

(** [list(range(1, n + 1))] *)
Definition range1 (n : nat) : list arg :=
  map (fun i => AInt (Z.of_nat i)) (seq 1 n).

Section TwoLists.

(** The characters that [str.split()] takes for whitespace (the running
    Python decides which they are). *)
Variable isspace : Ascii.ascii -> bool.

(** [CombinatPermutation(arg1)] of Sage on the items of a list or of a
    tuple: the images of the permutation it builds, [None] when it
    raises. *)
Variable CombinatPermutation : list arg -> option (list Z).

(** The string is over, or goes on with whitespace. *)
Definition at_gap (s : string) : bool :=
  match s with
  | EmptyString => true
  | String c _ => isspace c
  end.

(** [s.split()]: the words between the runs of whitespace. *)
Fixpoint words (s : string) : list string :=
  match s with
  | EmptyString => []
  | String c s' =>
      if isspace c then words s'
      else if at_gap s' then String c EmptyString :: words s'
      else match words s' with
           | w :: ws => String c w :: ws
           | [] => [String c EmptyString]
           end
  end.

(** A label as [split()] yields them: not empty, without whitespace. *)
Definition clean (w : string) : bool :=
  negb (String.eqb w EmptyString) && all_chars (fun c => negb (isspace c)) w.

(** [for a in (arg1, arg2):
       if isinstance(a, (tuple, list)): res.append(list(a))
       elif isinstance(a, str): res.append(a.split())
       else: raise TypeError('argument not accepted')] *)
Definition as_row (a : arg) : result (list arg) :=
  match a with
  | AList items | ATuple items => Ok items
  | AStr s => Ok (map AStr (words s))
  | _ => Raise (TypeError "argument not accepted")
  end.

Definition two_rows (arg1 arg2 : arg) : result (list (list arg)) :=
  match arg2 with
  | ANone => Raise (ValueError "argument can not be split into two parts")
  | _ =>
      r1 <- as_row arg1 ;;
      r2 <- as_row arg2 ;;
      Ok [r1; r2]
  end.

(** [_two_lists(arg1, arg2)]: the branches taken when [arg2 is None]
    return, raise, or unpack [arg1] into the two arguments; what is left
    goes through the loop over the two arguments. *)
Definition _two_lists (arg1 arg2 : arg) : result (list (list arg)) :=
  match arg2 with
  | ANone =>
      match arg1 with
      | AStr s =>
          match split_on newline s with
          | [t0; t1] => Ok [map AStr (words t0); map AStr (words t1)]
          | _ => Raise (ValueError "the chain must contain two lines")
          end
      | ACombinatPermutation images =>
          Ok [range1 (length images); map AInt images]
      | APermutationGroupElement dom images => Ok [dom; images]
      | AList items | ATuple items =>
          match CombinatPermutation items with
          | Some t => Ok [range1 (length t); map AInt t]
          | None =>
              match items with
              | [x; y] => two_rows x y
              | _ => Raise (ValueError "argument not accepted")
              end
          end
      | _ => two_rows arg1 arg2
      end
  | _ => two_rows arg1 arg2
  end.

End TwoLists.

(** The whitespace of Python 3 among the characters of code below 256. *)
Definition isspace3 (c : Ascii.ascii) : bool :=
  let n := Ascii.nat_of_ascii c in
  ((9 <=? n) && (n <=? 13)) || ((28 <=? n) && (n <=? 32))
  || (n =? 133) || (n =? 160).

(** A Sage that reads no list as a permutation, for the examples. *)
Definition no_CombinatPermutation (items : list arg) : option (list Z) :=
  None.

(** * Properties *)

(** ** Letters, membership and counting *)

Lemma letter_eqb_eq x y : letter_eqb x y = true <-> x = y.
Proof.
  unfold letter_eqb. destruct (letter_eq_dec x y); split; congruence.
Qed.

Lemma letter_eqb_refl x : letter_eqb x x = true.
Proof. now apply letter_eqb_eq. Qed.

Lemma letter_eqb_neq x y : letter_eqb x y = false <-> x <> y.
Proof.
  unfold letter_eqb. destruct (letter_eq_dec x y); split; congruence.
Qed.

Lemma mem_In x row : mem x row = true <-> In x row.
Proof.
  unfold mem. rewrite existsb_exists. split.
  - intros (y & Hy & E). apply letter_eqb_eq in E. now subst.
  - intros H. exists x. split; [assumption | apply letter_eqb_refl].
Qed.

Lemma mem_false x row : mem x row = false <-> ~ In x row.
Proof.
  rewrite <- mem_In. destruct (mem x row); split; congruence.
Qed.

Lemma count_app r1 r2 x : count (r1 ++ r2) x = count r1 x + count r2 x.
Proof. apply count_occ_app. Qed.

Lemma count_In row x : In x row <-> 0 < count row x.
Proof. apply count_occ_In. Qed.

Lemma count_notin row x : ~ In x row -> count row x = 0.
Proof. apply count_occ_not_In. Qed.

(** ** The validation loops *)

Lemma bind_Ok {A B} (r : result A) (k : A -> result B) a :
  r = Ok a -> bind r k = k a.
Proof. intros ->. reflexivity. Qed.

Lemma check_flips_Ok l f :
  (forall x, In x f -> In x l) -> check_flips l f = Ok tt.
Proof.
  induction f as [|x f IH]; intros H; simpl; [reflexivity|].
  assert (Hx : mem x l = true) by (apply mem_In, H; now left).
  rewrite Hx. apply IH. intros y Hy. apply H. now right.
Qed.

Lemma check_flips_Raise l f :
  ~ (forall x, In x f -> In x l) -> check_flips l f = Raise InvalidFlipLetter.
Proof.
  induction f as [|x f IH]; intros H; simpl.
  - exfalso. apply H. intros x [].
  - destruct (mem x l) eqn:Hx; [|reflexivity].
    apply IH. intros H'. apply H. intros y [<-|Hy]; [now apply mem_In | auto].
Qed.

Lemma check_flips_cases l f :
  check_flips l f = Ok tt \/ check_flips l f = Raise InvalidFlipLetter.
Proof.
  induction f as [|x f IH]; simpl; [now left|].
  destruct (mem x l); [exact IH | now right].
Qed.

Lemma check_flips_inv l f :
  check_flips l f = Ok tt -> forall x, In x f -> In x l.
Proof.
  induction f as [|x f IH]; simpl; intros H y Hy; [contradiction|].
  destruct (mem x l) eqn:Hx; [|discriminate].
  destruct Hy as [<-|Hy]; [now apply mem_In | now apply IH].
Qed.

Lemma check_once_Ok top bottom letters :
  (forall x, In x letters -> count top x = 1 /\ count bottom x = 1) ->
  check_once top bottom letters = Ok tt.
Proof.
  induction letters as [|x r IH]; intros H; simpl; [reflexivity|].
  destruct (H x (or_introl eq_refl)) as [-> ->]. simpl.
  apply IH. intros y Hy. apply H. now right.
Qed.

Lemma check_once_Raise top bottom letters x :
  In x letters -> count top x <> 1 \/ count bottom x <> 1 ->
  check_once top bottom letters = Raise LetterMultiplicityError.
Proof.
  induction letters as [|y r IH]; intros Hx Hc; simpl; [contradiction|].
  destruct (negb (count top y =? 1) || negb (count bottom y =? 1)) eqn:E;
    [reflexivity|].
  destruct Hx as [->|Hx]; [|now apply IH].
  apply orb_false_elim in E. destruct E as [E1 E2].
  apply negb_false_iff, Nat.eqb_eq in E1, E2. lia.
Qed.

Lemma check_once_inv top bottom letters :
  check_once top bottom letters = Ok tt ->
  forall x, In x letters -> count top x = 1 /\ count bottom x = 1.
Proof.
  induction letters as [|y r IH]; simpl; intros H x Hx; [contradiction|].
  destruct (negb (count top y =? 1) || negb (count bottom y =? 1)) eqn:E;
    [discriminate|].
  destruct Hx as [<-|Hx]; [|now apply IH].
  apply orb_false_elim in E. destruct E as [E1 E2].
  apply negb_false_iff, Nat.eqb_eq in E1, E2. now split.
Qed.

Lemma check_once_Raise_inv top bottom letters e :
  check_once top bottom letters = Raise e ->
  exists x, In x letters /\ (count top x <> 1 \/ count bottom x <> 1).
Proof.
  induction letters as [|y r IH]; simpl; intros H; [discriminate|].
  destruct (negb (count top y =? 1) || negb (count bottom y =? 1)) eqn:E.
  - exists y. split; [now left|].
    apply orb_true_iff in E. destruct E as [E|E];
      apply negb_true_iff, Nat.eqb_neq in E; auto.
  - destruct (IH H) as (x & Hx & Hc). exists x. split; [now right | exact Hc].
Qed.

Lemma check_once_cases top bottom letters :
  check_once top bottom letters = Ok tt \/
  check_once top bottom letters = Raise LetterMultiplicityError.
Proof.
  induction letters as [|y r IH]; simpl; [now left|].
  destruct (negb (count top y =? 1) || negb (count bottom y =? 1));
    [now right | exact IH].
Qed.

Lemma check_twice_Ok l letters :
  (forall x, In x letters -> count l x = 2) -> check_twice l letters = Ok tt.
Proof.
  induction letters as [|x r IH]; intros H; simpl; [reflexivity|].
  rewrite (H x (or_introl eq_refl)). simpl.
  apply IH. intros y Hy. apply H. now right.
Qed.

(** ** Deleting the letters that occur once in each row *)

Lemma count_filter (f : letter -> bool) row x :
  count (filter f row) x = if f x then count row x else 0.
Proof.
  unfold count. induction row as [|y r IH]; simpl.
  - now destruct (f x).
  - destruct (f y) eqn:Fy; simpl; destruct (letter_eq_dec y x) as [->|N].
    + rewrite IH, Fy. reflexivity.
    + exact IH.
    + rewrite IH, Fy. reflexivity.
    + exact IH.
Qed.

Lemma del_index_single x b :
  count b x = 1 ->
  del_index x b = Ok (filter (fun y => negb (letter_eqb x y)) b).
Proof.
  unfold count. induction b as [|y r IH]; simpl; intros H; [discriminate|].
  destruct (letter_eq_dec y x) as [->|N].
  - rewrite letter_eqb_refl. simpl. f_equal.
    injection H as H. symmetry. apply forallb_filter_id.
    apply forallb_forall. intros z Hz. apply negb_true_iff, letter_eqb_neq.
    intros <-. apply (count_occ_In letter_eq_dec) in Hz. lia.
  - assert (E : letter_eqb x y = false) by (apply letter_eqb_neq; congruence).
    rewrite E. simpl. rewrite (IH H). reflexivity.
Qed.

Lemma filter_filter (f g : letter -> bool) row :
  filter f (filter g row) = filter (fun y => g y && f y) row.
Proof.
  induction row as [|y r IH]; simpl; [reflexivity|].
  destruct (g y); simpl; [destruct (f y)|]; now rewrite IH.
Qed.

Lemma strip_once_spec top bottom letters :
  (forall x, In x letters -> count top x = 1 -> count bottom x = 1) ->
  forall del,
  (forall y, In y del -> count top y = 1) ->
  exists del',
    strip_once letters (filter (notin del) top) (filter (notin del) bottom)
    = Ok (filter (notin del') top, filter (notin del') bottom) /\
    (forall y, In y del' <-> In y del \/ (In y letters /\ count top y = 1)).
Proof.
  induction letters as [|x r IH]; intros Hl del Hdel; simpl.
  - exists del. split; [reflexivity|]. intros y. tauto.
  - rewrite count_filter. unfold notin at 1.
    destruct (mem x del) eqn:Hx; simpl.
    + destruct (IH (fun y Hy => Hl y (or_intror Hy)) del Hdel) as (d & E & Hd).
      exists d. split; [exact E|]. intros y. rewrite Hd.
      split; [tauto|]. intros [H|[[<-|H] Hc]]; [tauto| |tauto].
      left. now apply mem_In.
    + destruct (count top x =? 1) eqn:Hc.
      * apply Nat.eqb_eq in Hc.
        assert (Hb : count bottom x = 1) by (apply Hl; [now left | exact Hc]).
        rewrite del_index_single
          by (rewrite count_filter; unfold notin; now rewrite Hx).
        simpl.
        rewrite del_index_single
          by (rewrite count_filter; unfold notin; now rewrite Hx).
        simpl. rewrite !filter_filter.
        assert (Ext : forall row,
          filter (fun y => notin del y && negb (letter_eqb x y)) row
          = filter (notin (x :: del)) row).
        { intros row. apply filter_ext. intros y. unfold notin. simpl.
          destruct (letter_eq_dec x y) as [<-|N].
          - rewrite !letter_eqb_refl. simpl. apply andb_false_r.
          - assert (E1 : letter_eqb x y = false) by now apply letter_eqb_neq.
            assert (E2 : letter_eqb y x = false)
              by (apply letter_eqb_neq; congruence).
            rewrite E1, E2. simpl. apply andb_true_r. }
        rewrite !Ext.
        destruct (IH (fun y Hy => Hl y (or_intror Hy)) (x :: del))
          as (d & E & Hd).
        { intros y [<-|Hy]; [exact Hc | now apply Hdel]. }
        exists d. split; [exact E|]. intros y. rewrite Hd. simpl.
        split; [|tauto].
        intros [[<-|H]|H]; tauto.
      * apply Nat.eqb_neq in Hc.
        destruct (IH (fun y Hy => Hl y (or_intror Hy)) del Hdel)
          as (d & E & Hd).
        exists d. split; [exact E|]. intros y. rewrite Hd.
        split; [tauto|]. intros [H|[[<-|H] Hc']]; tauto.
Qed.

Lemma filter_notin_nil row : filter (notin []) row = row.
Proof.
  apply forallb_filter_id. apply forallb_forall. reflexivity.
Qed.

(** ** The factories on two rows *)

Section ConstructorsFacts.

Variable set_iter : list letter -> list letter.
Hypothesis set_iter_In : forall l x, In x (set_iter l) <-> In x l.

Lemma set_iter_intro l x : In x l -> In x (set_iter l).
Proof. apply set_iter_In. Qed.

Lemma set_iter_elim l x : In x (set_iter l) -> In x l.
Proof. apply set_iter_In. Qed.

Lemma strip_once_delete_once top bottom :
  (forall x, In x (top ++ bottom) -> count (top ++ bottom) x = 2) ->
  strip_once (set_iter (top ++ bottom)) top bottom
  = Ok (delete_once top bottom top, delete_once top bottom bottom).
Proof.
  intros H2.
  destruct (@strip_once_spec top bottom (set_iter (top ++ bottom))) with (del := @nil letter)
    as (d & E & Hd).
  - intros x Hx Hc. apply set_iter_elim in Hx. specialize (H2 x Hx).
    rewrite count_app in H2. lia.
  - intros y [].
  - rewrite !filter_notin_nil in E. rewrite E. unfold delete_once.
    assert (Ext : forall row, incl row (top ++ bottom) ->
      filter (notin d) row
      = filter (fun x => negb ((count top x =? 1) && (count bottom x =? 1)))
          row).
    { intros row Hrow. apply filter_ext_in. intros y Hy. unfold notin.
      f_equal. apply Hrow in Hy. pose proof (H2 y Hy) as Hc.
      rewrite count_app in Hc.
      destruct (mem y d) eqn:M.
      - apply mem_In, Hd in M. destruct M as [[]|[_ M]].
        symmetry. apply andb_true_iff. split; apply Nat.eqb_eq; lia.
      - symmetry. apply andb_false_iff. left. apply Nat.eqb_neq. intros C.
        apply mem_false in M. apply M, Hd. right. split; [|exact C].
        now apply set_iter_intro. }
    rewrite !Ext; [reflexivity | |].
    + intros y Hy. apply in_or_app. now right.
    + intros y Hy. apply in_or_app. now left.
Qed.

Lemma Permutation_flips_invalid top bottom reduced flips alphabet_ :
  ~ flips_valid (top ++ bottom) flips ->
  Permutation set_iter top bottom reduced flips alphabet_
  = Raise InvalidFlipLetter.
Proof.
  intros H. unfold Permutation. destruct flips as [f|]; [|now elim H].
  destruct f as [|x f]; [elim H; intros x []|]. cbn [is_nil].
  rewrite (@check_flips_Raise (top ++ bottom) (x :: f) H). reflexivity.
Qed.

Lemma Permutation_flips_valid top bottom reduced flips alphabet_ :
  flips_valid (top ++ bottom) flips ->
  Permutation set_iter top bottom reduced flips alphabet_
  = let reduced := match reduced with None => false | Some b => b end in
    let flips := match flips with
                 | None => None
                 | Some f => if is_nil f then None else Some f
                 end in
    check_once top bottom (set_iter (top ++ bottom)) ;;;
    Ok (new (if reduced
             then match flips with
                  | None => ReducedPermutationIET
                  | Some _ => FlippedReducedPermutationIET
                  end
             else match flips with
                  | None => LabelledPermutationIET
                  | Some _ => FlippedLabelledPermutationIET
                  end) (top, bottom) alphabet_ reduced flips).
Proof.
  intros H. unfold Permutation. destruct flips as [f|]; [|reflexivity].
  destruct f as [|x f]; [reflexivity|]. cbn [is_nil].
  rewrite (@check_flips_Ok (top ++ bottom) (x :: f) H). reflexivity.
Qed.

(** C6. [Permutation], called on two rows (with flips that name letters of
    the rows, if any are given), raises the error "letters must appear once
    in each interval" if and only if some letter of the rows does not occur
    exactly once in the top row or not exactly once in the bottom row. *)
Theorem Permutation_multiplicity_iff top bottom reduced flips alphabet_ :
  flips_valid (top ++ bottom) flips ->
  Permutation set_iter top bottom reduced flips alphabet_
  = Raise LetterMultiplicityError
  <->
  exists x, In x (top ++ bottom) /\ (count top x <> 1 \/ count bottom x <> 1).
Proof.
  intros Hf. rewrite (@Permutation_flips_valid top bottom reduced flips alphabet_ Hf). cbv zeta.
  split.
  - intros H.
    destruct (check_once top bottom (set_iter (top ++ bottom))) eqn:E;
      [discriminate|].
    destruct (@check_once_Raise_inv _ _ _ _ E) as (x & Hx & Hc).
    exists x. split; [now apply set_iter_elim | exact Hc].
  - intros (x & Hx & Hc).
    rewrite (@check_once_Raise top bottom _ x); [reflexivity| |exact Hc].
    now apply set_iter_intro.
Qed.

(** When no letter breaks the rule and the flips are letters of the rows,
    [Permutation] returns an object of one of the four IET classes. *)
Lemma Permutation_returns top bottom reduced flips alphabet_ :
  flips_valid (top ++ bottom) flips ->
  (forall x, In x (top ++ bottom) -> count top x = 1 /\ count bottom x = 1) ->
  exists p, Permutation set_iter top bottom reduced flips alphabet_ = Ok p
            /\ cls_kind (p_cls p) = IET_kind
            /\ p_a p = (top, bottom).
Proof.
  intros Hf H1. rewrite (@Permutation_flips_valid top bottom reduced flips alphabet_ Hf). cbv zeta.
  rewrite check_once_Ok
    by (intros x Hx; apply H1; now apply set_iter_elim).
  simpl. eexists. split; [reflexivity|]. split; [|reflexivity].
  simpl. destruct reduced as [[|]|]; destruct flips as [[|]|]; reflexivity.
Qed.

Lemma Permutation_kind top bottom reduced flips alphabet_ p :
  Permutation set_iter top bottom reduced flips alphabet_ = Ok p ->
  cls_kind (p_cls p) = IET_kind.
Proof.
  unfold Permutation.
  destruct (match flips with
            | None => Ok None
            | Some f => if is_nil f then Ok None
                        else check_flips (top ++ bottom) f ;;; Ok (Some f)
            end) as [fl|e]; simpl; [|discriminate].
  destruct (check_once top bottom (set_iter (top ++ bottom))); simpl;
    [|discriminate].
  intros [= <-]. simpl.
  destruct reduced as [[|]|]; destruct fl; reflexivity.
Qed.

Lemma Permutation_reduced_default top bottom reduced flips alphabet_ :
  Permutation set_iter top bottom
    (Some match reduced with None => false | Some b => b end) flips alphabet_
  = Permutation set_iter top bottom reduced flips alphabet_.
Proof. destruct reduced; reflexivity. Qed.

(** C9. On rows in which every letter occurs exactly once in the top row
    and exactly once in the bottom row, [GeneralizedPermutation] gives what
    [Permutation] gives on the same arguments; an object it returns is of
    IET kind, never a linear involution, and it does return one when the
    flips (if any) are letters of the rows. *)
Theorem GeneralizedPermutation_once_is_Permutation
    top bottom reduced flips alphabet_ :
  (forall x, In x (top ++ bottom) -> count top x = 1 /\ count bottom x = 1) ->
  GeneralizedPermutation set_iter top bottom reduced flips alphabet_
  = Permutation set_iter top bottom reduced flips alphabet_
  /\ (forall p,
        GeneralizedPermutation set_iter top bottom reduced flips alphabet_
        = Ok p -> cls_kind (p_cls p) = IET_kind)
  /\ (flips_valid (top ++ bottom) flips ->
      exists p,
        GeneralizedPermutation set_iter top bottom reduced flips alphabet_
        = Ok p /\ p_a p = (top, bottom)).
Proof.
  intros H1.
  assert (E : GeneralizedPermutation set_iter top bottom reduced flips alphabet_
              = Permutation set_iter top bottom reduced flips alphabet_).
  { assert (H2 : forall x, In x (top ++ bottom) ->
                           count (top ++ bottom) x = 2).
    { intros x Hx. rewrite count_app. destruct (H1 x Hx). lia. }
    assert (Hdel : forall row, incl row (top ++ bottom) ->
                               delete_once top bottom row = []).
    { intros row Hrow. unfold delete_once.
      induction row as [|y r IH]; [reflexivity|]. simpl.
      destruct (H1 y (Hrow y (or_introl eq_refl))) as [-> ->]. simpl.
      apply IH. intros z Hz. apply Hrow. now right. }
    unfold GeneralizedPermutation.
    assert (Hv : flips_valid (top ++ bottom) flips
                 \/ ~ flips_valid (top ++ bottom) flips).
    { destruct flips as [f|]; [|now left]. simpl.
      destruct (check_flips_cases (top ++ bottom) f) as [C|C].
      - left. now apply check_flips_inv.
      - right. intros V. rewrite check_flips_Ok in C by exact V.
        discriminate. }
    destruct Hv as [V|V].
    - assert (C : match flips with
                  | None => Ok tt
                  | Some f => check_flips (top ++ bottom) f
                  end = Ok tt).
      { destruct flips as [f|]; [|reflexivity]. now apply check_flips_Ok. }
      rewrite C. simpl.
      rewrite check_twice_Ok
        by (intros x Hx; apply H2; now apply set_iter_elim).
      simpl. rewrite (@strip_once_delete_once top bottom H2). simpl.
      rewrite !Hdel; [| intros y Hy; apply in_or_app; now right
                      | intros y Hy; apply in_or_app; now left].
      simpl. apply Permutation_reduced_default.
    - rewrite (@Permutation_flips_invalid top bottom reduced flips alphabet_ V).
      destruct flips as [f|]; [|now elim V].
      rewrite (@check_flips_Raise (top ++ bottom) f V). reflexivity. }
  split; [exact E|]. split.
  - intros p Hp. rewrite E in Hp. exact (@Permutation_kind top bottom reduced flips alphabet_ p Hp).
  - intros V. rewrite E.
    destruct (@Permutation_returns top bottom reduced flips alphabet_ V H1)
      as (p & Hp & _ & Ha).
    exists p. now split.
Qed.

(** C10. When the flips (if any) are letters of the rows and each letter
    occurs exactly twice across the two rows combined, but after deleting
    every letter that occurs once in each row exactly one of the two rows
    is empty, [GeneralizedPermutation] raises "no admissible length" and
    returns no object. *)
Theorem GeneralizedPermutation_no_admissible_length
    top bottom reduced flips alphabet_ :
  flips_valid (top ++ bottom) flips ->
  (forall x, In x (top ++ bottom) -> count (top ++ bottom) x = 2) ->
  (delete_once top bottom top = [] /\ delete_once top bottom bottom <> [])
  \/ (delete_once top bottom top <> [] /\ delete_once top bottom bottom = [])
  ->
  GeneralizedPermutation set_iter top bottom reduced flips alphabet_
  = Raise NoAdmissibleLength.
Proof.
  intros V H2 Hrows. unfold GeneralizedPermutation.
  assert (C : match flips with
              | None => Ok tt
              | Some f => check_flips (top ++ bottom) f
              end = Ok tt).
  { destruct flips as [f|]; [|reflexivity]. now apply check_flips_Ok. }
  rewrite C. simpl.
  rewrite check_twice_Ok by (intros x Hx; apply H2; now apply set_iter_elim).
  simpl. rewrite (@strip_once_delete_once top bottom H2). simpl.
  destruct Hrows as [[-> Hb]|[Ht ->]].
  - destruct (delete_once top bottom bottom); [congruence | reflexivity].
  - destruct (delete_once top bottom top); [congruence | reflexivity].
Qed.

End ConstructorsFacts.

Lemma dedup_In l x : In x (dedup l) <-> In x l.
Proof. unfold dedup. now rewrite <- in_rev, nodup_In, <- in_rev. Qed.

Lemma NoDup_dedup l : NoDup (dedup l).
Proof. unfold dedup. apply NoDup_rev, NoDup_nodup. Qed.

Lemma first_seen_In l x : In x (first_seen l) <-> In x l.
Proof. apply dedup_In. Qed.

Lemma Permutation_multiplicity_iff_witness :
  Permutation first_seen [a_; a_] [b_] None (Some [b_]) None
  = Raise LetterMultiplicityError
  <->
  exists x, In x ([a_; a_] ++ [b_])
            /\ (count [a_; a_] x <> 1 \/ count [b_] x <> 1).
Proof.
  apply (@Permutation_multiplicity_iff first_seen first_seen_In
           [a_; a_] [b_] None (Some [b_]) None).
  simpl. intros x [<-|[]]. right. right. now left.
Defined.

Lemma GeneralizedPermutation_once_is_Permutation_witness :
  GeneralizedPermutation first_seen [a_; b_; c_] [c_; b_; a_] None None None
  = Permutation first_seen [a_; b_; c_] [c_; b_; a_] None None None
  /\ (forall p,
        GeneralizedPermutation first_seen [a_; b_; c_] [c_; b_; a_]
          None None None = Ok p -> cls_kind (p_cls p) = IET_kind)
  /\ (flips_valid ([a_; b_; c_] ++ [c_; b_; a_]) None ->
      exists p,
        GeneralizedPermutation first_seen [a_; b_; c_] [c_; b_; a_]
          None None None = Ok p /\ p_a p = ([a_; b_; c_], [c_; b_; a_])).
Proof.
  apply (@GeneralizedPermutation_once_is_Permutation first_seen first_seen_In
           [a_; b_; c_] [c_; b_; a_] None None None).
  intros x Hx. simpl in Hx.
  repeat (destruct Hx as [<-|Hx]; [split; reflexivity|]). contradiction.
Defined.

Lemma GeneralizedPermutation_no_admissible_length_witness :
  GeneralizedPermutation first_seen [a_] [a_; b_; b_] None (Some [b_]) None
  = Raise NoAdmissibleLength.
Proof.
  apply (@GeneralizedPermutation_no_admissible_length first_seen
           first_seen_In [a_] [a_; b_; b_] None (Some [b_]) None).
  - simpl. intros x [<-|[]]. right. right. now left.
  - intros x Hx. simpl in Hx.
    repeat (destruct Hx as [<-|Hx]; [reflexivity|]). contradiction.
  - left. split; [reflexivity | discriminate].
Defined.

(** ** Building a numeric interval exchange *)

Lemma Qneg_true q : Qneg q = true <-> (q < 0)%Q.
Proof.
  unfold Qneg. rewrite negb_true_iff. split.
  - intros H. apply Qnot_le_lt. intros L. apply Qle_bool_iff in L. congruence.
  - intros H. destruct (Qle_bool 0 q) eqn:E; [|reflexivity].
    apply Qle_bool_iff in E. exfalso. exact (Qlt_not_le _ _ H E).
Qed.

Lemma Qneg_false q : Qneg q = false <-> (0 <= q)%Q.
Proof.
  unfold Qneg. rewrite negb_false_iff. apply Qle_bool_iff.
Qed.

Section Lengths.

Variable set_iter : list letter -> list letter.
Variable float_converts : Q -> bool.
Variable float_parses : string -> bool.

Lemma check_lengths_Ok it :
  all_numeric it ->
  (forall q, In (Num q) it -> float_converts q = true) ->
  (forall q, In (Num q) it -> (0 <= q)%Q) ->
  check_lengths float_converts float_parses it = Ok tt.
Proof.
  induction it as [|v r IH]; intros Hn Hr Hp; simpl; [reflexivity|].
  destruct (Hn v (or_introl eq_refl)) as (q & ->). simpl.
  rewrite (Hr q (or_introl eq_refl)).
  rewrite (proj2 (Qneg_false q)) by (apply Hp; now left).
  apply IH.
  - intros w Hw. apply Hn. now right.
  - intros w Hw. apply Hr. now right.
  - intros w Hw. apply Hp. now right.
Qed.

Lemma check_lengths_negative it q :
  all_numeric it ->
  (forall q, In (Num q) it -> float_converts q = true) ->
  In (Num q) it -> (q < 0)%Q ->
  check_lengths float_converts float_parses it = Raise NonPositiveLength.
Proof.
  induction it as [|v r IH]; intros Hn Hr Hq Hneg; simpl; [contradiction|].
  destruct (Hn v (or_introl eq_refl)) as (q' & ->). simpl.
  rewrite (Hr q' (or_introl eq_refl)).
  destruct (Qneg q') eqn:E; [reflexivity|].
  destruct Hq as [[= ->]|Hq].
  - apply Qneg_true in Hneg. congruence.
  - apply IH; [| |exact Hq | exact Hneg].
    + intros w Hw. apply Hn. now right.
    + intros w Hw. apply Hr. now right.
Qed.

Lemma check_lengths_Raise_inv it :
  all_numeric it ->
  check_lengths float_converts float_parses it = Raise NonPositiveLength ->
  exists q, In (Num q) it /\ (q < 0)%Q.
Proof.
  induction it as [|v r IH]; simpl; intros Hn H; [discriminate|].
  destruct (Hn v (or_introl eq_refl)) as (q & ->). simpl in H.
  destruct (float_converts q); [|discriminate].
  destruct (Qneg q) eqn:E.
  - exists q. split; [now left | now apply Qneg_true].
  - destruct (IH (fun w Hw => Hn w (or_intror Hw)) H) as (q' & Hq & Hneg).
    exists q'. split; [now right | exact Hneg].
Qed.

(** C5, as the code has it.  Once the permutation argument has been
    accepted as [p]: the factory raises "bad number of lengths" whenever the
    number of lengths differs from the number of letters of [p]; when the
    numbers agree and every supplied value is a number that [float]
    converts, it raises "lengths must be non-negative" exactly when some
    supplied length is strictly negative, and otherwise hands [p] and the
    lengths (zero lengths included) to the class of the interval
    exchanges. *)
Theorem IntervalExchangeTransformation_errors permutation lengths p :
  as_permutation set_iter permutation = Ok p ->
  (lengths_len lengths <> len p ->
   IntervalExchangeTransformation set_iter float_converts float_parses
     permutation lengths
   = Raise LengthMismatchError)
  /\ (lengths_len lengths = len p -> all_numeric (lengths_iter lengths) ->
      (forall q, In (Num q) (lengths_iter lengths) ->
                 float_converts q = true) ->
      (IntervalExchangeTransformation set_iter float_converts float_parses
         permutation lengths
       = Raise NonPositiveLength
       <-> exists q, In (Num q) (lengths_iter lengths) /\ (q < 0)%Q)
      /\ ((forall q, In (Num q) (lengths_iter lengths) -> (0 <= q)%Q) ->
          IntervalExchangeTransformation set_iter float_converts
            float_parses permutation lengths
          = Ok (_IET p lengths))).
Proof.
  intros Hp. unfold IntervalExchangeTransformation. rewrite Hp. simpl.
  split.
  - intros Hl. apply Nat.eqb_neq in Hl. rewrite Hl. reflexivity.
  - intros Hl Hn Hr. apply Nat.eqb_eq in Hl. rewrite Hl. simpl. split.
    + split.
      * intros H.
        destruct (check_lengths float_converts float_parses
                    (lengths_iter lengths)) eqn:E; [discriminate|].
        simpl in H. injection H as ->.
        now apply check_lengths_Raise_inv.
      * intros (q & Hq & Hneg).
        now rewrite (check_lengths_negative Hn Hr Hq Hneg).
    + intros Hpos. now rewrite (check_lengths_Ok Hn Hr Hpos).
Qed.

End Lengths.

Lemma IntervalExchangeTransformation_errors_witness :
  let p := new LabelledPermutationIET ([a_; b_], [b_; a_]) None false None in
  let lengths := LengthsList [Num 0; Num (1 # 2)] in
  (lengths_len lengths <> len p ->
   IntervalExchangeTransformation first_seen py_float_converts
     decimal_digits (PermRows [a_; b_] [b_; a_]) lengths
   = Raise LengthMismatchError)
  /\ (lengths_len lengths = len p -> all_numeric (lengths_iter lengths) ->
      (forall q, In (Num q) (lengths_iter lengths) ->
                 py_float_converts q = true) ->
      (IntervalExchangeTransformation first_seen py_float_converts
         decimal_digits (PermRows [a_; b_] [b_; a_]) lengths
       = Raise NonPositiveLength
       <-> exists q, In (Num q) (lengths_iter lengths) /\ (q < 0)%Q)
      /\ ((forall q, In (Num q) (lengths_iter lengths) -> (0 <= q)%Q) ->
          IntervalExchangeTransformation first_seen py_float_converts
            decimal_digits (PermRows [a_; b_] [b_; a_]) lengths
          = Ok (_IET p lengths))).
Proof.
  intros p lengths.
  apply (@IntervalExchangeTransformation_errors first_seen py_float_converts
           decimal_digits (PermRows [a_; b_] [b_; a_]) lengths p).
  reflexivity.
Defined.

(** C5, as the specification words it, fails: a length equal to zero is
    not refused.  On the rows [a b / b a] with the lengths [0, 1/2] the
    factory raises nothing and reaches the call of the class. *)
Lemma IntervalExchangeTransformation_zero_length :
  In (Num 0) (lengths_iter (LengthsList [Num 0; Num (1 # 2)]))
  /\ (0 <= 0)%Q
  /\ IntervalExchangeTransformation first_seen py_float_converts
       decimal_digits (PermRows [a_; b_] [b_; a_])
       (LengthsList [Num 0; Num (1 # 2)])
     = Ok (_IET (new LabelledPermutationIET ([a_; b_], [b_; a_]) None false
                   None)
             (LengthsList [Num 0; Num (1 # 2)]))
  /\ IntervalExchangeTransformation first_seen py_float_converts
       decimal_digits (PermRows [a_; b_] [b_; a_])
       (LengthsList [Num 0; Num (1 # 2)])
     <> Raise NonPositiveLength.
Proof.
  split; [now left|]. split; [apply Qle_refl|].
  split; [vm_compute; reflexivity | vm_compute; discriminate].
Qed.

(** The lengths that the loop does not tell apart by their sign: an [int]
    beyond the range of the doubles, of either sign, stops [float] with an
    [OverflowError] that nothing catches; a string that [float] parses
    fails at the comparison; [None] stops [float] with a [TypeError]; [nan]
    goes through. *)
Example IntervalExchangeTransformation_uncaught :
  let T := IntervalExchangeTransformation first_seen py_float_converts
             decimal_digits (PermRows [a_; b_] [b_; a_]) in
  T (LengthsList [Num (inject_Z (- 2 ^ 1024)); Num 1]) = Raise FloatOverflow
  /\ T (LengthsList [Num (inject_Z (2 ^ 1024)); Num 1]) = Raise FloatOverflow
  /\ T (LengthsList [Text "2"; Num 1]) = Raise NotComparable
  /\ T (LengthsList [Text "x"; Num 1]) = Raise InvalidLengthValue
  /\ T (LengthsList [NoNumber; Num 1]) = Raise NotANumber
  /\ T (LengthsList [NegInf; Num 1]) = Raise NonPositiveLength
  /\ T (LengthsList [NaN; PosInf])
     = Ok (_IET (new LabelledPermutationIET ([a_; b_], [b_; a_]) None false
                   None)
             (LengthsList [NaN; PosInf])).
Proof. vm_compute. repeat split. Qed.

(** ** Canonical numbering and renamings *)

Lemma index_lt x l : In x l -> index x l < length l.
Proof.
  induction l as [|y r IH]; simpl; [contradiction|]. intros H.
  destruct (letter_eqb x y) eqn:E; [lia|].
  apply letter_eqb_neq in E.
  destruct H as [->|H]; [congruence|]. specialize (IH H). lia.
Qed.

Lemma index_le x l : index x l <= length l.
Proof.
  induction l as [|y r IH]; simpl; [lia|].
  destruct (letter_eqb x y); lia.
Qed.

Lemma nth_index x l d : index x l < length l -> nth (index x l) l d = x.
Proof.
  induction l as [|y r IH]; simpl; [lia|]. intros H.
  destruct (letter_eqb x y) eqn:E.
  - apply letter_eqb_eq in E. now subst.
  - apply IH. lia.
Qed.

Lemma index_inj x y l : In x l -> index x l = index y l -> x = y.
Proof.
  intros Hx E. pose proof (index_lt _ _ Hx) as L.
  rewrite <- (nth_index x l x L). rewrite E. apply nth_index. now rewrite <- E.
Qed.

Section Renaming.

Variable f : letter -> letter.
Variable dom : list letter.
Hypothesis f_inj :
  forall x y, In x dom -> In y dom -> f x = f y -> x = y.

Lemma in_map_inj x l : In x dom -> incl l dom -> In (f x) (map f l) -> In x l.
Proof.
  intros Hx Hl H. apply in_map_iff in H. destruct H as (y & E & Hy).
  apply f_inj in E; [now subst | now apply Hl | exact Hx].
Qed.

Lemma nodup_map_inj l :
  incl l dom ->
  nodup letter_eq_dec (map f l) = map f (nodup letter_eq_dec l).
Proof.
  induction l as [|x r IH]; intros Hl; [reflexivity|]. simpl.
  assert (Hr : incl r dom) by (intros y Hy; apply Hl; now right).
  assert (Hx : In x dom) by (apply Hl; now left).
  destruct (in_dec letter_eq_dec x r) as [I|N];
    destruct (in_dec letter_eq_dec (f x) (map f r)) as [I'|N'].
  - now apply IH.
  - elim N'. now apply in_map.
  - elim N. now apply in_map_inj.
  - simpl. f_equal. now apply IH.
Qed.

Lemma index_map_inj x l :
  In x dom -> incl l dom -> index (f x) (map f l) = index x l.
Proof.
  intros Hx. induction l as [|y r IH]; intros Hl; [reflexivity|]. simpl.
  assert (Hr : incl r dom) by (intros z Hz; apply Hl; now right).
  assert (Hy : In y dom) by (apply Hl; now left).
  destruct (letter_eq_dec x y) as [->|N].
  - now rewrite !letter_eqb_refl.
  - assert (E1 : letter_eqb x y = false) by now apply letter_eqb_neq.
    assert (E2 : letter_eqb (f x) (f y) = false).
    { apply letter_eqb_neq. intros E. apply N. now apply f_inj. }
    rewrite E1, E2. f_equal. now apply IH.
Qed.


End Renaming.

Lemma incl_discovery a : incl (discovery a) (fst a ++ snd a).
Proof. intros x Hx. exact (proj1 (dedup_In _ _) Hx). Qed.

Lemma discovery_In a x : In x (discovery a) <-> In x (fst a ++ snd a).
Proof. apply dedup_In. Qed.

Lemma discovery_rename f t b :
  (forall x y, In x (t ++ b) -> In y (t ++ b) -> f x = f y -> x = y) ->
  discovery (map f t, map f b) = map f (discovery (t, b)).
Proof.
  intros Hf. unfold discovery. simpl. rewrite <- map_app.
  unfold dedup. rewrite map_rev, <- (map_rev f (t ++ b)). f_equal.
  apply (@nodup_map_inj f (t ++ b) Hf (rev (t ++ b))).
  intros x Hx. now apply in_rev.
Qed.

Lemma rank_rename f t b x :
  (forall x y, In x (t ++ b) -> In y (t ++ b) -> f x = f y -> x = y) ->
  In x (t ++ b) ->
  rank (map f t, map f b) (f x) = rank (t, b) x.
Proof.
  intros Hf Hx. unfold rank. rewrite (@discovery_rename f t b Hf).
  apply (@index_map_inj f (t ++ b) Hf); [exact Hx | apply incl_discovery].
Qed.

Lemma canon_rename f t b :
  (forall x y, In x (t ++ b) -> In y (t ++ b) -> f x = f y -> x = y) ->
  canon (map f t, map f b) = canon (t, b).
Proof.
  intros Hf. unfold canon. simpl. rewrite !map_map. f_equal.
  - apply map_ext_in. intros x Hx. apply rank_rename; [exact Hf|].
    apply in_or_app. now left.
  - apply map_ext_in. intros x Hx. apply rank_rename; [exact Hf|].
    apply in_or_app. now right.
Qed.

Lemma eq_decb_true {A} (dec : forall x y : A, {x = y} + {x <> y}) x y :
  eq_decb dec x y = true <-> x = y.
Proof. unfold eq_decb. destruct (dec x y); split; congruence. Qed.

Lemma eq_decb_false {A} (dec : forall x y : A, {x = y} + {x <> y}) x y :
  eq_decb dec x y = false <-> x <> y.
Proof. unfold eq_decb. destruct (dec x y); split; congruence. Qed.

Lemma perm_eqb_reduced p q :
  p_reduced p = true -> p_reduced q = true ->
  perm_eqb p q = true <->
  canon (p_a p) = canon (p_a q) /\ canon_flips p = canon_flips q.
Proof.
  intros Rp Rq. unfold perm_eqb. rewrite Rp, Rq.
  rewrite !andb_true_iff. unfold ranks_eqb, flags_eqb.
  rewrite !eq_decb_true. split.
  - intros [[H1 H2] H3]. split; [|exact H3].
    unfold canon in *. simpl in *. congruence.
  - intros [H H3]. unfold canon in *. simpl in *.
    injection H as H1 H2. auto.
Qed.


Lemma renaming_perm_eqb f p q :
  p_reduced p = true -> p_reduced q = true ->
  renaming f p q -> perm_eqb p q = true.
Proof.
  intros Rp Rq (Hf & Ht & Hb & Hfl).
  apply perm_eqb_reduced; [assumption..|].
  destruct (p_a p) as [t b] eqn:Ea. destruct (p_a q) as [t' b'] eqn:Eb.
  simpl in *. subst t' b'. split.
  - symmetry. now apply canon_rename.
  - unfold canon_flips. rewrite Ea, Eb.
    rewrite (@discovery_rename f t b Hf), map_map.
    apply map_ext_in. intros x Hx. apply Hfl.
    now apply (discovery_In (t, b)).
Qed.

Lemma map_eq_corr {A} (g h : letter -> A) l1 l2 x :
  map g l1 = map h l2 -> In x l1 -> exists z, In z l2 /\ g x = h z.
Proof.
  revert l2. induction l1 as [|y r IH]; intros [|z l2] E Hx;
    try contradiction; try discriminate.
  simpl in E. injection E as E1 E2. destruct Hx as [<-|Hx].
  - exists z. split; [now left | exact E1].
  - destruct (IH _ E2 Hx) as (w & Hw & Ew). exists w. split; [now right|].
    exact Ew.
Qed.

Lemma map_nth_index (l l1 l2 : list letter) g :
  map g l1 = map (fun z => index z l) l2 -> incl l2 l ->
  map (fun x => nth (g x) l x) l1 = l2.
Proof.
  revert l2. induction l1 as [|y r IH]; intros [|z l2] E Hl;
    try discriminate; [reflexivity|].
  simpl in E. injection E as E1 E2. simpl. f_equal.
  - rewrite E1. apply nth_index. apply index_lt. apply Hl. now left.
  - apply IH; [exact E2|]. intros w Hw. apply Hl. now right.
Qed.

Lemma perm_eqb_renaming p q :
  p_reduced p = true -> p_reduced q = true ->
  perm_eqb p q = true -> exists f, renaming f p q.
Proof.
  intros Rp Rq H. apply perm_eqb_reduced in H; [|assumption..].
  destruct H as [Hc Hfl].
  destruct (p_a p) as [t b] eqn:Ea. destruct (p_a q) as [t' b'] eqn:Eb.
  unfold canon in Hc. simpl in Hc. injection Hc as Ht Hb.
  set (dq := discovery (t', b')).
  set (f := fun x => nth (rank (t, b) x) dq x).
  assert (Hall : map (rank (t, b)) (t ++ b) = map (rank (t', b')) (t' ++ b'))
    by (rewrite !map_app; congruence).
  assert (Hcorr : forall x, In x (t ++ b) ->
            exists z, In z (t' ++ b') /\ rank (t, b) x = rank (t', b') z
                      /\ f x = z).
  { intros x Hx. destruct (@map_eq_corr _ _ _ _ _ x Hall Hx) as (z & Hz & E).
    exists z. repeat split; [exact Hz | exact E |].
    unfold f. rewrite E. apply nth_index, index_lt.
    now apply (discovery_In (t', b')). }
  exists f. unfold renaming. rewrite Ea, Eb. simpl. repeat split.
  - intros x y Hx Hy E.
    destruct (Hcorr x Hx) as (z & Hz & Rz & Fz).
    destruct (Hcorr y Hy) as (w & Hw & Rw & Fw).
    apply (index_inj x y (discovery (t, b)));
      [now apply (discovery_In (t, b))|].
    change (rank (t, b) x = rank (t, b) y). congruence.
  - apply map_nth_index; [exact Ht|]. intros z Hz.
    apply (discovery_In (t', b')). apply in_or_app. now left.
  - apply map_nth_index; [exact Hb|]. intros z Hz.
    apply (discovery_In (t', b')). apply in_or_app. now right.
  - intros x Hx. destruct (Hcorr x Hx) as (z & Hz & Rz & Fz).
    unfold canon_flips in Hfl. rewrite Ea, Eb in Hfl.
    assert (Lx : rank (t, b) x < length (discovery (t, b))).
    { apply index_lt. now apply (discovery_In (t, b)). }
    assert (Lz : rank (t', b') z < length dq).
    { apply index_lt. now apply (discovery_In (t', b')). }
    assert (E1 : is_flipped p x
                 = nth (rank (t, b) x) (map (is_flipped p) (discovery (t, b)))
                     (is_flipped p x)).
    { rewrite map_nth. f_equal. symmetry. now apply nth_index. }
    assert (E2 : is_flipped q (f x)
                 = nth (rank (t, b) x) (map (is_flipped q) dq)
                     (is_flipped q x)).
    { rewrite map_nth. reflexivity. }
    rewrite E1, E2, Hfl. apply nth_indep.
    rewrite length_map. fold dq. now rewrite Rz.
Qed.

(** ** What [Permutation] returns *)

Lemma Permutation_Ok_inv set_iter top bottom reduced flips alphabet_ p :
  Permutation set_iter top bottom reduced flips alphabet_ = Ok p ->
  flips_valid (top ++ bottom) flips
  /\ check_once top bottom (set_iter (top ++ bottom)) = Ok tt
  /\ p = new (IET_cls (match reduced with None => false | Some b => b end)
                (norm_flips flips))
           (top, bottom) alphabet_
           (match reduced with None => false | Some b => b end)
           (norm_flips flips).
Proof.
  intros H.
  assert (V : flips_valid (top ++ bottom) flips).
  { destruct flips as [f|]; [|exact I]. simpl.
    destruct (check_flips_cases (top ++ bottom) f) as [C|C].
    - now apply check_flips_inv.
    - unfold Permutation in H. destruct f as [|x f]; [intros x []|].
      cbn [is_nil] in H. rewrite C in H. discriminate. }
  split; [exact V|].
  rewrite (@Permutation_flips_valid set_iter top bottom reduced flips
             alphabet_ V) in H.
  cbv zeta in H.
  destruct (check_once top bottom (set_iter (top ++ bottom))) as [[]|e];
    [|discriminate].
  split; [reflexivity|]. simpl in H. injection H as <-. reflexivity.
Qed.

Lemma Permutation_Ok_intro set_iter top bottom reduced flips alphabet_ :
  (forall l x, In x (set_iter l) <-> In x l) ->
  flips_valid (top ++ bottom) flips ->
  (forall x, In x (top ++ bottom) -> count top x = 1 /\ count bottom x = 1) ->
  Permutation set_iter top bottom reduced flips alphabet_
  = Ok (new (IET_cls (match reduced with None => false | Some b => b end)
               (norm_flips flips))
          (top, bottom) alphabet_
          (match reduced with None => false | Some b => b end)
          (norm_flips flips)).
Proof.
  intros Hs V H1.
  rewrite (@Permutation_flips_valid set_iter top bottom reduced flips
             alphabet_ V).
  cbv zeta. rewrite check_once_Ok; [reflexivity|].
  intros x Hx. apply H1. now apply Hs.
Qed.

Lemma mem_map_inj f dom x l :
  (forall x y, In x dom -> In y dom -> f x = f y -> x = y) ->
  In x dom -> incl l dom -> mem (f x) (map f l) = mem x l.
Proof.
  intros Hf Hx Hl. destruct (mem x l) eqn:M.
  - apply mem_In. apply in_map. now apply mem_In.
  - apply mem_false. intros H. apply mem_false in M. apply M.
    now apply (@in_map_inj f dom Hf).
Qed.

Lemma is_flipped_norm c a al r flips x :
  is_flipped (new c a al r (norm_flips flips)) x
  = match flips with None => false | Some f => mem x f end.
Proof.
  unfold is_flipped. simpl. destruct flips as [[|y f]|]; reflexivity.
Qed.

(** C8. In reduced mode two permutations are equal if and only if the rows
    of one are the rows of the other after a one-to-one renaming of the
    letters (that respects the flips); in particular the reduced
    permutations that [Permutation] builds from rows and from renamed rows,
    over any two alphabets, are equal, while the labelled permutations it
    builds from the same rows over two different alphabets are unequal. *)
Theorem reduced_equality_ignores_alphabet :
  (forall p q, p_reduced p = true -> p_reduced q = true ->
     (perm_eqb p q = true <-> exists f, renaming f p q))
  /\ (forall set_iter top bottom f flips al1 al2 p q,
        (forall x y, In x (top ++ bottom) -> In y (top ++ bottom) ->
                     f x = f y -> x = y) ->
        Permutation set_iter top bottom (Some true) flips al1 = Ok p ->
        Permutation set_iter (map f top) (map f bottom) (Some true)
          (option_map (map f) flips) al2 = Ok q ->
        perm_eqb p q = true)
  /\ (forall set_iter top bottom flips al1 al2 p q,
        Permutation set_iter top bottom (Some false) flips (Some al1) = Ok p ->
        Permutation set_iter top bottom (Some false) flips (Some al2) = Ok q ->
        al1 <> al2 -> perm_eqb p q = false).
Proof.
  split; [|split].
  - intros p q Rp Rq. split.
    + now apply perm_eqb_renaming.
    + intros (f & Hf). now apply (@renaming_perm_eqb f).
  - intros set_iter top bottom f flips al1 al2 p q Hf Hp Hq.
    apply Permutation_Ok_inv in Hp. destruct Hp as (Vp & _ & ->).
    apply Permutation_Ok_inv in Hq. destruct Hq as (_ & _ & ->).
    apply (@renaming_perm_eqb f); [reflexivity | reflexivity |].
    unfold renaming. cbn [p_a fst snd]. repeat split; try reflexivity.
    + exact Hf.
    + intros x Hx. rewrite !is_flipped_norm.
      destruct flips as [fl|]; [|reflexivity]. simpl.
      symmetry. apply (@mem_map_inj f (top ++ bottom)); assumption.
  - intros set_iter top bottom flips al1 al2 p q Hp Hq Hne.
    apply Permutation_Ok_inv in Hp. destruct Hp as (_ & _ & ->).
    apply Permutation_Ok_inv in Hq. destruct Hq as (_ & _ & ->).
    unfold perm_eqb. cbn [p_reduced p_a fst snd].
    assert (E : letters_eqb al1 al2 = false)
      by now apply eq_decb_false.
    unfold alphabet. cbn [p_alphabet]. rewrite E.
    now rewrite andb_false_r.
Qed.

(** The two comparisons of the docstring of [Permutation]:
    [Permutation('a b c','c b a', reduced=True)] equals
    [Permutation([0,1,2],[2,1,0], reduced=True)], and the labelled
    [a b / b a] over the alphabets [ab] and [ba] are unequal. *)
Example reduced_abc_equals_012 :
  exists p q,
    Permutation first_seen [a_; b_; c_] [c_; b_; a_] (Some true) None None
    = Ok p
    /\ Permutation first_seen [LInt 0; LInt 1; LInt 2]
         [LInt 2; LInt 1; LInt 0] (Some true) None None = Ok q
    /\ perm_eqb p q = true.
Proof. do 2 eexists. repeat split. Qed.

Example labelled_ab_differs_from_ba :
  exists p q,
    Permutation first_seen [a_; b_] [b_; a_] None None (Some [a_; b_]) = Ok p
    /\ Permutation first_seen [a_; b_] [b_; a_] None None (Some [b_; a_])
       = Ok q
    /\ list_ p = list_ q
    /\ perm_eqb p q = false.
Proof. do 2 eexists. repeat split. Qed.

Lemma reduced_equality_ignores_alphabet_witness :
  let p := new ReducedPermutationIET ([a_; b_; c_], [c_; b_; a_]) None true
             None in
  let q := new ReducedPermutationIET
             ([LInt 0; LInt 1; LInt 2], [LInt 2; LInt 1; LInt 0])
             (Some [LInt 0; LInt 1; LInt 2]) true None in
  let p1 := new LabelledPermutationIET ([a_; b_], [b_; a_]) (Some [a_; b_])
              false None in
  let p2 := new LabelledPermutationIET ([a_; b_], [b_; a_]) (Some [b_; a_])
              false None in
  (perm_eqb p q = true <-> exists f, renaming f p q)
  /\ perm_eqb p q = true
  /\ perm_eqb p1 p2 = false.
Proof.
  intros p q p1 p2.
  destruct reduced_equality_ignores_alphabet as (H1 & H2 & H3).
  split; [apply H1; reflexivity|]. split.
  - apply (H2 first_seen [a_; b_; c_] [c_; b_; a_] abc_to_012 None None
             (Some [LInt 0; LInt 1; LInt 2])); [|reflexivity|reflexivity].
    intros x y Hx Hy. simpl in Hx, Hy.
    repeat (destruct Hx as [<-|Hx]; [|]);
      repeat (destruct Hy as [<-|Hy]; [|]);
      try contradiction; (reflexivity || discriminate).
  - apply (H3 first_seen [a_; b_] [b_; a_] None [a_; b_] [b_; a_]);
      [reflexivity | reflexivity | discriminate].
Defined.

(** ** Rebuilding a permutation from its own rows *)














(** The round trips of the docstring of [Permutation]:
    [iet.Permutation(p) == p] for the labelled, the flipped and the reduced
    [a b c / c b a] and for the reduced flipped [a / a], and
    [iet.Permutation(p, reduced=True) == p] is [False] for a labelled [p]. *)
Example round_trip_docstring :
  let rebuilt p :=
    match Permutation_of first_seen p None None None with
    | Ok p' => perm_eqb p' p
    | Raise _ => false
    end in
  let built r :=
    match r with
    | Ok p => rebuilt p
    | Raise _ => false
    end in
  built (Permutation first_seen [a_; b_; c_] [c_; b_; a_] None None None)
  = true
  /\ built (Permutation first_seen [a_] [a_] (Some true) (Some [a_]) None)
     = true
  /\ built (Permutation first_seen [a_; b_; c_] [c_; b_; a_] None
              (Some [a_]) None) = true
  /\ built (Permutation first_seen [a_; b_; c_] [c_; b_; a_] (Some true)
              None None) = true
  /\ (forall p q,
        Permutation first_seen [a_; b_; c_] [c_; b_; a_] None None None
        = Ok p ->
        Permutation_of first_seen p (Some true) None None = Ok q ->
        perm_eqb q p = false).
Proof.
  repeat split.
  intros p q [= <-] [= <-]. reflexivity.
Qed.

(** ** Composition and inversion of numeric interval exchanges *)

(** The session of the module docstring: the rows of [T*T], of
    [S = T.inverse()], of [S*T] and of [T*S]. *)
Example compose_docstring :
  let rows r := match r with
                | Ok R => (map str (iet_top R), map str (iet_bottom R))
                | Raise _ => ([], [])
                end in
  rows (compose T_ab T_ab)
  = (["aa"; "ab"; "ba"], ["ab"; "ba"; "aa"])%string
  /\ rows (Ok (inverse T_ab)) = (["b"; "a"], ["a"; "b"])%string
  /\ rows (compose (inverse T_ab) T_ab)
     = (["aa"; "bb"], ["aa"; "bb"])%string
  /\ rows (compose T_ab (inverse T_ab))
     = (["bb"; "aa"], ["bb"; "aa"])%string.
Proof. repeat split. Qed.

Lemma pieces_cons x jo so other js ss self :
  pieces x ((jo, so) :: other) ((js, ss) :: self)
  = match (so ?= ss)%Q with
    | Lt => (jo, js, (so - x)%Q) :: pieces so other ((js, ss) :: self)
    | Gt => (jo, js, (ss - x)%Q) :: pieces ss ((jo, so) :: other) self
    | Eq => (jo, js, (ss - x)%Q) :: pieces ss other self
    end.
Proof.
  simpl. destruct (so ?= ss)%Q; reflexivity.
Qed.

Lemma pieces_same sg : forall x, diagonal (pieces x sg sg).
Proof.
  induction sg as [|[j s] sg IH]; intros x pc Hpc; [contradiction|].
  rewrite pieces_cons in Hpc.
  rewrite (proj1 (Qeq_alt s s) (Qeq_refl s)) in Hpc.
  destruct Hpc as [<-|Hpc]; [reflexivity | exact (IH _ _ Hpc)].
Qed.

Lemma singularities_inverse T row :
  forall start, singularities (inverse T) start row = singularities T start row.
Proof.
  induction row as [|x r IH]; intros start; simpl; [reflexivity|].
  unfold length_of. cbn [inverse iet_lengths].
  destruct (lookup x (iet_lengths T)); [|reflexivity].
  simpl. now rewrite IH.
Qed.

Lemma singularities_Ok T row :
  (forall x, In x row -> lookup x (iet_lengths T) <> None) ->
  forall start, exists sg,
    singularities T start row = Ok sg /\ map fst sg = row.
Proof.
  induction row as [|x r IH]; intros H start; simpl.
  - exists []. now split.
  - unfold length_of.
    destruct (lookup x (iet_lengths T)) as [q|] eqn:E;
      [|elim (H x (or_introl eq_refl) E)].
    simpl.
    destruct (IH (fun y Hy => H y (or_intror Hy)) (start + q)%Q)
      as (sg & -> & Hsg).
    simpl. eexists. split; [reflexivity|]. simpl. now rewrite Hsg.
Qed.

Lemma intervals_diagonal keys pcs row :
  diagonal pcs -> incl row keys ->
  exists top,
    top_interval keys pcs row = Ok top
    /\ bottom_interval keys pcs row = Ok (map fst top).
Proof.
  intros Hd. induction row as [|i r IH]; intros Hrow; simpl.
  - exists []. now split.
  - assert (Hi : mem i keys = true) by (apply mem_In, Hrow; now left).
    rewrite Hi.
    destruct (IH (fun y Hy => Hrow y (or_intror Hy))) as (top & -> & ->).
    simpl. eexists. split; [reflexivity|]. f_equal.
    rewrite map_app. f_equal.
    unfold d_other, d_self. rewrite !map_map. cbn [fst snd].
    assert (Ef : filter (fun pc : letter * letter * Q =>
                           letter_eqb (snd (fst pc)) i) pcs
                 = filter (fun pc => letter_eqb (fst (fst pc)) i) pcs).
    { apply filter_ext_in. intros pc Hpc. now rewrite (Hd pc Hpc). }
    rewrite Ef. apply map_ext_in. intros pc Hpc.
    apply filter_In in Hpc. destruct Hpc as [Hpc E].
    apply letter_eqb_eq in E. rewrite <- (Hd pc Hpc), E. reflexivity.
Qed.

Lemma well_formed_rows T :
  well_formed T ->
  incl (iet_top T) (iet_bottom T) /\ incl (iet_bottom T) (iet_top T).
Proof.
  intros [H _]. split; intros x Hx.
  - apply count_In. destruct (H x) as [_ ->]; [|lia].
    apply in_or_app. now left.
  - apply count_In. destruct (H x) as [-> _]; [|lia].
    apply in_or_app. now right.
Qed.

(** C4. For every well-formed numeric IET [T], [compose(inverse(T), T)]
    and [compose(T, inverse(T))] are both defined and both satisfy
    [is_identity]. *)
Theorem compose_inverse_is_identity T :
  well_formed T ->
  (exists R, compose (inverse T) T = Ok R /\ is_identity R = true)
  /\ (exists R, compose T (inverse T) = Ok R /\ is_identity R = true).
Proof.
  intros WF. destruct (well_formed_rows WF) as [Htb Hbt].
  destruct WF as [_ Hlen].
  assert (Hlen' : forall x, In x (iet_bottom T) ->
                            lookup x (iet_lengths T) <> None)
    by (intros x Hx; apply Hlen, Hbt, Hx).
  split.
  - unfold compose.
    change (total_length (inverse T)) with (total_length T).
    rewrite Qeq_bool_refl. cbn [negb].
    change (iet_top (inverse T)) with (iet_bottom T).
    change (iet_bottom (inverse T)) with (iet_top T).
    rewrite singularities_inverse.
    destruct (@singularities_Ok T (iet_bottom T) Hlen' 0%Q) as (sg & -> & Hsg).
    cbn [bind]. rewrite Hsg.
    destruct (@intervals_diagonal (iet_bottom T) (pieces 0 sg sg)
                (iet_top T) (pieces_same sg 0%Q) Htb) as (top & -> & ->).
    cbn [bind]. eexists. split; [reflexivity|].
    unfold is_identity. cbn [iet_top iet_bottom].
    now apply eq_decb_true.
  - unfold compose.
    change (total_length (inverse T)) with (total_length T).
    rewrite Qeq_bool_refl. cbn [negb].
    change (iet_top (inverse T)) with (iet_bottom T).
    change (iet_bottom (inverse T)) with (iet_top T).
    rewrite singularities_inverse.
    destruct (@singularities_Ok T (iet_top T) Hlen 0%Q) as (sg & -> & Hsg).
    cbn [bind]. rewrite Hsg.
    destruct (@intervals_diagonal (iet_top T) (pieces 0 sg sg)
                (iet_bottom T) (pieces_same sg 0%Q) Hbt) as (top & -> & ->).
    cbn [bind]. eexists. split; [reflexivity|].
    unfold is_identity. cbn [iet_top iet_bottom].
    now apply eq_decb_true.
Qed.

Lemma compose_inverse_is_identity_witness :
  (exists R, compose (inverse T_ab) T_ab = Ok R /\ is_identity R = true)
  /\ (exists R, compose T_ab (inverse T_ab) = Ok R /\ is_identity R = true).
Proof.
  apply (@compose_inverse_is_identity T_ab).
  split.
  - intros x Hx. simpl in Hx.
    repeat (destruct Hx as [<-|Hx]; [split; reflexivity|]). contradiction.
  - intros x Hx. simpl in Hx.
    repeat (destruct Hx as [<-|Hx]; [discriminate|]). contradiction.
Defined.

(** ** The induction moves keep the letters *)

Lemma unsnoc_spec l init x : unsnoc l = Some (init, x) -> l = init ++ [x].
Proof.
  revert init. induction l as [|y r IH]; simpl; intros init H; [discriminate|].
  destruct (unsnoc r) as [[init' z]|] eqn:E.
  - injection H as <- <-. simpl. f_equal. now apply IH.
  - injection H as <- <-. destruct r as [|z r]; [reflexivity|].
    simpl in E. destruct (unsnoc r) as [[? ?]|]; discriminate.
Qed.

Lemma insert_after_incl x y l : incl (insert_after x y l) (y :: l).
Proof.
  induction l as [|z r IH]; simpl; [intros u []|].
  destruct (letter_eqb z x); intros u Hu.
  - destruct Hu as [<-|[<-|Hu]]; simpl; auto.
  - destruct Hu as [<-|Hu]; [simpl; auto|].
    destruct (IH u Hu) as [<-|H]; simpl; auto.
Qed.

Lemma insert_before_incl x y l : incl (insert_before x y l) (y :: l).
Proof.
  induction l as [|z r IH]; simpl; [intros u []|].
  destruct (letter_eqb z x); intros u Hu.
  - destruct Hu as [<-|[<-|Hu]]; simpl; auto.
  - destruct Hu as [<-|Hu]; [simpl; auto|].
    destruct (IH u Hu) as [<-|H]; simpl; auto.
Qed.

Lemma letters_In a x : In x (letters a) <-> In x (fst a) \/ In x (snd a).
Proof. unfold letters. apply in_app_iff. Qed.

Lemma row_of_In r a x : In x (row_of r a) -> In x (letters a).
Proof. intros H. apply letters_In. destruct r; simpl in H; auto. Qed.

Lemma letters_mirror a x : In x (letters (mirror a)) <-> In x (letters a).
Proof.
  rewrite !letters_In. unfold mirror. simpl. now rewrite <- !in_rev.
Qed.

Lemma right_rauzy_move_incl winner a a' :
  right_rauzy_move winner a = Ok a' -> incl (letters a') (letters a).
Proof.
  unfold right_rauzy_move.
  destruct (unsnoc (row_of winner a)) as [[w_init w]|] eqn:Ew; [|discriminate].
  destruct (unsnoc (row_of (other winner) a)) as [[l_init l]|] eqn:El;
    [|discriminate].
  apply unsnoc_spec in Ew, El.
  destruct (letter_eqb w l); [discriminate|].
  set (wl := if mem w l_init
             then (row_of winner a, insert_after w l l_init)
             else (insert_before w l w_init ++ [w], l_init)).
  assert (Hw : incl (fst wl) (letters a) /\ incl (snd wl) (letters a)).
  { assert (Hl : In l (letters a)).
    { apply (row_of_In (other winner)). rewrite El. apply in_or_app.
      right. now left. }
    assert (Hli : incl l_init (letters a)).
    { intros u Hu. apply (row_of_In (other winner)). rewrite El.
      apply in_or_app. now left. }
    assert (Hwi : incl (w_init ++ [w]) (letters a)).
    { intros u Hu. apply (row_of_In winner). now rewrite Ew. }
    unfold wl. destruct (mem w l_init); simpl; split.
    - intros u Hu. now apply (row_of_In winner).
    - intros u Hu. apply insert_after_incl in Hu.
      destruct Hu as [<-|Hu]; auto.
    - intros u Hu. apply in_app_or in Hu. destruct Hu as [Hu|Hu].
      + apply insert_before_incl in Hu. destruct Hu as [<-|Hu]; auto.
        apply Hwi. apply in_or_app. now left.
      + apply Hwi. apply in_or_app. now right.
    - exact Hli. }
  destruct Hw as [H1 H2].
  destruct (admissible _); [|discriminate]. intros [= <-].
  intros u Hu. apply letters_In in Hu.
  destruct winner; simpl in Hu; destruct Hu as [Hu|Hu]; auto.
Qed.

Lemma apply_move_incl k a a' :
  apply_move k a = Ok a' -> incl (letters a') (letters a).
Proof.
  destruct k as [winner [|]| | |]; simpl.
  - apply right_rauzy_move_incl.
  - destruct (right_rauzy_move winner (mirror a)) as [r|e] eqn:E;
      [|discriminate].
    simpl. intros [= <-]. intros u Hu.
    apply (proj1 (letters_mirror _ _)) in Hu.
    apply right_rauzy_move_incl in E.
    apply E in Hu. exact (proj1 (letters_mirror _ _) Hu).
  - intros [= <-]. intros u Hu. exact (proj1 (letters_mirror _ _) Hu).
  - intros [= <-]. intros u Hu. apply letters_In in Hu. apply letters_In.
    simpl in Hu. tauto.
  - intros [= <-]. intros u Hu. apply (proj1 (letters_mirror _ _)) in Hu.
    apply letters_In in Hu. apply letters_In. simpl in Hu. tauto.
Qed.

Lemma ends_In winner s a w l :
  ends winner s a = Some (w, l) -> In w (letters a) /\ In l (letters a).
Proof.
  unfold ends.
  set (a0 := match s with Right => a | Left => mirror a end).
  assert (H0 : forall x, In x (letters a0) -> In x (letters a)).
  { intros x. unfold a0. destruct s; [auto|].
    exact (proj1 (letters_mirror _ _)). }
  destruct (unsnoc (row_of winner a0)) as [[wi w']|] eqn:Ew; [|discriminate].
  destruct (unsnoc (row_of (other winner) a0)) as [[li l']|] eqn:El;
    [|discriminate].
  intros [= <- <-]. apply unsnoc_spec in Ew, El. split; apply H0.
  - apply (row_of_In winner). rewrite Ew. apply in_or_app. right. now left.
  - apply (row_of_In (other winner)). rewrite El. apply in_or_app. right.
    now left.
Qed.

Lemma resolve_starts kinds al :
  forall labels v es,
    incl (letters v) al -> resolve kinds v labels = Ok es ->
    Forall (fun e => incl (letters (e_start e)) al) es.
Proof.
  induction labels as [|k rest IH]; simpl; intros v es Hv H.
  - injection H as <-. constructor.
  - destruct (in_dec move_kind_eq_dec k kinds); [|discriminate].
    destruct (apply_move k v) as [v'|e] eqn:E; [|discriminate].
    destruct (resolve kinds v' rest) as [es'|e] eqn:R; [|discriminate].
    simpl in H. injection H as <-. constructor; [exact Hv|].
    apply (IH v'); [|exact R].
    intros u Hu. apply Hv. exact (apply_move_incl _ _ E u Hu).
Qed.

(** ** The incidence matrix of the orbit substitution *)

Lemma sum_zero (f : letter -> nat) j al :
  ~ In j al ->
  list_sum (map (fun k => f k * (if letter_eqb k j then 1 else 0)) al) = 0.
Proof.
  induction al as [|k r IH]; intros H; simpl; [reflexivity|].
  assert (E : letter_eqb k j = false).
  { apply letter_eqb_neq. intros ->. apply H. now left. }
  rewrite E, IH; [lia|]. intros Hj. apply H. now right.
Qed.

Lemma sum_pick (f : letter -> nat) j al :
  NoDup al -> In j al ->
  list_sum (map (fun k => f k * (if letter_eqb k j then 1 else 0)) al) = f j.
Proof.
  induction 1 as [|k r Hk Hr IH]; intros Hj; [contradiction|]. simpl.
  destruct (letter_eq_dec k j) as [->|N].
  - rewrite letter_eqb_refl, sum_zero by exact Hk. lia.
  - assert (E : letter_eqb k j = false) by now apply letter_eqb_neq.
    rewrite E, IH; [lia|]. destruct Hj as [Hj|Hj]; [congruence | exact Hj].
Qed.

Lemma list_sum_add (f g : letter -> nat) al :
  list_sum (map (fun k => f k + g k) al)
  = list_sum (map f al) + list_sum (map g al).
Proof. induction al as [|k r IH]; simpl; [reflexivity | lia]. Qed.

Lemma list_sum_zero (al : list letter) :
  list_sum (map (fun _ => 0) al) = 0.
Proof. induction al as [|k r IH]; simpl; [reflexivity | exact IH]. Qed.

Lemma mmul_identity al M i j :
  NoDup al -> In j al -> mmul al M identity_matrix i j = M i j.
Proof. intros Hn Hj. unfold mmul, identity_matrix. now apply sum_pick. Qed.

Lemma mmul_elementary al M w l i j :
  NoDup al -> In j al -> In w al ->
  mmul al M (elementary w l) i j
  = M i j + (if letter_eqb j l then M i w else 0).
Proof.
  intros Hn Hj Hw. unfold mmul, elementary, identity_matrix.
  rewrite (map_ext _
    (fun k => M i k * (if letter_eqb k j then 1 else 0)
              + (if letter_eqb j l
                 then M i k * (if letter_eqb k w then 1 else 0) else 0))).
  - rewrite list_sum_add, sum_pick by assumption. f_equal.
    destruct (letter_eqb j l).
    + now apply sum_pick.
    + apply list_sum_zero.
  - intros k. destruct (letter_eqb k j), (letter_eqb k w), (letter_eqb j l);
      simpl; lia.
Qed.

Lemma incidence_step s e winner w l i j :
  absorption e = Some (winner, w, l) ->
  incidence_matrix (substitution_step s e) i j
  = incidence_matrix s i j
    + (if letter_eqb j l then incidence_matrix s i w else 0).
Proof.
  intros H. unfold incidence_matrix, substitution_step. rewrite H.
  destruct (letter_eqb j l) eqn:E; [|lia].
  apply letter_eqb_eq in E. subst j.
  destruct winner; rewrite count_app; lia.
Qed.

Lemma absorption_In e winner w l :
  absorption e = Some (winner, w, l) ->
  In w (letters (e_start e)) /\ In l (letters (e_start e)).
Proof.
  unfold absorption. destruct (e_kind e) as [win s| | |]; try discriminate.
  destruct (ends win s (e_start e)) as [[w' l']|] eqn:E; [|discriminate].
  intros [= <- <- <-]. exact (ends_In _ _ _ E).
Qed.

Lemma fold_incidence al :
  NoDup al ->
  forall es M s,
    Forall (fun e => incl (letters (e_start e)) al) es ->
    (forall i j, In j al -> incidence_matrix s i j = M i j) ->
    forall i j, In j al ->
      incidence_matrix (fold_left substitution_step es s) i j
      = fold_left (fun M e => mmul al M (edge_matrix e)) es M i j.
Proof.
  intros Hn. induction es as [|e es IH]; intros M s Hes Hinv i j Hj; simpl.
  - now apply Hinv.
  - inversion Hes as [|e' es' He Hes']; subst.
    apply IH; [exact Hes' | | exact Hj].
    clear i j Hj. intros i j Hj. unfold edge_matrix.
    destruct (absorption e) as [[[winner w] l]|] eqn:A.
    + destruct (absorption_In _ A) as [Hw Hl].
      rewrite (incidence_step s _ i j A).
      rewrite mmul_elementary; [|assumption|assumption|now apply He].
      rewrite Hinv by exact Hj.
      destruct (letter_eqb j l); [|reflexivity].
      rewrite Hinv; [reflexivity | now apply He].
    + rewrite mmul_identity by assumption.
      unfold substitution_step. rewrite A. now apply Hinv.
Qed.

Lemma incidence_identity i j :
  incidence_matrix (fun x => [x]) i j = identity_matrix i j.
Proof.
  unfold incidence_matrix, identity_matrix, count. simpl.
  destruct (letter_eq_dec j i) as [->|N].
  - now rewrite letter_eqb_refl.
  - assert (E : letter_eqb i j = false)
      by (apply letter_eqb_neq; congruence).
    now rewrite E.
Qed.

Lemma resolve_incidence al kinds v labels es :
  NoDup al -> incl (letters v) al -> resolve kinds v labels = Ok es ->
  forall i j, In j al ->
    incidence_matrix (fold_left substitution_step es (fun x => [x])) i j
    = fold_left (fun M e => mmul al M (edge_matrix e)) es identity_matrix i j.
Proof.
  intros Hn Hv R i j Hj.
  apply (fold_incidence Hn).
  - exact (resolve_starts _ _ _ Hv R).
  - intros i' j' _. apply incidence_identity.
  - exact Hj.
Qed.

(** C1. For every path [g] of a Rauzy diagram (over an alphabet of
    distinct letters that names the letters of the start vertex), the
    incidence matrix of [orbit_substitution(g)] and [matrix(g)] are the
    same integer matrix, entry by entry. *)
Theorem orbit_substitution_incidence_matrix d v labels g :
  NoDup (d_alphabet d) -> incl (letters v) (d_alphabet d) ->
  path d v labels = Ok g ->
  matrix_rows (d_alphabet d) (incidence_matrix (orbit_substitution g))
  = matrix_rows (d_alphabet d) (matrix (d_alphabet d) g).
Proof.
  intros Hn Hv Hg. unfold path in Hg.
  destruct (known (d_reduced d) v (d_vertices d)); [|discriminate].
  destruct (resolve (d_kinds d) v labels) as [es|e] eqn:R; [|discriminate].
  simpl in Hg. injection Hg as <-.
  unfold matrix_rows. apply map_ext_in. intros i _.
  apply map_ext_in. intros j Hj.
  unfold orbit_substitution, matrix. cbn [path_edges].
  now apply (@resolve_incidence (d_alphabet d) (d_kinds d) v labels es Hn Hv R).
Qed.

Lemma orbit_substitution_incidence_matrix_witness :
  exists g,
    path d_abc_cba abc_cba g_labels = Ok g
    /\ matrix_rows [a_; b_; c_] (incidence_matrix (orbit_substitution g))
       = matrix_rows [a_; b_; c_] (matrix [a_; b_; c_] g).
Proof.
  eexists. split; [reflexivity|].
  apply (@orbit_substitution_incidence_matrix d_abc_cba abc_cba g_labels).
  - simpl. repeat constructor; simpl; intuition discriminate.
  - intros x Hx. simpl in Hx. simpl.
    repeat (destruct Hx as [<-|Hx]; [tauto|]). contradiction.
  - reflexivity.
Defined.

(** The values of the docstring of [RauzyDiagram] and of [Permutation]:
    the diagram of [a b c / c b a] has 3 permutations, the path [g] has the
    matrix [[1 1 1] [2 4 1] [2 3 2]] and the orbit substitution
    [a->acbbc, b->acbbcbbc, c->acbc]; [rauzy_move_matrix('top')] of
    [a b / b a] is [[1 0] [1 1]] over the alphabet [ab] and
    [[1 1] [0 1]] over the alphabet [ba]. *)
Example path_docstring :
  RauzyDiagram first_seen [a_; b_; c_] [c_; b_; a_] false None None
    default_switches = Ok (Some d_abc_cba)
  /\ (exists g,
        path d_abc_cba abc_cba g_labels = Ok g
        /\ matrix_rows [a_; b_; c_] (matrix [a_; b_; c_] g)
           = [[1; 1; 1]; [2; 4; 1]; [2; 3; 2]]
        /\ images [a_; b_; c_] (orbit_substitution g)
           = ["acbbc"; "acbbcbbc"; "acbc"]%string)
  /\ (let e := mkEdge ([a_; b_], [b_; a_]) (RauzyMove Top Right)
                 ([a_; b_], [b_; a_]) in
      matrix_rows [a_; b_] (edge_matrix e) = [[1; 0]; [1; 1]]
      /\ matrix_rows [b_; a_] (edge_matrix e) = [[1; 1]; [0; 1]]).
Proof.
  split; [vm_compute; reflexivity|]. split.
  - eexists. split; [reflexivity|]. split; vm_compute; reflexivity.
  - split; reflexivity.
Qed.

(** ** Diagrams of linear involutions *)

Lemma GeneralizedPermutation_LI set_iter top bottom reduced flips alphabet_ :
  (forall l x, In x (set_iter l) <-> In x l) ->
  flips_valid (top ++ bottom) flips ->
  (forall x, In x (top ++ bottom) -> count (top ++ bottom) x = 2) ->
  delete_once top bottom top <> [] ->
  delete_once top bottom bottom <> [] ->
  GeneralizedPermutation set_iter top bottom reduced flips alphabet_
  = Ok (new (LI_cls (match reduced with None => false | Some b => b end)
               flips)
          (top, bottom) alphabet_
          (match reduced with None => false | Some b => b end) flips).
Proof.
  intros Hs V H2 Ht Hb. unfold GeneralizedPermutation.
  assert (C : match flips with
              | None => Ok tt
              | Some f => check_flips (top ++ bottom) f
              end = Ok tt).
  { destruct flips as [f|]; [|reflexivity]. now apply check_flips_Ok. }
  rewrite C. simpl.
  rewrite check_twice_Ok
    by (intros x Hx; apply H2; now apply (proj1 (Hs _ _))).
  simpl. rewrite (@strip_once_delete_once set_iter Hs top bottom H2). simpl.
  destruct (delete_once top bottom top); [congruence|].
  destruct (delete_once top bottom bottom); [congruence|].
  reflexivity.
Qed.

(** C3. The Rauzy diagram built by [RauzyDiagram] from the rows
    [a b b / c c a] with the default switches (right induction only) has
    exactly 12 vertices in labelled mode and exactly 4 in reduced mode. *)
Theorem RauzyDiagram_abb_cca_cardinality set_iter :
  (forall l x, In x (set_iter l) <-> In x l) ->
  (exists d,
     RauzyDiagram set_iter [a_; b_; b_] [c_; c_; a_] false None None
       default_switches = Ok (Some d)
     /\ cardinality d = 12)
  /\ (exists d,
        RauzyDiagram set_iter [a_; b_; b_] [c_; c_; a_] true None None
          default_switches = Ok (Some d)
        /\ cardinality d = 4).
Proof.
  intros Hs.
  assert (H2 : forall x, In x ([a_; b_; b_] ++ [c_; c_; a_]) ->
                         count ([a_; b_; b_] ++ [c_; c_; a_]) x = 2).
  { intros x Hx. simpl in Hx.
    repeat (destruct Hx as [<-|Hx]; [reflexivity|]). contradiction. }
  split.
  - unfold RauzyDiagram.
    rewrite (@GeneralizedPermutation_LI set_iter [a_; b_; b_] [c_; c_; a_]
               (Some false) None None Hs I H2)
      by (vm_compute; discriminate).
    cbn [bind]. eexists. split; [vm_compute; reflexivity | reflexivity].
  - unfold RauzyDiagram.
    rewrite (@GeneralizedPermutation_LI set_iter [a_; b_; b_] [c_; c_; a_]
               (Some true) None None Hs I H2)
      by (vm_compute; discriminate).
    cbn [bind]. eexists. split; [vm_compute; reflexivity | reflexivity].
Qed.

Lemma RauzyDiagram_abb_cca_cardinality_witness :
  (exists d,
     RauzyDiagram first_seen [a_; b_; b_] [c_; c_; a_] false None None
       default_switches = Ok (Some d)
     /\ cardinality d = 12)
  /\ (exists d,
        RauzyDiagram first_seen [a_; b_; b_] [c_; c_; a_] true None None
          default_switches = Ok (Some d)
        /\ cardinality d = 4).
Proof.
  apply (@RauzyDiagram_abb_cca_cardinality first_seen first_seen_In).
Defined.

(** The other cardinalities of the docstring of [RauzyDiagram]: 12
    labelled and 6 reduced permutations for [a b c d / d b c a], and 144
    with the symmetric move. *)
Example cardinality_docstring :
  let card r := match r with
                | Ok (Some d) => Some (cardinality d)
                | _ => None
                end in
  card (RauzyDiagram first_seen [a_; b_; c_; d_] [d_; b_; c_; a_] false
          None None default_switches) = Some 12
  /\ card (RauzyDiagram first_seen [a_; b_; c_; d_] [d_; b_; c_; a_] true
             None None default_switches) = Some 6
  /\ card (RauzyDiagram first_seen [a_; b_; c_; d_] [d_; b_; c_; a_] false
             None None (mkSwitches true false false false true)) = Some 144.
Proof. repeat split; vm_compute; reflexivity. Qed.

(** ** The breadth-first exploration *)

Lemma same_vertex_refl reduced v : same_vertex reduced v v = true.
Proof.
  unfold same_vertex. destruct reduced.
  - unfold ranks_eqb. now rewrite !(proj2 (eq_decb_true _ _ _) eq_refl).
  - now apply eq_decb_true.
Qed.

Lemma eq_decb_sym {A} (dec : forall x y : A, {x = y} + {x <> y}) x y :
  eq_decb dec x y = eq_decb dec y x.
Proof. unfold eq_decb. destruct (dec x y), (dec y x); congruence. Qed.

Lemma same_vertex_sym reduced u v :
  same_vertex reduced u v = same_vertex reduced v u.
Proof.
  unfold same_vertex, ranks_eqb. destruct reduced.
  - now rewrite (eq_decb_sym _ (fst (canon u))),
      (eq_decb_sym _ (snd (canon u))).
  - apply eq_decb_sym.
Qed.

Lemma known_app reduced v vs l :
  known reduced v (vs ++ l) = known reduced v vs || known reduced v l.
Proof. apply existsb_app. Qed.

Lemma known_In reduced v vs : In v vs -> known reduced v vs = true.
Proof.
  intros H. apply existsb_exists. exists v. split; [exact H|].
  apply same_vertex_refl.
Qed.

Lemma known_labelled v vs : known false v vs = true -> In v vs.
Proof.
  intros H. apply existsb_exists in H. destruct H as (u & Hu & E).
  apply eq_decb_true in E. now subst.
Qed.

Lemma successors_In kinds v k v' :
  In k kinds -> apply_move k v = Ok v' -> In v' (successors kinds v).
Proof.
  induction kinds as [|k0 r IH]; intros Hk E; [contradiction|]. simpl.
  destruct Hk as [->|Hk].
  - rewrite E. now left.
  - destruct (apply_move k0 v); [right|]; now apply IH.
Qed.

Lemma successors_inv kinds v v' :
  In v' (successors kinds v) ->
  exists k, In k kinds /\ apply_move k v = Ok v'.
Proof.
  induction kinds as [|k0 r IH]; simpl; [contradiction|].
  destruct (apply_move k0 v) as [u|e] eqn:E.
  - intros [<-|H].
    + exists k0. split; [now left | exact E].
    + destruct (IH H) as (k & Hk & Ek). exists k. split; [now right|exact Ek].
  - intros H. destruct (IH H) as (k & Hk & Ek).
    exists k. split; [now right | exact Ek].
Qed.

Lemma add_new_incl reduced succ : forall vs, incl (add_new reduced succ vs) succ.
Proof.
  induction succ as [|v r IH]; intros vs u Hu; [contradiction|].
  simpl in Hu. destruct (known reduced v vs).
  - right. exact (IH _ _ Hu).
  - destruct Hu as [<-|Hu]; [now left | right; exact (IH _ _ Hu)].
Qed.

Lemma add_new_known reduced succ :
  forall vs s, In s succ ->
    known reduced s (vs ++ add_new reduced succ vs) = true.
Proof.
  induction succ as [|v r IH]; intros vs s Hs; [contradiction|]. simpl.
  destruct (known reduced v vs) eqn:K.
  - destruct Hs as [<-|Hs]; [|now apply IH].
    rewrite known_app, K. reflexivity.
  - replace (vs ++ v :: add_new reduced r (vs ++ [v]))
      with ((vs ++ [v]) ++ add_new reduced r (vs ++ [v]))
      by (rewrite <- app_assoc; reflexivity).
    destruct Hs as [<-|Hs]; [|now apply IH].
    rewrite known_app. apply orb_true_iff. left.
    apply known_In. apply in_or_app. right. now left.
Qed.

Lemma distinct_snoc reduced vs v :
  distinct reduced vs = true -> known reduced v vs = false ->
  distinct reduced (vs ++ [v]) = true.
Proof.
  induction vs as [|u r IH]; intros D K; [reflexivity|]. simpl in *.
  apply andb_true_iff in D. destruct D as [D1 D2].
  apply orb_false_iff in K. destruct K as [K1 K2].
  rewrite known_app. simpl. rewrite same_vertex_sym, K1.
  apply negb_true_iff in D1. rewrite D1. simpl. now apply IH.
Qed.

Lemma add_new_distinct reduced succ :
  forall vs, distinct reduced vs = true ->
    distinct reduced (vs ++ add_new reduced succ vs) = true.
Proof.
  induction succ as [|v r IH]; intros vs D; simpl.
  - now rewrite app_nil_r.
  - destruct (known reduced v vs) eqn:K; [now apply IH|].
    replace (vs ++ v :: add_new reduced r (vs ++ [v]))
      with ((vs ++ [v]) ++ add_new reduced r (vs ++ [v]))
      by (rewrite <- app_assoc; reflexivity).
    apply IH. now apply distinct_snoc.
Qed.

(** What the exploration returns: vertices that the seed leads to, no two
    under the same key, closed under the enabled moves. *)
Lemma explore_spec reduced kinds seed :
  forall steps frontier done vs,
    explore steps reduced kinds frontier (done ++ frontier) = Some vs ->
    Forall (reachable kinds seed) (done ++ frontier) ->
    distinct reduced (done ++ frontier) = true ->
    (forall u k u', In u done -> In k kinds -> apply_move k u = Ok u' ->
                    known reduced u' (done ++ frontier) = true) ->
    incl (done ++ frontier) vs
    /\ Forall (reachable kinds seed) vs
    /\ distinct reduced vs = true
    /\ (forall u k u', In u vs -> In k kinds -> apply_move k u = Ok u' ->
                       known reduced u' vs = true).
Proof.
  induction steps as [|n IH]; intros frontier done vs H Hr Hd Hc.
  - destruct frontier as [|v rest]; [|discriminate].
    simpl in H. injection H as <-. rewrite app_nil_r in *.
    repeat split; try assumption. apply incl_refl.
  - destruct frontier as [|v rest].
    + simpl in H. injection H as <-. rewrite app_nil_r in *.
      repeat split; try assumption. apply incl_refl.
    + simpl in H.
      set (fresh := add_new reduced (successors kinds v) (done ++ v :: rest))
        in *.
      assert (E : (done ++ v :: rest) ++ fresh
                  = (done ++ [v]) ++ (rest ++ fresh)).
      { rewrite <- !app_assoc. reflexivity. }
      rewrite E in H.
      assert (Hv : reachable kinds seed v).
      { rewrite Forall_forall in Hr. apply Hr. apply in_or_app. right.
        now left. }
      apply IH in H.
      * destruct H as (Hi & Hr' & Hd' & Hc').
        repeat split; try assumption.
        intros u Hu. apply Hi. rewrite <- E. apply in_or_app. now left.
      * rewrite <- E. apply Forall_app. split; [exact Hr|].
        apply Forall_forall. intros u Hu.
        apply add_new_incl in Hu. apply successors_inv in Hu.
        destruct Hu as (k & Hk & Ek). eapply reach_move; eassumption.
      * rewrite <- E. now apply add_new_distinct.
      * intros u k u' Hu Hk Ek. rewrite <- E.
        apply in_app_or in Hu. destruct Hu as [Hu|[<-|[]]].
        -- rewrite known_app. apply orb_true_iff. left.
           exact (Hc u k u' Hu Hk Ek).
        -- apply add_new_known. eapply successors_In; eassumption.
Qed.

(** The diagram [rauzy_diagram] builds holds the seed, only vertices the
    seed leads to, one per key, and is closed under the enabled moves. *)
Lemma rauzy_diagram_spec p sw d :
  rauzy_diagram p sw = Some d ->
  d_reduced d = p_reduced p /\ d_alphabet d = alphabet p
  /\ d_kinds d = edge_types sw
  /\ In (p_a p) (d_vertices d)
  /\ Forall (reachable (d_kinds d) (p_a p)) (d_vertices d)
  /\ distinct (d_reduced d) (d_vertices d) = true
  /\ (forall u k u', In u (d_vertices d) -> In k (d_kinds d) ->
                     apply_move k u = Ok u' ->
                     known (d_reduced d) u' (d_vertices d) = true).
Proof.
  unfold rauzy_diagram. destruct (has_flips p); [discriminate|].
  destruct (explore _ _ _ _ _) as [vs|] eqn:E; [|discriminate].
  intros [= <-]. cbn [d_reduced d_alphabet d_kinds d_vertices].
  destruct (@explore_spec (p_reduced p) (edge_types sw) (p_a p)
              (vertex_bound (p_a p)) [p_a p] [] vs E)
    as (Hi & Hr & Hd & Hc).
  - constructor; [apply reach_seed | constructor].
  - reflexivity.
  - intros u k u' [].
  - repeat split; try assumption. apply Hi. now left.
Qed.

Lemma reachable_letters kinds seed v :
  reachable kinds seed v -> incl (letters v) (letters seed).
Proof.
  induction 1 as [|v k v' _ IH Hk E]; [apply incl_refl|].
  intros x Hx. apply IH. eapply apply_move_incl; eassumption.
Qed.

(** On the labelled diagrams that [RauzyDiagram] builds with the default
    alphabet no condition is left on the path: the alphabet holds distinct
    letters and names the letters of every vertex. *)
Corollary RauzyDiagram_incidence_matrix
    set_iter top bottom flips sw d v labels g :
  RauzyDiagram set_iter top bottom false flips None sw = Ok (Some d) ->
  path d v labels = Ok g ->
  matrix_rows (d_alphabet d) (incidence_matrix (orbit_substitution g))
  = matrix_rows (d_alphabet d) (matrix (d_alphabet d) g).
Proof.
  unfold RauzyDiagram. intros Hd Hg.
  destruct (GeneralizedPermutation set_iter top bottom (Some false) flips
              None) as [p|e] eqn:Ep; [|discriminate].
  simpl in Hd. injection Hd as Hd.
  destruct (@rauzy_diagram_spec p sw d Hd) as (Er & Ea & _ & _ & Hr & _ & _).
  assert (Hred : p_reduced p = false /\ p_alphabet p = None /\
                 p_a p = (top, bottom)).
  { unfold GeneralizedPermutation in Ep.
    destruct (match flips with
              | None => Ok tt
              | Some f => check_flips (top ++ bottom) f
              end); [|discriminate].
    simpl in Ep.
    destruct (check_twice (top ++ bottom) (set_iter (top ++ bottom)));
      [|discriminate].
    simpl in Ep.
    destruct (strip_once (set_iter (top ++ bottom)) top bottom)
      as [[b0 b1]|]; [|discriminate].
    simpl in Ep.
    destruct (is_nil b0 && is_nil b1).
    - apply Permutation_Ok_inv in Ep. destruct Ep as (_ & _ & ->).
      now repeat split.
    - destruct (is_nil b0 || is_nil b1); [discriminate|].
      injection Ep as <-. now repeat split. }
  destruct Hred as (Hp & Hal & Hpa).
  assert (Hv : In v (d_vertices d)).
  { unfold path in Hg. rewrite Er, Hp in Hg.
    destruct (known false v (d_vertices d)) eqn:K; [|discriminate].
    now apply known_labelled. }
  assert (Halph : d_alphabet d = discovery (p_a p)).
  { rewrite Ea. unfold alphabet. now rewrite Hal. }
  assert (Hn : NoDup (d_alphabet d)) by (rewrite Halph; apply NoDup_dedup).
  assert (Hl : incl (letters v) (d_alphabet d)).
  { rewrite Forall_forall in Hr. specialize (Hr v Hv).
    apply reachable_letters in Hr. intros x Hx. rewrite Halph.
    apply discovery_In. apply Hr, Hx. }
  unfold path in Hg.
  destruct (known (d_reduced d) v (d_vertices d)); [|discriminate].
  destruct (resolve (d_kinds d) v labels) as [es|e] eqn:R; [|discriminate].
  simpl in Hg. injection Hg as <-.
  unfold matrix_rows. apply map_ext_in. intros i _.
  apply map_ext_in. intros j Hj.
  unfold orbit_substitution, matrix. cbn [path_edges].
  now apply (@resolve_incidence (d_alphabet d) (d_kinds d) v labels es Hn Hl R).
Qed.

(** ** Vectors fixed by the matrix of a path

    The matrix of a path multiplies elementary matrices: it bounds the
    identity from above and has a positive entry off the diagonal as soon
    as one edge absorbs an interval.  A vector of positive lengths is then
    never fixed by it. *)

Lemma right_rauzy_move_ends winner a a' w l :
  right_rauzy_move winner a = Ok a' -> ends winner Right a = Some (w, l) ->
  w <> l.
Proof.
  unfold right_rauzy_move, ends.
  destruct (unsnoc (row_of winner a)) as [[wi w']|]; [|discriminate].
  destruct (unsnoc (row_of (other winner) a)) as [[li l']|]; [|discriminate].
  destruct (letter_eqb w' l') eqn:E; [discriminate|].
  intros _ [= <- <-]. now apply letter_eqb_neq.
Qed.

Lemma apply_move_absorbs k v v' r w l :
  apply_move k v = Ok v' -> absorption (mkEdge v k v') = Some (r, w, l) ->
  w <> l.
Proof.
  unfold absorption. cbn [e_kind e_start].
  destruct k as [winner [|]| | |]; try discriminate; simpl; intros H A.
  - destruct (ends winner Right v) as [[w' l']|] eqn:E; [|discriminate].
    injection A as _ <- <-. eapply right_rauzy_move_ends; eassumption.
  - destruct (right_rauzy_move winner (mirror v)) as [u|e] eqn:R;
      [|discriminate].
    destruct (ends winner Left v) as [[w' l']|] eqn:E; [|discriminate].
    injection A as _ <- <-.
    eapply right_rauzy_move_ends; [exact R|]. exact E.
Qed.

Lemma resolve_absorbs kinds :
  forall labels v es,
    resolve kinds v labels = Ok es ->
    Forall (fun e => forall r w l, absorption e = Some (r, w, l) -> w <> l) es.
Proof.
  induction labels as [|k rest IH]; simpl; intros v es H.
  - injection H as <-. constructor.
  - destruct (in_dec move_kind_eq_dec k kinds); [|discriminate].
    destruct (apply_move k v) as [v'|e] eqn:E; [|discriminate].
    destruct (resolve kinds v' rest) as [es'|e] eqn:R; [|discriminate].
    simpl in H. injection H as <-. constructor.
    + intros r w l A. eapply apply_move_absorbs; eassumption.
    + eapply IH; eassumption.
Qed.

Lemma edge_matrix_grows al M e i j :
  NoDup al -> incl (letters (e_start e)) al -> In j al ->
  M i j <= mmul al M (edge_matrix e) i j.
Proof.
  intros Hn He Hj. unfold edge_matrix.
  destruct (absorption e) as [[[r w] l]|] eqn:A.
  - destruct (absorption_In _ A) as [Hw _].
    rewrite mmul_elementary; [lia | assumption | assumption | now apply He].
  - rewrite mmul_identity by assumption. lia.
Qed.

Lemma path_matrix_grows al :
  NoDup al ->
  forall es M i j,
    Forall (fun e => incl (letters (e_start e)) al) es -> In j al ->
    M i j <= fold_left (fun M e => mmul al M (edge_matrix e)) es M i j.
Proof.
  intros Hn. induction es as [|e es IH]; intros M i j Hes Hj; simpl; [lia|].
  inversion Hes as [|e' es' He Hes']; subst.
  apply Nat.le_trans with (mmul al M (edge_matrix e) i j).
  - now apply edge_matrix_grows.
  - now apply IH.
Qed.

Lemma path_matrix_absorbs al :
  NoDup al ->
  forall es M e r w l,
    Forall (fun e => incl (letters (e_start e)) al) es ->
    In e es -> absorption e = Some (r, w, l) ->
    M w w <= fold_left (fun M e => mmul al M (edge_matrix e)) es M w l.
Proof.
  intros Hn. induction es as [|e0 es IH]; intros M e r w l Hes He A;
    [contradiction|].
  inversion Hes as [|e' es' He0 Hes']; subst. simpl.
  assert (Hw : In w al /\ In l al).
  { destruct (absorption_In _ A) as [Hw Hl].
    rewrite Forall_forall in Hes. split; now apply (Hes e He). }
  destruct Hw as [Hw Hl].
  destruct He as [->|He].
  - apply Nat.le_trans with (mmul al M (edge_matrix e) w l).
    + unfold edge_matrix. rewrite A.
      rewrite mmul_elementary by assumption.
      rewrite letter_eqb_refl. lia.
    + now apply path_matrix_grows.
  - apply Nat.le_trans with (mmul al M (edge_matrix e0) w w).
    + now apply edge_matrix_grows.
    + eapply IH; eassumption.
Qed.

Lemma Qnat_ge_1 n : 1 <= n -> (1 <= Qnat n)%Q.
Proof.
  intros H. unfold Qnat. change 1%Q with (inject_Z 1).
  rewrite <- Zle_Qle. lia.
Qed.

Lemma Qnat_nonneg n : (0 <= Qnat n)%Q.
Proof.
  unfold Qnat. change 0%Q with (inject_Z 0). rewrite <- Zle_Qle. lia.
Qed.

Lemma Qsum_lower (c : letter -> nat) (v : letter -> Q) w l al :
  NoDup al -> (forall j, In j al -> (0 < v j)%Q) ->
  1 <= c w -> 1 <= c l -> w <> l ->
  ((if mem w al then v w else 0) + (if mem l al then v l else 0)
   <= Qsum (map (fun j => Qnat (c j) * v j) al))%Q.
Proof.
  intros Hn Hv Hw Hl Hwl. induction Hn as [|k r Hk Hr IH]; simpl.
  - lra.
  - assert (IH' := IH (fun j Hj => Hv j (or_intror Hj))). clear IH.
    assert (Hvk : (0 < v k)%Q) by (apply Hv; now left).
    pose proof (Qnat_nonneg (c k)) as Hck.
    assert (Hterm : (0 <= Qnat (c k) * v k)%Q)
      by (apply Qmult_le_0_compat; lra).
    destruct (letter_eq_dec w k) as [->|Nw].
    + rewrite letter_eqb_refl. simpl.
      assert (El : letter_eqb l k = false)
        by (apply letter_eqb_neq; congruence).
      rewrite El. simpl.
      assert (Mk : mem k r = false) by now apply mem_false.
      rewrite Mk in IH'.
      pose proof (Qnat_ge_1 Hw) as H1.
      assert (H2 : (v k <= Qnat (c k) * v k)%Q).
      { setoid_replace (v k) with (1 * v k)%Q at 1 by ring.
        apply Qmult_le_compat_r; lra. }
      lra.
    + assert (Ew : letter_eqb w k = false) by now apply letter_eqb_neq.
      rewrite Ew. simpl.
      destruct (letter_eq_dec l k) as [->|Nl].
      * rewrite letter_eqb_refl. simpl.
        assert (Mk : mem k r = false) by now apply mem_false.
        rewrite Mk in IH'.
        pose proof (Qnat_ge_1 Hl) as H1.
        assert (H2 : (v k <= Qnat (c k) * v k)%Q).
        { setoid_replace (v k) with (1 * v k)%Q at 1 by ring.
          apply Qmult_le_compat_r; lra. }
        lra.
      * assert (El : letter_eqb l k = false) by now apply letter_eqb_neq.
        rewrite El. simpl. lra.
Qed.

(** No vector of positive lengths is fixed by the matrix of a path that
    has an edge absorbing an interval. *)
Lemma fixed_vector_impossible d v0 labels g (v : letter -> Q) :
  NoDup (d_alphabet d) -> incl (letters v0) (d_alphabet d) ->
  path d v0 labels = Ok g ->
  (exists e, In e (path_edges g) /\ absorption e <> None) ->
  (forall x, In x (d_alphabet d) -> (0 < v x)%Q) ->
  ~ (forall x, In x (d_alphabet d) ->
       (mvec (d_alphabet d) (matrix (d_alphabet d) g) v x == v x)%Q).
Proof.
  intros Hn Hv0 Hg (e & He & A) Hpos Hfix. unfold path in Hg.
  destruct (known (d_reduced d) v0 (d_vertices d)); [|discriminate].
  destruct (resolve (d_kinds d) v0 labels) as [es|ex] eqn:R; [|discriminate].
  simpl in Hg. injection Hg as <-. cbn [path_edges] in He.
  destruct (absorption e) as [[[r w] l]|] eqn:Ae; [|congruence]. clear A.
  pose proof (resolve_starts _ _ _ Hv0 R) as Hes.
  pose proof (resolve_absorbs _ _ _ R) as Hne.
  assert (Hwl : w <> l).
  { rewrite Forall_forall in Hne. exact (Hne e He r w l Ae). }
  assert (Hin : In w (d_alphabet d) /\ In l (d_alphabet d)).
  { destruct (absorption_In _ Ae) as [Hw Hl].
    rewrite Forall_forall in Hes. split; now apply (Hes e He). }
  destruct Hin as [Hw Hl].
  set (al := d_alphabet d) in *.
  set (M := matrix al (mkPath v0 es)).
  assert (Mww : 1 <= M w w).
  { unfold M, matrix. cbn [path_edges].
    apply Nat.le_trans with (identity_matrix w w).
    - unfold identity_matrix. now rewrite letter_eqb_refl.
    - now apply path_matrix_grows. }
  assert (Mwl : 1 <= M w l).
  { unfold M, matrix. cbn [path_edges].
    apply Nat.le_trans with (identity_matrix w w).
    - unfold identity_matrix. now rewrite letter_eqb_refl.
    - eapply path_matrix_absorbs; eassumption. }
  pose proof (@Qsum_lower (M w) v w l al Hn Hpos Mww Mwl Hwl) as L.
  rewrite (proj2 (mem_In w al) Hw), (proj2 (mem_In l al) Hl) in L.
  specialize (Hfix w Hw). unfold mvec in Hfix. fold M in Hfix.
  specialize (Hpos l Hl). lra.
Qed.

(** ** The numeric interval exchanges that the factory hands out *)

Lemma all_numeric_numbers it :
  all_numeric it ->
  exists qs, numbers it = Some qs /\ length qs = length it.
Proof.
  induction it as [|v r IH]; simpl; intros H.
  - exists []. now split.
  - destruct (H v (or_introl eq_refl)) as (q & ->).
    destruct (IH (fun w Hw => H w (or_intror Hw))) as (qs & -> & L).
    exists (q :: qs). simpl. split; [reflexivity | now rewrite L].
Qed.

Lemma lookup_combine (x : letter) ks (vs : list Q) :
  In x ks -> length ks <= length vs -> lookup x (combine ks vs) <> None.
Proof.
  revert vs. induction ks as [|k r IH]; intros vs Hx L; [contradiction|].
  destruct vs as [|v vs]; [simpl in L; lia|]. simpl.
  destruct (letter_eqb x k) eqn:E; [discriminate|].
  apply IH; [|simpl in L; lia].
  destruct Hx as [->|Hx]; [|exact Hx].
  now rewrite letter_eqb_refl in E.
Qed.

Lemma once_NoDup t b :
  (forall x, In x (t ++ b) -> count t x = 1 /\ count b x = 1) ->
  NoDup t /\ NoDup b /\ incl t b /\ incl b t.
Proof.
  intros H.
  assert (Ht : forall x, In x t -> count t x = 1 /\ count b x = 1)
    by (intros x Hx; apply H, in_or_app; now left).
  assert (Hb : forall x, In x b -> count t x = 1 /\ count b x = 1)
    by (intros x Hx; apply H, in_or_app; now right).
  repeat split.
  - apply (NoDup_count_occ' letter_eq_dec). intros x Hx. now apply Ht.
  - apply (NoDup_count_occ' letter_eq_dec). intros x Hx. now apply Hb.
  - intros x Hx. apply count_In. destruct (Ht x Hx) as [_ E].
    rewrite E. lia.
  - intros x Hx. apply count_In. destruct (Hb x Hx) as [E _].
    rewrite E. lia.
Qed.

Lemma once_len t b :
  (forall x, In x (t ++ b) -> count t x = 1 /\ count b x = 1) ->
  length b = length t /\ length (discovery (t, b)) = length t.
Proof.
  intros H. destruct (once_NoDup _ _ H) as (Nt & Nb & Htb & Hbt). split.
  - apply Nat.le_antisymm; now apply NoDup_incl_length.
  - apply Nat.le_antisymm; apply NoDup_incl_length.
    + apply NoDup_dedup.
    + intros x Hx. apply (discovery_In (t, b)) in Hx. simpl in Hx.
      apply in_app_or in Hx. destruct Hx; auto.
    + exact Nt.
    + intros x Hx. apply (discovery_In (t, b)). simpl.
      apply in_or_app. now left.
Qed.

(** A numeric IET built by [IntervalExchangeTransformation] from two rows
    and a list of numbers is well formed. *)
Lemma IntervalExchangeTransformation_well_formed
    set_iter float_converts float_parses top bottom l c :
  (forall l x, In x (set_iter l) <-> In x l) ->
  all_numeric l ->
  IntervalExchangeTransformation set_iter float_converts float_parses
    (PermRows top bottom) (LengthsList l) = Ok c ->
  exists T, instance c = Some T /\ well_formed T
            /\ iet_top T = top /\ iet_bottom T = bottom.
Proof.
  intros Hs Hn H. unfold IntervalExchangeTransformation in H. simpl in H.
  destruct (Permutation set_iter top bottom None None None) as [p|e] eqn:Ep;
    [|discriminate].
  simpl in H.
  destruct (Permutation_Ok_inv _ _ _ _ _ _ Ep) as (_ & Hc & ->).
  assert (H1 : forall x, In x (top ++ bottom) ->
                         count top x = 1 /\ count bottom x = 1).
  { intros x Hx. apply (check_once_inv _ _ _ Hc). now apply Hs. }
  destruct (once_len _ _ H1) as [Lb Ld].
  destruct (length l =? _) eqn:El; [|discriminate]. simpl in H.
  apply Nat.eqb_eq in El. unfold len in El. cbn [p_a fst snd] in El.
  rewrite Lb in El.
  replace ((length top + length top) / 2) with (length top) in El
    by (replace (length top + length top) with (length top * 2) by lia;
        now rewrite Nat.div_mul).
  destruct (check_lengths float_converts float_parses l) as [[]|e] eqn:Ec;
    [|discriminate].
  simpl in H. injection H as <-.
  destruct (all_numeric_numbers Hn) as (qs & Eq & Lq).
  unfold instance. cbn [call_permutation call_lengths lengths_iter].
  rewrite Eq. eexists. split; [reflexivity|].
  assert (Hid : forall r, map (render
                  (new (IET_cls false (norm_flips None)) (top, bottom) None
                     false (norm_flips None))) r = r).
  { intros r. rewrite <- (map_id r) at 2. apply map_ext. reflexivity. }
  unfold list_. cbn [p_a fst snd iet_top iet_bottom]. rewrite !Hid.
  split; [|now split]. split; [exact H1|].
  cbn [iet_top iet_lengths]. intros x Hx.
  apply lookup_combine.
  - unfold alphabet. cbn [p_alphabet p_a].
    apply (discovery_In (top, bottom)). simpl. apply in_or_app. now left.
  - unfold alphabet. cbn [p_alphabet p_a]. rewrite Ld, Lq, El. lia.
Qed.

(** ** The doctests on the classes of the objects *)

(** The [TESTS] of the docstrings of [Permutation] and of
    [GeneralizedPermutation]: the class of the object for each mode, with
    and without flips. *)
Example classes_docstring :
  let class_of r := match r with
                    | Ok p => Some (p_cls p)
                    | Raise _ => None
                    end in
  let abc := [a_; b_; c_] in
  let cba := [c_; b_; a_] in
  let abb := [a_; b_; b_] in
  let cca := [c_; c_; a_] in
  class_of (Permutation first_seen abc cba (Some true) None None)
  = Some ReducedPermutationIET
  /\ class_of (Permutation first_seen abc cba (Some false) None None)
     = Some LabelledPermutationIET
  /\ class_of (Permutation first_seen abc cba (Some true) (Some [a_; b_])
                 None) = Some FlippedReducedPermutationIET
  /\ class_of (Permutation first_seen abc cba (Some false) (Some [a_; b_])
                 None) = Some FlippedLabelledPermutationIET
  /\ class_of (GeneralizedPermutation first_seen abb cca (Some true) None
                 None) = Some ReducedPermutationLI
  /\ class_of (GeneralizedPermutation first_seen abb cca (Some false) None
                 None) = Some LabelledPermutationLI
  /\ class_of (GeneralizedPermutation first_seen abb cca (Some true)
                 (Some [a_; b_]) None) = Some FlippedReducedPermutationLI
  /\ class_of (GeneralizedPermutation first_seen abb cca (Some false)
                 (Some [a_; b_]) None) = Some FlippedLabelledPermutationLI.
Proof. repeat split. Qed.

(** [GeneralizedPermutation] raises "letters must appear twice" exactly
    when some letter does not occur twice in the two rows together (the
    flips, if any, being letters of the rows). *)
Lemma GeneralizedPermutation_twice_iff
    set_iter top bottom reduced flips alphabet_ :
  (forall l x, In x (set_iter l) <-> In x l) ->
  flips_valid (top ++ bottom) flips ->
  GeneralizedPermutation set_iter top bottom reduced flips alphabet_
  = Raise LetterMultiplicityError_LI
  <-> exists x, In x (top ++ bottom) /\ count (top ++ bottom) x <> 2.
Proof.
  intros Hs V. unfold GeneralizedPermutation.
  assert (C : match flips with
              | None => Ok tt
              | Some f => check_flips (top ++ bottom) f
              end = Ok tt).
  { destruct flips as [f|]; [|reflexivity]. now apply check_flips_Ok. }
  rewrite C. cbn [bind].
  assert (D : (forall x, In x (top ++ bottom) -> count (top ++ bottom) x = 2)
              \/ exists x, In x (top ++ bottom)
                           /\ count (top ++ bottom) x <> 2).
  { assert (G : forall r,
        (forall x, In x r -> count (top ++ bottom) x = 2)
        \/ exists x, In x r /\ count (top ++ bottom) x <> 2).
    { induction r as [|y r IH]; [left; intros x []|].
      destruct (Nat.eq_dec (count (top ++ bottom) y) 2) as [E|N].
      - destruct IH as [IH|(x & Hx & Hc)].
        + left. intros x [<-|Hx]; auto.
        + right. exists x. split; [now right | exact Hc].
      - right. exists y. split; [now left | exact N]. }
    apply G. }
  destruct D as [H2|(x & Hx & Hc)].
  - rewrite check_twice_Ok
      by (intros x Hx; apply H2; now apply (proj1 (Hs _ _))).
    cbn [bind]. rewrite (@strip_once_delete_once set_iter Hs top bottom H2).
    cbn [bind]. split.
    + intros H. exfalso.
      destruct (is_nil (delete_once top bottom top)
                && is_nil (delete_once top bottom bottom)) eqn:B.
      * rewrite (@Permutation_flips_valid set_iter top bottom
                   (Some match reduced with None => false | Some b => b end)
                   flips alphabet_ V) in H.
        cbv zeta in H.
        destruct (check_once_cases top bottom (set_iter (top ++ bottom)))
          as [E | E]; rewrite E in H; discriminate.
      * destruct (is_nil (delete_once top bottom top)
                  || is_nil (delete_once top bottom bottom)); discriminate.
    + intros (x & Hx & Hc). elim Hc. now apply H2.
  - split; [intros _; exists x; now split|]. intros _.
    assert (E : check_twice (top ++ bottom) (set_iter (top ++ bottom))
                = Raise LetterMultiplicityError_LI).
    { assert (G : forall r, In x r ->
                  check_twice (top ++ bottom) r
                  = Raise LetterMultiplicityError_LI).
      { induction r as [|y r IH]; intros Hr; [contradiction|]. simpl.
        destruct (count (top ++ bottom) y =? 2) eqn:Ey; [|reflexivity].
        simpl. apply IH. destruct Hr as [->|Hr]; [|exact Hr].
        apply Nat.eqb_eq in Ey. contradiction. }
      apply G. now apply (proj2 (Hs _ _)). }
    rewrite E. reflexivity.
Qed.

(** ** Loops, full paths and fixed vectors *)

(** The paths [g0 = top, bottom, top] and [g1 = bottom, top, bottom] of
    the docstring of [RauzyDiagram] are loops and are not full; their sum
    [g] is a full loop. *)
Example loops_docstring :
  let t := RauzyMove Top Right in
  let b := RauzyMove Bottom Right in
  let al := [a_; b_; c_] in
  let check labels :=
    match path d_abc_cba abc_cba labels with
    | Ok g => Some (is_loop d_abc_cba g, is_full al g)
    | Raise _ => None
    end in
  check [t; b; t] = Some (true, false)
  /\ check [b; t; b] = Some (true, false)
  /\ check g_labels = Some (true, true).
Proof. repeat split. Qed.

Lemma is_full_absorbs al g x :
  is_full al g = true -> In x al ->
  exists e, In e (path_edges g) /\ absorption e <> None.
Proof.
  unfold is_full. intros H Hx. rewrite forallb_forall in H.
  specialize (H x Hx). apply existsb_exists in H.
  destruct H as (e & He & A). exists e. split; [exact He|].
  destruct (absorption e); [discriminate | discriminate].
Qed.

(** The premises of the self-similarity law, read with a vector fixed by
    the matrix, exclude one another: on a full path over an alphabet
    with at least one letter, no vector of positive lengths equals its
    product by the matrix of the path. *)
Lemma full_path_fixes_no_vector d v0 labels g (v : letter -> Q) :
  NoDup (d_alphabet d) -> incl (letters v0) (d_alphabet d) ->
  d_alphabet d <> [] ->
  path d v0 labels = Ok g ->
  is_full (d_alphabet d) g = true ->
  (forall x, In x (d_alphabet d) -> (0 < v x)%Q) ->
  ~ (forall x, In x (d_alphabet d) ->
       (mvec (d_alphabet d) (matrix (d_alphabet d) g) v x == v x)%Q).
Proof.
  intros Hn Hv0 Hne Hg Hfull Hpos.
  destruct (d_alphabet d) as [|x al] eqn:E; [congruence|].
  rewrite <- E in *.
  assert (Hx : In x (d_alphabet d)) by (rewrite E; now left).
  apply (@fixed_vector_impossible d v0 labels g v Hn Hv0 Hg); [|exact Hpos].
  exact (@is_full_absorbs (d_alphabet d) g x Hfull Hx).
Qed.

(** * Further properties of the factories *)

(** ** The outcomes of [Permutation] and [GeneralizedPermutation] *)

Lemma flips_valid_dec l flips : flips_valid l flips \/ ~ flips_valid l flips.
Proof.
  destruct flips as [f|]; [|now left]. simpl.
  destruct (check_flips_cases l f) as [C|C].
  - left. now apply check_flips_inv.
  - right. intros V. rewrite check_flips_Ok in C by exact V. discriminate.
Qed.

Lemma once_dec top bottom l :
  (forall x, In x l -> count top x = 1 /\ count bottom x = 1)
  \/ exists x, In x l /\ (count top x <> 1 \/ count bottom x <> 1).
Proof.
  induction l as [|y r IH]; [left; intros x []|].
  destruct (Nat.eq_dec (count top y) 1) as [E1|N1];
    [destruct (Nat.eq_dec (count bottom y) 1) as [E2|N2]|].
  - destruct IH as [IH|(x & Hx & Hc)].
    + left. intros x [<-|Hx]; auto.
    + right. exists x. split; [now right | exact Hc].
  - right. exists y. split; [now left | now right].
  - right. exists y. split; [now left | now left].
Qed.

Lemma twice_dec l r :
  (forall x, In x r -> count l x = 2)
  \/ exists x, In x r /\ count l x <> 2.
Proof.
  induction r as [|y r IH]; [left; intros x []|].
  destruct (Nat.eq_dec (count l y) 2) as [E|N].
  - destruct IH as [IH|(x & Hx & Hc)].
    + left. intros x [<-|Hx]; auto.
    + right. exists x. split; [now right | exact Hc].
  - right. exists y. split; [now left | exact N].
Qed.

Lemma check_twice_Raise l letters x :
  In x letters -> count l x <> 2 ->
  check_twice l letters = Raise LetterMultiplicityError_LI.
Proof.
  induction letters as [|y r IH]; intros Hx Hc; [contradiction|]. simpl.
  destruct (count l y =? 2) eqn:Ey; [|reflexivity]. simpl.
  apply IH; [|exact Hc]. destruct Hx as [->|Hx]; [|exact Hx].
  apply Nat.eqb_eq in Ey. contradiction.
Qed.

Lemma delete_once_nil top bottom r :
  delete_once top bottom r = [] <->
  forall x, In x r -> count top x = 1 /\ count bottom x = 1.
Proof.
  unfold delete_once. induction r as [|y r IH]; simpl.
  - split; [intros _ x [] | reflexivity].
  - destruct ((count top y =? 1) && (count bottom y =? 1)) eqn:E; simpl.
    + apply andb_true_iff in E. destruct E as [E1 E2].
      apply Nat.eqb_eq in E1, E2. rewrite IH. split.
      * intros H x [<-|Hx]; auto.
      * intros H x Hx. apply H. now right.
    + split; [discriminate|]. intros H. exfalso.
      destruct (H y (or_introl eq_refl)) as [E1 E2].
      rewrite E1, E2 in E. discriminate.
Qed.

(** The three outcomes of [Permutation]. *)
Lemma Permutation_outcome set_iter top bottom reduced flips alphabet_ :
  (forall l x, In x (set_iter l) <-> In x l) ->
  (~ flips_valid (top ++ bottom) flips
   /\ Permutation set_iter top bottom reduced flips alphabet_
      = Raise InvalidFlipLetter)
  \/ (flips_valid (top ++ bottom) flips
      /\ (exists x, In x (top ++ bottom)
                    /\ (count top x <> 1 \/ count bottom x <> 1))
      /\ Permutation set_iter top bottom reduced flips alphabet_
         = Raise LetterMultiplicityError)
  \/ (flips_valid (top ++ bottom) flips
      /\ (forall x, In x (top ++ bottom) ->
                    count top x = 1 /\ count bottom x = 1)
      /\ Permutation set_iter top bottom reduced flips alphabet_
         = Ok (new (IET_cls
                      (match reduced with None => false | Some b => b end)
                      (norm_flips flips))
                 (top, bottom) alphabet_
                 (match reduced with None => false | Some b => b end)
                 (norm_flips flips))).
Proof.
  intros Hs. destruct (flips_valid_dec (top ++ bottom) flips) as [V|V].
  - right. destruct (once_dec top bottom (top ++ bottom)) as [H1|(x & Hx & Hc)].
    + right. split; [exact V|]. split; [exact H1|].
      now apply Permutation_Ok_intro.
    + left. split; [exact V|]. split.
      * exists x. now split.
      * rewrite (@Permutation_flips_valid set_iter top bottom reduced flips
                   alphabet_ V).
        cbv zeta.
        rewrite (@check_once_Raise top bottom _ x);
          [reflexivity | now apply (proj2 (Hs _ _)) | exact Hc].
  - left. split; [exact V|]. now apply Permutation_flips_invalid.
Qed.

(** The five outcomes of [GeneralizedPermutation]. *)
Lemma GeneralizedPermutation_outcome
    set_iter top bottom reduced flips alphabet_ :
  (forall l x, In x (set_iter l) <-> In x l) ->
  let r := match reduced with None => false | Some b => b end in
  let b0 := delete_once top bottom top in
  let b1 := delete_once top bottom bottom in
  let GP := GeneralizedPermutation set_iter top bottom reduced flips
              alphabet_ in
  (~ flips_valid (top ++ bottom) flips /\ GP = Raise InvalidFlipLetter)
  \/ (flips_valid (top ++ bottom) flips
      /\ (exists x, In x (top ++ bottom) /\ count (top ++ bottom) x <> 2)
      /\ GP = Raise LetterMultiplicityError_LI)
  \/ (flips_valid (top ++ bottom) flips
      /\ (forall x, In x (top ++ bottom) -> count (top ++ bottom) x = 2)
      /\ ((b0 = [] /\ b1 = []
           /\ GP = Ok (new (IET_cls r (norm_flips flips)) (top, bottom)
                         alphabet_ r (norm_flips flips)))
          \/ (b0 = [] /\ b1 <> [] /\ GP = Raise NoAdmissibleLength)
          \/ (b0 <> [] /\ b1 = [] /\ GP = Raise NoAdmissibleLength)
          \/ (b0 <> [] /\ b1 <> []
              /\ GP = Ok (new (LI_cls r flips) (top, bottom) alphabet_ r
                            flips)))).
Proof.
  intros Hs r b0 b1 GP.
  destruct (flips_valid_dec (top ++ bottom) flips) as [V|V].
  2:{ left. split; [exact V|]. unfold GP, GeneralizedPermutation.
      destruct flips as [f|]; [|now elim V].
      now rewrite (@check_flips_Raise (top ++ bottom) f V). }
  right.
  assert (C : match flips with
              | None => Ok tt
              | Some f => check_flips (top ++ bottom) f
              end = Ok tt).
  { destruct flips as [f|]; [|reflexivity]. now apply check_flips_Ok. }
  destruct (twice_dec (top ++ bottom) (top ++ bottom)) as [H2|(x & Hx & Hc)].
  2:{ left. split; [exact V|]. split.
      - exists x. now split.
      - unfold GP, GeneralizedPermutation. rewrite C. cbn [bind].
        rewrite (@check_twice_Raise (top ++ bottom) _ x);
          [reflexivity | now apply (proj2 (Hs _ _)) | exact Hc]. }
  right. split; [exact V|]. split; [exact H2|].
  assert (E : GP = if is_nil b0 && is_nil b1
                   then Permutation set_iter top bottom (Some r) flips
                          alphabet_
                   else if is_nil b0 || is_nil b1
                        then Raise NoAdmissibleLength
                        else Ok (new (LI_cls r flips) (top, bottom) alphabet_
                                   r flips)).
  { unfold GP, GeneralizedPermutation. rewrite C. cbn [bind].
    rewrite check_twice_Ok
      by (intros x Hx; apply H2; now apply (proj1 (Hs _ _))).
    cbn [bind].
    rewrite (@strip_once_delete_once set_iter Hs top bottom H2).
    reflexivity. }
  rewrite E. clear E.
  destruct b0 as [|y0 r0] eqn:E0; destruct b1 as [|y1 r1] eqn:E1.
  - left. split; [reflexivity|]. split; [reflexivity|]. cbn [is_nil andb].
    apply Permutation_Ok_intro; [exact Hs | exact V|].
    intros x Hx. apply in_app_or in Hx. destruct Hx as [Hx|Hx].
    + exact (proj1 (delete_once_nil top bottom top) E0 x Hx).
    + exact (proj1 (delete_once_nil top bottom bottom) E1 x Hx).
  - right. left. split; [reflexivity|]. split; [discriminate|]. reflexivity.
  - right. right. left. split; [discriminate|]. split; reflexivity.
  - right. right. right. split; [discriminate|]. split; [discriminate|].
    reflexivity.
Qed.

Lemma cls_kind_IET_cls r f : cls_kind (IET_cls r f) = IET_kind.
Proof. now destruct r, f. Qed.

Lemma cls_kind_LI_cls r f : cls_kind (LI_cls r f) = LI_kind.
Proof. now destruct r, f. Qed.

Lemma once_iff_NoDup top bottom :
  (forall x, In x (top ++ bottom) -> count top x = 1 /\ count bottom x = 1)
  <-> NoDup top /\ NoDup bottom /\ (forall x, In x top <-> In x bottom).
Proof.
  split.
  - intros H. destruct (once_NoDup _ _ H) as (Nt & Nb & Htb & Hbt).
    split; [exact Nt|]. split; [exact Nb|].
    intros x. split; [apply Htb | apply Hbt].
  - intros (Nt & Nb & Hs) x Hx.
    assert (Ht : In x top).
    { apply in_app_or in Hx. destruct Hx as [Hx|Hx]; [exact Hx|].
      now apply Hs. }
    assert (Hb : In x bottom) by now apply Hs.
    pose proof (proj1 (NoDup_count_occ letter_eq_dec top) Nt x).
    pose proof (proj1 (NoDup_count_occ letter_eq_dec bottom) Nb x).
    apply count_In in Ht, Hb. unfold count in *. lia.
Qed.

Lemma delete_once_not_nil top bottom row :
  delete_once top bottom row <> [] <->
  exists x, In x row /\ (count top x <> 1 \/ count bottom x <> 1).
Proof.
  unfold delete_once.
  set (keep := fun x => negb ((count top x =? 1) && (count bottom x =? 1))).
  split.
  - intros H. destruct (filter keep row) as [|y r] eqn:E; [congruence|].
    assert (Hy : In y (filter keep row)) by (rewrite E; now left).
    apply filter_In in Hy. destruct Hy as [Hy Hc]. exists y.
    split; [exact Hy|]. unfold keep in Hc.
    apply negb_true_iff, andb_false_iff in Hc.
    destruct Hc as [Hc|Hc]; apply Nat.eqb_neq in Hc; [now left | now right].
  - intros (x & Hx & Hc) E.
    assert (Hy : In x (filter keep row)).
    { apply filter_In. split; [exact Hx|]. unfold keep.
      apply negb_true_iff, andb_false_iff.
      destruct Hc as [Hc|Hc]; [left | right]; now apply Nat.eqb_neq. }
    rewrite E in Hy. contradiction.
Qed.

Lemma doubled_top top bottom :
  (forall x, In x (top ++ bottom) -> count (top ++ bottom) x = 2) ->
  delete_once top bottom top <> [] <-> doubled top.
Proof.
  intros H2. rewrite delete_once_not_nil. split.
  - intros (x & Hx & Hc). exists x.
    pose proof (H2 x (in_or_app _ _ _ (or_introl Hx))) as E.
    rewrite count_app in E. apply count_In in Hx. lia.
  - intros (x & E). exists x. split; [|left; lia].
    apply count_In. lia.
Qed.

Lemma doubled_bottom top bottom :
  (forall x, In x (top ++ bottom) -> count (top ++ bottom) x = 2) ->
  delete_once top bottom bottom <> [] <-> doubled bottom.
Proof.
  intros H2. rewrite delete_once_not_nil. split.
  - intros (x & Hx & Hc). exists x.
    pose proof (H2 x (in_or_app _ _ _ (or_intror Hx))) as E.
    rewrite count_app in E. apply count_In in Hx. lia.
  - intros (x & E). exists x. split; [|right; lia].
    apply count_In. lia.
Qed.

Lemma doubled_not_NoDup row : doubled row -> ~ NoDup row.
Proof.
  intros (x & E) N.
  pose proof (proj1 (NoDup_count_occ letter_eq_dec row) N x).
  unfold count in E. lia.
Qed.

(** The outcomes of [GeneralizedPermutation], by the letters that a row
    holds twice. *)
Lemma GeneralizedPermutation_cases
    set_iter top bottom reduced flips alphabet_ :
  (forall l x, In x (set_iter l) <-> In x l) ->
  let r := match reduced with None => false | Some b => b end in
  let GP := GeneralizedPermutation set_iter top bottom reduced flips
              alphabet_ in
  (~ flips_valid (top ++ bottom) flips /\ GP = Raise InvalidFlipLetter)
  \/ (flips_valid (top ++ bottom) flips
      /\ (exists x, In x (top ++ bottom) /\ count (top ++ bottom) x <> 2)
      /\ GP = Raise LetterMultiplicityError_LI)
  \/ (flips_valid (top ++ bottom) flips
      /\ (forall x, In x (top ++ bottom) -> count (top ++ bottom) x = 2)
      /\ ((~ doubled top /\ ~ doubled bottom
           /\ (forall x, In x (top ++ bottom) ->
                         count top x = 1 /\ count bottom x = 1)
           /\ GP = Ok (new (IET_cls r (norm_flips flips)) (top, bottom)
                         alphabet_ r (norm_flips flips)))
          \/ (~ (doubled top <-> doubled bottom)
              /\ GP = Raise NoAdmissibleLength)
          \/ (doubled top /\ doubled bottom
              /\ GP = Ok (new (LI_cls r flips) (top, bottom) alphabet_ r
                            flips)))).
Proof.
  intros Hs r GP.
  pose proof (@GeneralizedPermutation_outcome set_iter top bottom reduced
                flips alphabet_ Hs) as O.
  cbv zeta in O. fold r in O. fold GP in O.
  destruct O as [(V & E)|[(V & B & E)|(V & H2 & O)]].
  - left. now split.
  - right. left. split; [exact V|]. now split.
  - right. right. split; [exact V|]. split; [exact H2|].
    pose proof (@doubled_top top bottom H2) as Dt.
    pose proof (@doubled_bottom top bottom H2) as Db.
    destruct O as [(E0 & E1 & E)|[(E0 & N1 & E)|[(N0 & E1 & E)|(N0 & N1 & E)]]].
    + left.
      split; [intros D; apply Dt in D; now apply D|].
      split; [intros D; apply Db in D; now apply D|].
      split; [|exact E].
      intros x Hx. apply in_app_or in Hx. destruct Hx as [Hx|Hx].
      * exact (proj1 (delete_once_nil top bottom top) E0 x Hx).
      * exact (proj1 (delete_once_nil top bottom bottom) E1 x Hx).
    + right. left. split; [|exact E].
      intros [_ D]. apply Db in N1. apply D, Dt in N1. now apply N1.
    + right. left. split; [|exact E].
      intros [D _]. apply Dt in N0. apply D, Db in N0. now apply N0.
    + right. right. split; [now apply Dt|]. split; [now apply Db|]. exact E.
Qed.


(** [Permutation] gets past its checks and arrives at the call of the
    class, [cls(a, alphabet=alphabet, reduced=reduced, flips=flips)],
    exactly when the flips, if any are given, are letters of the rows and
    the two rows list the same letters, each row without repetition.
    (What the class then does with its arguments, such as refusing an
    alphabet with too few letters, is not in [constructors.py].) *)
Theorem Permutation_accepts_iff
    set_iter top bottom reduced flips alphabet_ :
  (forall l x, In x (set_iter l) <-> In x l) ->
  (exists p, Permutation set_iter top bottom reduced flips alphabet_ = Ok p)
  <-> flips_valid (top ++ bottom) flips /\ NoDup top /\ NoDup bottom
      /\ (forall x, In x top <-> In x bottom).
Proof.
  intros Hs.
  destruct (@Permutation_outcome set_iter top bottom reduced flips alphabet_
              Hs) as [(V & E)|[(V & B & E)|(V & H1 & E)]]; rewrite E.
  - split; [intros (p & H); discriminate | intros (V' & _); contradiction].
  - split; [intros (p & H); discriminate|].
    intros (_ & N). destruct B as (x & Hx & Hc).
    destruct (proj2 (once_iff_NoDup top bottom) N x Hx). lia.
  - split; [|intros _; eexists; reflexivity].
    intros _. split; [exact V|].
    exact (proj1 (once_iff_NoDup top bottom) H1).
Qed.

Lemma Permutation_accepts_iff_witness :
  (exists p, Permutation first_seen [a_; b_; c_] [c_; a_; b_] (Some true)
               (Some [b_]) None = Ok p)
  <-> flips_valid ([a_; b_; c_] ++ [c_; a_; b_]) (Some [b_])
      /\ NoDup [a_; b_; c_] /\ NoDup [c_; a_; b_]
      /\ (forall x, In x [a_; b_; c_] <-> In x [c_; a_; b_]).
Proof.
  apply (@Permutation_accepts_iff first_seen [a_; b_; c_] [c_; a_; b_]
           (Some true) (Some [b_]) None).
  exact first_seen_In.
Defined.



(** The order in which Python iterates over the set of letters does not
    show: for any two enumerations of that set, [Permutation] and
    [GeneralizedPermutation] return the same object or raise the same
    error. *)
Theorem factories_ignore_set_order
    set_iter1 set_iter2 top bottom reduced flips alphabet_ :
  (forall l x, In x (set_iter1 l) <-> In x l) ->
  (forall l x, In x (set_iter2 l) <-> In x l) ->
  Permutation set_iter1 top bottom reduced flips alphabet_
  = Permutation set_iter2 top bottom reduced flips alphabet_
  /\ GeneralizedPermutation set_iter1 top bottom reduced flips alphabet_
     = GeneralizedPermutation set_iter2 top bottom reduced flips alphabet_.
Proof.
  intros H1 H2. split.
  - destruct (@Permutation_outcome set_iter1 top bottom reduced flips
                alphabet_ H1) as [(V & E)|[(V & B & E)|(V & O & E)]];
    destruct (@Permutation_outcome set_iter2 top bottom reduced flips
                alphabet_ H2) as [(V' & E')|[(V' & B' & E')|(V' & O' & E')]];
    rewrite E, E'; try reflexivity; try contradiction; exfalso.
    + destruct B as (x & Hx & Hc). destruct (O' x Hx). lia.
    + destruct B' as (x & Hx & Hc). destruct (O x Hx). lia.
  - pose proof (@GeneralizedPermutation_cases set_iter1 top bottom reduced
                  flips alphabet_ H1) as C1.
    pose proof (@GeneralizedPermutation_cases set_iter2 top bottom reduced
                  flips alphabet_ H2) as C2.
    cbv zeta in C1, C2.
    destruct C1 as [(V & E)|[(V & B & E)|(V & T & C1)]];
    destruct C2 as [(V' & E')|[(V' & B' & E')|(V' & T' & C2)]];
    try contradiction.
    + now rewrite E, E'.
    + now rewrite E, E'.
    + exfalso. destruct B as (x & Hx & Hc). now apply Hc, T'.
    + exfalso. destruct B' as (x & Hx & Hc). now apply Hc, T.
    + destruct C1 as [(Nt & Nb & _ & E)|[(N & E)|(Dt & Db & E)]];
      destruct C2 as [(Nt' & Nb' & _ & E')|[(N' & E')|(Dt' & Db' & E')]];
      rewrite E, E'; try reflexivity; exfalso; tauto.
Qed.

Lemma factories_ignore_set_order_witness :
  Permutation first_seen [a_; b_; c_] [c_; b_; a_] None None None
  = Permutation (fun l => rev (first_seen l)) [a_; b_; c_] [c_; b_; a_]
      None None None
  /\ GeneralizedPermutation first_seen [a_; b_; c_] [c_; b_; a_]
       None None None
     = GeneralizedPermutation (fun l => rev (first_seen l))
         [a_; b_; c_] [c_; b_; a_] None None None.
Proof.
  apply (@factories_ignore_set_order first_seen (fun l => rev (first_seen l))
           [a_; b_; c_] [c_; b_; a_] None None None).
  - exact first_seen_In.
  - intros l x. rewrite <- in_rev. apply first_seen_In.
Defined.

(** [GeneralizedPermutation] gets past its checks and arrives at the call
    of a class (of a linear involution, or of a permutation at the end of
    [Permutation]) exactly when the flips, if any are given, are letters of
    the rows, every letter occurs twice in the two rows together, and
    either both rows hold some letter twice or neither does.  (What the
    class then does with its arguments is not in [constructors.py].) *)
Theorem GeneralizedPermutation_accepts_iff
    set_iter top bottom reduced flips alphabet_ :
  (forall l x, In x (set_iter l) <-> In x l) ->
  (exists p,
     GeneralizedPermutation set_iter top bottom reduced flips alphabet_
     = Ok p)
  <-> flips_valid (top ++ bottom) flips
      /\ (forall x, In x (top ++ bottom) -> count (top ++ bottom) x = 2)
      /\ (doubled top <-> doubled bottom).
Proof.
  intros Hs.
  pose proof (@GeneralizedPermutation_cases set_iter top bottom reduced
                flips alphabet_ Hs) as C.
  cbv zeta in C.
  destruct C as [(V & E)|[(V & B & E)|(V & T & C)]].
  - rewrite E. split; [intros (p & H); discriminate|].
    intros (V' & _). contradiction.
  - rewrite E. split; [intros (p & H); discriminate|].
    intros (_ & T & _). destruct B as (x & Hx & Hc). now elim Hc; apply T.
  - destruct C as [(Nt & Nb & _ & E)|[(N & E)|(Dt & Db & E)]]; rewrite E.
    + split; [|intros _; eexists; reflexivity].
      intros _. split; [exact V|]. split; [exact T | tauto].
    + split; [intros (p & H); discriminate|].
      intros (_ & _ & D). contradiction.
    + split; [|intros _; eexists; reflexivity].
      intros _. split; [exact V|]. split; [exact T | tauto].
Qed.

Lemma GeneralizedPermutation_accepts_iff_witness :
  (exists p,
     GeneralizedPermutation first_seen [a_; b_; b_] [c_; c_; a_] None None
       None = Ok p)
  <-> flips_valid ([a_; b_; b_] ++ [c_; c_; a_]) None
      /\ (forall x, In x ([a_; b_; b_] ++ [c_; c_; a_]) ->
                    count ([a_; b_; b_] ++ [c_; c_; a_]) x = 2)
      /\ (doubled [a_; b_; b_] <-> doubled [c_; c_; a_]).
Proof.
  apply (@GeneralizedPermutation_accepts_iff first_seen [a_; b_; b_]
           [c_; c_; a_] None None None).
  exact first_seen_In.
Defined.

(** What [GeneralizedPermutation] returns: the object holds the rows, the
    alphabet and the mode as given; it is of one of the four classes of
    linear involutions exactly when the top row holds some letter twice,
    and of one of the four classes of permutations exactly when the top row
    has no repeated letter. *)
Theorem GeneralizedPermutation_result
    set_iter top bottom reduced flips alphabet_ p :
  (forall l x, In x (set_iter l) <-> In x l) ->
  GeneralizedPermutation set_iter top bottom reduced flips alphabet_ = Ok p ->
  p_a p = (top, bottom)
  /\ p_alphabet p = alphabet_
  /\ p_reduced p = match reduced with None => false | Some b => b end
  /\ (cls_kind (p_cls p) = LI_kind <-> doubled top)
  /\ (cls_kind (p_cls p) = IET_kind <-> NoDup top).
Proof.
  intros Hs H.
  pose proof (@GeneralizedPermutation_cases set_iter top bottom reduced
                flips alphabet_ Hs) as C.
  cbv zeta in C. rewrite H in C.
  destruct C as [(V & E)|[(V & B & E)|(V & T & C)]]; try discriminate.
  destruct C as [(Nt & Nb & O & E)|[(N & E)|(Dt & Db & E)]];
    try discriminate; injection E as ->; cbn [p_a p_alphabet p_reduced p_cls].
  - repeat (split; [reflexivity|]). rewrite cls_kind_IET_cls. split.
    + split; [discriminate | intros D; contradiction].
    + split; [|reflexivity]. intros _.
      exact (proj1 (proj1 (once_iff_NoDup top bottom) O)).
  - repeat (split; [reflexivity|]). rewrite cls_kind_LI_cls. split.
    + split; [intros _; exact Dt | reflexivity].
    + split; [discriminate|]. intros N. now apply doubled_not_NoDup in Dt.
Qed.

Lemma GeneralizedPermutation_result_witness :
  let p := new FlippedLabelledPermutationLI ([a_; b_; b_], [c_; c_; a_])
             None false (Some [a_]) in
  p_a p = ([a_; b_; b_], [c_; c_; a_])
  /\ p_alphabet p = None
  /\ p_reduced p = false
  /\ (cls_kind (p_cls p) = LI_kind <-> doubled [a_; b_; b_])
  /\ (cls_kind (p_cls p) = IET_kind <-> NoDup [a_; b_; b_]).
Proof.
  intros p.
  apply (@GeneralizedPermutation_result first_seen [a_; b_; b_] [c_; c_; a_]
           None (Some [a_]) None p).
  - exact first_seen_In.
  - reflexivity.
Defined.

Lemma GeneralizedPermutation_twice_iff_witness :
  GeneralizedPermutation first_seen [a_; a_; b_] [b_; c_] None (Some [c_])
    None
  = Raise LetterMultiplicityError_LI
  <-> exists x, In x ([a_; a_; b_] ++ [b_; c_])
                /\ count ([a_; a_; b_] ++ [b_; c_]) x <> 2.
Proof.
  apply (@GeneralizedPermutation_twice_iff first_seen [a_; a_; b_] [b_; c_]
           None (Some [c_]) None).
  - exact first_seen_In.
  - simpl. intros x [<-|[]]. do 4 right. now left.
Defined.



(** When exactly one of the two rows is empty, [GeneralizedPermutation]
    returns no object: it raises one of its three errors. *)
Theorem GeneralizedPermutation_one_empty_row
    set_iter top bottom reduced flips alphabet_ :
  (forall l x, In x (set_iter l) <-> In x l) ->
  (top = [] /\ bottom <> []) \/ (top <> [] /\ bottom = []) ->
  exists e,
    GeneralizedPermutation set_iter top bottom reduced flips alphabet_
    = Raise e.
Proof.
  intros Hs Hrows.
  pose proof (@GeneralizedPermutation_cases set_iter top bottom reduced
                flips alphabet_ Hs) as C.
  cbv zeta in C.
  destruct C as [(V & E)|[(V & B & E)|(V & T & C)]];
    [eexists; exact E | eexists; exact E |].
  destruct C as [(Nt & Nb & O & E)|[(N & E)|(Dt & Db & E)]];
    [exfalso | eexists; exact E | exfalso].
  - destruct Hrows as [[-> Hb]|[Ht ->]].
    + destruct bottom as [|y r]; [congruence|].
      destruct (O y (or_introl eq_refl)) as [O1 _]. discriminate.
    + destruct top as [|y r]; [congruence|].
      destruct (O y (or_introl eq_refl)) as [_ O2]. discriminate.
  - destruct Hrows as [[-> Hb]|[Ht ->]].
    + destruct Dt as (x & E'). discriminate.
    + destruct Db as (x & E'). discriminate.
Qed.

Lemma GeneralizedPermutation_one_empty_row_witness :
  exists e,
    GeneralizedPermutation first_seen [] [a_; a_] None None None = Raise e.
Proof.
  apply (@GeneralizedPermutation_one_empty_row first_seen [] [a_; a_] None
           None None).
  - exact first_seen_In.
  - left. split; [reflexivity | discriminate].
Defined.

Lemma sum_count_skip y r d :
  ~ In y d ->
  list_sum (map (count (y :: r)) d) = list_sum (map (count r) d).
Proof.
  induction d as [|a d IH]; intros H; simpl; [reflexivity|].
  rewrite IH by (intros K; apply H; now right).
  unfold count. simpl.
  destruct (letter_eq_dec y a) as [->|N]; [|reflexivity].
  elim H. now left.
Qed.

Lemma sum_count_cons y r d :
  NoDup d -> In y d ->
  list_sum (map (count (y :: r)) d) = S (list_sum (map (count r) d)).
Proof.
  induction 1 as [|a d Ha Hd IH]; intros Hy; [contradiction|]. simpl.
  destruct (letter_eq_dec y a) as [->|N].
  - rewrite sum_count_skip by exact Ha.
    unfold count. simpl. destruct (letter_eq_dec a a); [reflexivity|].
    congruence.
  - rewrite IH by (destruct Hy as [->|Hy]; [congruence | exact Hy]).
    unfold count. simpl. destruct (letter_eq_dec y a); [congruence | lia].
Qed.

(** A list is as long as the occurrences of its letters add up to. *)
Lemma length_count_sum l d :
  NoDup d -> incl l d -> length l = list_sum (map (count l) d).
Proof.
  intros Nd. induction l as [|y r IH]; intros Hi.
  - simpl. symmetry. apply list_sum_zero.
  - rewrite sum_count_cons; [|exact Nd | apply Hi; now left].
    simpl. f_equal. apply IH. intros x Hx. apply Hi. now right.
Qed.

Lemma list_sum_const (d : list letter) n :
  list_sum (map (fun _ => n) d) = n * length d.
Proof. induction d as [|a d IH]; simpl; [lia | rewrite IH; lia]. Qed.

(** The rows of an object that [GeneralizedPermutation] returns have twice
    as many places as they have distinct letters; for an object of the
    four classes of permutations the two rows are of the same length. *)
Theorem GeneralizedPermutation_size
    set_iter top bottom reduced flips alphabet_ p :
  (forall l x, In x (set_iter l) <-> In x l) ->
  GeneralizedPermutation set_iter top bottom reduced flips alphabet_ = Ok p ->
  length top + length bottom = 2 * length (dedup (top ++ bottom))
  /\ (cls_kind (p_cls p) = IET_kind -> length top = length bottom).
Proof.
  intros Hs H.
  pose proof (@GeneralizedPermutation_cases set_iter top bottom reduced
                flips alphabet_ Hs) as C.
  cbv zeta in C. rewrite H in C.
  destruct C as [(V & E)|[(V & B & E)|(V & T & C)]]; try discriminate.
  split.
  - rewrite <- length_app.
    rewrite (@length_count_sum (top ++ bottom) (dedup (top ++ bottom)));
      [|apply NoDup_dedup
       |intros x Hx; exact (proj2 (dedup_In (top ++ bottom) x) Hx)].
    rewrite <- list_sum_const. f_equal. apply map_ext_in.
    intros x Hx. apply T. exact (proj1 (dedup_In (top ++ bottom) x) Hx).
  - destruct C as [(Nt & Nb & O & E)|[(N & E)|(Dt & Db & E)]];
      try discriminate; injection E as ->; cbn [p_cls].
    + intros _. symmetry. exact (proj1 (once_len _ _ O)).
    + rewrite cls_kind_LI_cls. discriminate.
Qed.

Lemma GeneralizedPermutation_size_witness :
  length [a_; b_; b_; d_] + length [c_; c_; a_; d_]
  = 2 * length (dedup ([a_; b_; b_; d_] ++ [c_; c_; a_; d_]))
  /\ (cls_kind (p_cls (new LabelledPermutationLI
                         ([a_; b_; b_; d_], [c_; c_; a_; d_]) None false
                         None)) = IET_kind ->
      length [a_; b_; b_; d_] = length [c_; c_; a_; d_]).
Proof.
  apply (@GeneralizedPermutation_size first_seen [a_; b_; b_; d_]
           [c_; c_; a_; d_] None None None
           (new LabelledPermutationLI ([a_; b_; b_; d_], [c_; c_; a_; d_])
              None false None)).
  - exact first_seen_In.
  - reflexivity.
Defined.

(** An empty list of flips.  [Permutation] takes it for no flips at all.
    [GeneralizedPermutation] does so only in the permutation case: when the
    rows make a linear involution, the object built with an empty list of
    flips is of a flipped class and differs from the one built without
    flips. *)
Theorem empty_flips set_iter top bottom reduced alphabet_ p :
  (forall l x, In x (set_iter l) <-> In x l) ->
  GeneralizedPermutation set_iter top bottom reduced (Some []) alphabet_
  = Ok p ->
  Permutation set_iter top bottom reduced (Some []) alphabet_
  = Permutation set_iter top bottom reduced None alphabet_
  /\ exists q,
       GeneralizedPermutation set_iter top bottom reduced None alphabet_
       = Ok q
       /\ (~ doubled top -> p = q)
       /\ (doubled top ->
           p_flips p = Some [] /\ p_flips q = None /\ p_cls p <> p_cls q).
Proof.
  intros Hs H. split; [reflexivity|].
  pose proof (@GeneralizedPermutation_cases set_iter top bottom reduced
                (Some []) alphabet_ Hs) as C.
  pose proof (@GeneralizedPermutation_cases set_iter top bottom reduced
                None alphabet_ Hs) as C'.
  cbv zeta in C, C'. rewrite H in C.
  destruct C as [(V & E)|[(V & B & E)|(V & T & C)]]; try discriminate.
  destruct C' as [(V' & E')|[(V' & B' & E')|(V' & _ & C')]].
  - elim V'. exact I.
  - exfalso. destruct B' as (x & Hx & Hc). now apply Hc, T.
  - destruct C as [(Nt & Nb & O & E)|[(N & E)|(Dt & Db & E)]];
      try discriminate; injection E as ->;
      destruct C' as [(Nt' & Nb' & O' & E')|[(N' & E')|(Dt' & Db' & E')]];
      try tauto; rewrite E'; eexists; (split; [reflexivity|]).
    + split; [reflexivity | intros D; contradiction].
    + split; [intros D; contradiction|]. intros _. cbn [p_flips p_cls].
      split; [reflexivity|]. split; [reflexivity|].
      destruct reduced as [[|]|]; discriminate.
Qed.

Lemma empty_flips_witness :
  let p := new FlippedLabelledPermutationLI ([a_; b_; b_], [c_; c_; a_])
             None false (Some []) in
  Permutation first_seen [a_; b_; b_] [c_; c_; a_] None (Some []) None
  = Permutation first_seen [a_; b_; b_] [c_; c_; a_] None None None
  /\ exists q,
       GeneralizedPermutation first_seen [a_; b_; b_] [c_; c_; a_] None None
         None = Ok q
       /\ (~ doubled [a_; b_; b_] -> p = q)
       /\ (doubled [a_; b_; b_] ->
           p_flips p = Some [] /\ p_flips q = None /\ p_cls p <> p_cls q).
Proof.
  intros p.
  apply (@empty_flips first_seen [a_; b_; b_] [c_; c_; a_] None None p).
  - exact first_seen_In.
  - reflexivity.
Defined.

(** On an object whose rows hold each letter once per row,
    [GeneralizedPermutation(p, ...)] and [Permutation(p, ...)] do the same,
    whatever mode, flips and alphabet are given to replace those of the
    object. *)
Theorem GeneralizedPermutation_of_permutation
    set_iter arg1 reduced flips alphabet_ :
  (forall l x, In x (set_iter l) <-> In x l) ->
  (forall x, In x (fst (list_ arg1) ++ snd (list_ arg1)) ->
             count (fst (list_ arg1)) x = 1
             /\ count (snd (list_ arg1)) x = 1) ->
  GeneralizedPermutation_of set_iter arg1 reduced flips alphabet_
  = Permutation_of set_iter arg1 reduced flips alphabet_.
Proof.
  intros Hs O. unfold GeneralizedPermutation_of, Permutation_of.
  set (t := fst (list_ arg1)) in *. set (b := snd (list_ arg1)) in *.
  set (r := Some _). set (f := Some _). set (al := Some _).
  pose proof (@GeneralizedPermutation_cases set_iter t b r f al Hs) as C.
  cbv zeta in C.
  destruct C as [(V & E)|[(V & B & E)|(V & T & C)]].
  - rewrite E. symmetry. now apply Permutation_flips_invalid.
  - exfalso. destruct B as (x & Hx & Hc). apply Hc. rewrite count_app.
    destruct (O x Hx). lia.
  - destruct C as [(Nt & Nb & _ & E)|[(N & E)|(Dt & Db & E)]].
    + rewrite E. symmetry. now apply Permutation_Ok_intro.
    + exfalso. apply N. split; intros (x & D).
      * assert (Hx : In x (t ++ b)) by (apply in_or_app; left; apply count_In; lia).
        destruct (O x Hx). lia.
      * assert (Hx : In x (t ++ b)) by (apply in_or_app; right; apply count_In; lia).
        destruct (O x Hx). lia.
    + exfalso. destruct Dt as (x & D).
      assert (Hx : In x (t ++ b)) by (apply in_or_app; left; apply count_In; lia).
      destruct (O x Hx). lia.
Qed.

Lemma GeneralizedPermutation_of_permutation_witness :
  GeneralizedPermutation_of first_seen
    (new LabelledPermutationIET ([a_; b_; c_], [c_; b_; a_]) None false None)
    (Some true) (Some [b_]) None
  = Permutation_of first_seen
      (new LabelledPermutationIET ([a_; b_; c_], [c_; b_; a_]) None false None)
      (Some true) (Some [b_]) None.
Proof.
  apply (@GeneralizedPermutation_of_permutation first_seen
           (new LabelledPermutationIET ([a_; b_; c_], [c_; b_; a_]) None false
              None)
           (Some true) (Some [b_]) None).
  - exact first_seen_In.
  - intros x Hx. simpl in Hx.
    repeat (destruct Hx as [<-|Hx]; [split; reflexivity|]). contradiction.
Defined.

(** ** The lengths that [IntervalExchangeTransformation] lets pass *)

Lemma len_new c top bottom al r f :
  length bottom = length top ->
  len (new c (top, bottom) al r f) = length top.
Proof.
  intros E. unfold len. cbn [p_a fst snd]. rewrite E.
  replace (length top + length top) with (length top * 2) by lia.
  now apply Nat.div_mul.
Qed.

Lemma norm_has_flips c a al r f :
  has_flips (new c a al r (norm_flips (Some f))) = true <-> f <> [].
Proof.
  destruct f as [|x f]; simpl; split;
    [discriminate | intros A; now elim A | intros _; discriminate
    | reflexivity].
Qed.

Lemma none_has_flips : false = true <-> @nil letter <> [].
Proof. split; [discriminate | intros A; now elim A]. Qed.

Section LengthsFacts.

Variable set_iter : list letter -> list letter.
Variable float_converts : Q -> bool.
Variable float_parses : string -> bool.

Lemma check_length_Ok_iff v :
  check_length float_converts float_parses v = Ok tt
  <-> passes float_converts v.
Proof.
  destruct v as [q| | | |s|]; simpl.
  - destruct (float_converts q).
    + destruct (Qneg q) eqn:E.
      * split; [discriminate|]. intros [_ H].
        apply Qneg_false in H. congruence.
      * split; [|reflexivity]. intros _.
        split; [reflexivity | now apply Qneg_false].
    + split; [discriminate|]. intros [H _]. discriminate.
  - tauto.
  - split; [discriminate | contradiction].
  - tauto.
  - destruct (float_parses s); (split; [discriminate | contradiction]).
  - split; [discriminate | contradiction].
Qed.

Lemma check_length_cases v :
  check_length float_converts float_parses v = Ok tt
  \/ exists e, check_length float_converts float_parses v = Raise e.
Proof.
  destruct (check_length float_converts float_parses v) as [[]|e];
    [now left | right; now exists e].
Qed.

Lemma check_lengths_Ok_iff it :
  check_lengths float_converts float_parses it = Ok tt
  <-> forall v, In v it -> passes float_converts v.
Proof.
  induction it as [|v r IH]; simpl.
  - split; [intros _ v [] | reflexivity].
  - destruct (check_length_cases v) as [E|(e & E)]; rewrite E; cbn [bind].
    + rewrite IH. split.
      * intros H w [<-|Hw]; [now apply check_length_Ok_iff | now apply H].
      * intros H w Hw. apply H. now right.
    + split; [discriminate|]. intros H.
      pose proof (proj2 (check_length_Ok_iff v) (H v (or_introl eq_refl))).
      congruence.
Qed.

Lemma check_lengths_app pre rest :
  (forall w, In w pre -> passes float_converts w) ->
  check_lengths float_converts float_parses (pre ++ rest)
  = check_lengths float_converts float_parses rest.
Proof.
  induction pre as [|v r IH]; intros H; simpl; [reflexivity|].
  rewrite (proj2 (check_length_Ok_iff v) (H v (or_introl eq_refl))).
  cbn [bind]. apply IH. intros w Hw. apply H. now right.
Qed.

(** What [IntervalExchangeTransformation] hands to the class of [iet.py]
    when it arrives at the call [_IET(p, lengths)]: the lengths as they
    were given, with a permutation of one of the four IET classes that has
    as many letters as there are lengths, every length having passed the
    loop (a number that [float] converts and that is not below zero, [inf]
    or [nan]).  The permutation has flips exactly when the argument was a
    tuple that brought flips: the test that refuses flips looks at objects
    only. *)
Theorem IntervalExchangeTransformation_returns permutation lengths c :
  IntervalExchangeTransformation set_iter float_converts float_parses
    permutation lengths = Ok c ->
  call_lengths c = lengths
  /\ cls_kind (p_cls (call_permutation c)) = IET_kind
  /\ lengths_len lengths = len (call_permutation c)
  /\ (forall v, In v (lengths_iter lengths) -> passes float_converts v)
  /\ (has_flips (call_permutation c) = true
      <-> tuple_flips permutation <> []).
Proof.
  unfold IntervalExchangeTransformation. intros H.
  destruct (as_permutation set_iter permutation) as [p|e] eqn:Ep;
    [|discriminate].
  cbn [bind] in H.
  destruct (lengths_len lengths =? len p) eqn:El; [|discriminate].
  cbn [negb] in H.
  destruct (check_lengths float_converts float_parses
              (lengths_iter lengths)) as [[]|e] eqn:Ec; [|discriminate].
  cbn [bind] in H. injection H as <-. cbn [call_lengths call_permutation].
  split; [reflexivity|].
  assert (K : cls_kind (p_cls p) = IET_kind
              /\ (has_flips p = true <-> tuple_flips permutation <> [])).
  { unfold as_permutation in Ep.
    destruct permutation as [o|top bottom|top bottom r f al|o r f al].
    - cbn [tuple_flips].
      assert (N : forall b, (b = true <-> @nil letter <> []) <-> b = false).
      { intros [|]; split.
        - intros [A _]. now elim (A eq_refl).
        - discriminate.
        - reflexivity.
        - intros _. split; [discriminate | intros A; now elim A]. }
      destruct (has_flips o) eqn:Ef; [discriminate|].
      destruct (p_cls o) eqn:Eo;
        try (injection Ep as <-; rewrite Eo; split;
             [reflexivity | now apply N]);
        unfold Permutation_of in Ep;
        destruct (Permutation_Ok_inv _ _ _ _ _ _ Ep) as (_ & _ & ->);
        cbn [p_cls];
        (split; [apply cls_kind_IET_cls|]); apply N;
        unfold flips_, flipped, has_flips in *; cbn [p_flips];
        destruct (p_flips o); try discriminate; reflexivity.
    - destruct (Permutation_Ok_inv _ _ _ _ _ _ Ep) as (_ & _ & ->).
      split; [reflexivity | exact none_has_flips].
    - destruct (Permutation_Ok_inv _ _ _ _ _ _ Ep) as (_ & _ & ->).
      cbn [p_cls]. split; [apply cls_kind_IET_cls|].
      destruct f as [f|]; [apply norm_has_flips | exact none_has_flips].
    - unfold Permutation_of in Ep.
      destruct (Permutation_Ok_inv _ _ _ _ _ _ Ep) as (_ & _ & ->).
      cbn [p_cls]. split; [apply cls_kind_IET_cls|].
      destruct f as [f|]; apply norm_has_flips. }
  destruct K as [K1 K2]. split; [exact K1|].
  split; [now apply Nat.eqb_eq|]. split; [|exact K2].
  now apply check_lengths_Ok_iff.
Qed.

(** The lengths are checked in their order, and the first one that does
    not pass decides the error, which is the one the body of the loop
    raises on this value alone, whatever follows it: "unable to convert"
    for a string that [float] does not parse, "lengths must be
    non-negative" for a number below zero that [float] converts. *)
Theorem IntervalExchangeTransformation_first_bad_length
    permutation lengths p pre v post :
  as_permutation set_iter permutation = Ok p ->
  lengths_len lengths = len p ->
  lengths_iter lengths = pre ++ v :: post ->
  (forall w, In w pre -> passes float_converts w) ->
  ~ passes float_converts v ->
  exists e,
    check_length float_converts float_parses v = Raise e
    /\ IntervalExchangeTransformation set_iter float_converts float_parses
         permutation lengths = Raise e
    /\ (forall s, v = Text s -> float_parses s = false ->
                  e = InvalidLengthValue)
    /\ (forall q, v = Num q -> float_converts q = true ->
                  e = NonPositiveLength).
Proof.
  intros Ep El Ei Hpre Hv. unfold IntervalExchangeTransformation.
  rewrite Ep. cbn [bind]. rewrite El, Nat.eqb_refl. cbn [negb].
  rewrite Ei, check_lengths_app by exact Hpre. cbn [check_lengths].
  destruct (check_length_cases v) as [E|(e & E)].
  - elim Hv. now apply check_length_Ok_iff.
  - exists e. rewrite E. cbn [bind]. split; [reflexivity|].
    split; [reflexivity|]. split.
    + intros s -> Hs. simpl in E. rewrite Hs in E. congruence.
    + intros q -> Hq. simpl in E. rewrite Hq in E.
      destruct (Qneg q); congruence.
Qed.

(** Given two rows, no check of [IntervalExchangeTransformation] or of
    [Permutation] stops the run before the call [_IET(p, lengths)] exactly
    when the rows list the same letters, each row without repetition,
    there are as many lengths as letters in a row, and every length passes
    the loop (a number that [float] converts and that is not below zero,
    [inf] or [nan]). *)
Theorem IntervalExchangeTransformation_accepts_iff top bottom lengths :
  (forall l x, In x (set_iter l) <-> In x l) ->
  (exists c,
     IntervalExchangeTransformation set_iter float_converts float_parses
       (PermRows top bottom) lengths = Ok c)
  <-> NoDup top /\ NoDup bottom /\ (forall x, In x top <-> In x bottom)
      /\ lengths_len lengths = length top
      /\ forall v, In v (lengths_iter lengths) -> passes float_converts v.
Proof.
  intros Hs. unfold IntervalExchangeTransformation, as_permutation.
  destruct (@Permutation_outcome set_iter top bottom None None None Hs)
    as [(V & E)|[(V & B & E)|(V & O & E)]]; rewrite E; cbn [bind].
  - elim V. exact I.
  - split; [intros (c & H); discriminate|].
    intros (Nt & Nb & S & _). destruct B as (x & Hx & Hc).
    destruct (proj2 (once_iff_NoDup top bottom) (conj Nt (conj Nb S)) x Hx).
    lia.
  - rewrite len_new by exact (proj1 (once_len _ _ O)).
    destruct (proj1 (once_iff_NoDup top bottom) O) as (Nt & Nb & S).
    destruct (lengths_len lengths =? length top) eqn:El; cbn [negb].
    + apply Nat.eqb_eq in El.
      destruct (check_lengths float_converts float_parses
                  (lengths_iter lengths)) as [[]|e] eqn:Ec; cbn [bind].
      * split; [|intros _; eexists; reflexivity]. intros _.
        repeat (split; [assumption|]). now apply check_lengths_Ok_iff.
      * split; [intros (c & H); discriminate|].
        intros (_ & _ & _ & _ & P). apply check_lengths_Ok_iff in P.
        congruence.
    + apply Nat.eqb_neq in El. split; [intros (c & H); discriminate|].
      intros (_ & _ & _ & L & _). contradiction.
Qed.

End LengthsFacts.

Lemma IntervalExchangeTransformation_returns_witness :
  let permutation := PermTuple [a_; b_] [b_; a_] (Some false) (Some [a_])
                       None in
  let lengths := LengthsDict [(a_, Num 1); (b_, NaN)] in
  let c := _IET (new FlippedLabelledPermutationIET ([a_; b_], [b_; a_]) None
                   false (Some [a_])) lengths in
  call_lengths c = lengths
  /\ cls_kind (p_cls (call_permutation c)) = IET_kind
  /\ lengths_len lengths = len (call_permutation c)
  /\ (forall v, In v (lengths_iter lengths) -> passes py_float_converts v)
  /\ (has_flips (call_permutation c) = true
      <-> tuple_flips permutation <> []).
Proof.
  intros permutation lengths c.
  apply (@IntervalExchangeTransformation_returns first_seen
           py_float_converts decimal_digits permutation lengths c).
  vm_compute. reflexivity.
Defined.

Lemma IntervalExchangeTransformation_first_bad_length_witness :
  exists e,
    check_length py_float_converts decimal_digits (Text "x") = Raise e
    /\ IntervalExchangeTransformation first_seen py_float_converts
         decimal_digits (PermRows [a_; b_; c_] [c_; b_; a_])
         (LengthsList [Num 1; Text "x"; Num (-1 # 2)]) = Raise e
    /\ (forall s, Text "x" = Text s -> decimal_digits s = false ->
                  e = InvalidLengthValue)
    /\ (forall q, Text "x" = Num q -> py_float_converts q = true ->
                  e = NonPositiveLength).
Proof.
  apply (@IntervalExchangeTransformation_first_bad_length first_seen
           py_float_converts decimal_digits
           (PermRows [a_; b_; c_] [c_; b_; a_])
           (LengthsList [Num 1; Text "x"; Num (-1 # 2)])
           (new LabelledPermutationIET ([a_; b_; c_], [c_; b_; a_]) None false
              None)
           [Num 1] (Text "x") [Num (-1 # 2)]).
  - reflexivity.
  - reflexivity.
  - reflexivity.
  - intros w [<-|[]]. simpl. split; [vm_compute; reflexivity | discriminate].
  - intros H. exact H.
Defined.

Lemma IntervalExchangeTransformation_accepts_iff_witness :
  (exists c,
     IntervalExchangeTransformation first_seen py_float_converts
       decimal_digits (PermRows [a_; b_] [b_; a_])
       (LengthsList [Num 0; Num (1 # 2)]) = Ok c)
  <-> NoDup [a_; b_] /\ NoDup [b_; a_]
      /\ (forall x, In x [a_; b_] <-> In x [b_; a_])
      /\ lengths_len (LengthsList [Num 0; Num (1 # 2)]) = length [a_; b_]
      /\ forall v, In v (lengths_iter (LengthsList [Num 0; Num (1 # 2)])) ->
                   passes py_float_converts v.
Proof.
  apply (@IntervalExchangeTransformation_accepts_iff first_seen
           py_float_converts decimal_digits [a_; b_] [b_; a_]
           (LengthsList [Num 0; Num (1 # 2)])).
  exact first_seen_In.
Defined.

(** ** The two rows that [_two_lists] reads *)

Lemma split_on_length sep s :
  length (split_on sep s) = S (occurrences sep s).
Proof.
  induction s as [|c s IH]; simpl; [reflexivity|].
  destruct (Ascii.eqb c sep); simpl; [now rewrite IH|].
  destruct (split_on sep s) as [|w ws]; [discriminate | exact IH].
Qed.

Lemma split_on_append sep s t :
  occurrences sep s = 0 ->
  split_on sep (String.append s (String sep t)) = s :: split_on sep t.
Proof.
  induction s as [|c s IH]; simpl; intros H.
  - now rewrite Ascii.eqb_refl.
  - destruct (Ascii.eqb c sep); [discriminate|]. now rewrite IH.
Qed.

Lemma split_on_whole sep s : occurrences sep s = 0 -> split_on sep s = [s].
Proof.
  induction s as [|c s IH]; simpl; intros H; [reflexivity|].
  destruct (Ascii.eqb c sep); [discriminate|]. now rewrite IH.
Qed.

Section TwoListsFacts.

Variable isspace : Ascii.ascii -> bool.
Variable CombinatPermutation : list arg -> option (list Z).

Lemma words_clean s w : In w (words isspace s) -> clean isspace w = true.
Proof.
  revert w. induction s as [|c s IH]; simpl; intros w H; [contradiction|].
  destruct (isspace c) eqn:Ec; [now apply IH|].
  assert (K : forall u, clean isspace u = true ->
                        clean isspace (String c u) = true).
  { intros u Hu. unfold clean in *. simpl. rewrite Ec. simpl.
    apply andb_true_iff in Hu. now destruct Hu. }
  destruct (at_gap isspace s).
  - destruct H as [<-|H]; [|now apply IH].
    unfold clean. simpl. now rewrite Ec.
  - destruct (words isspace s) as [|u us].
    + destruct H as [<-|[]]. unfold clean. simpl. now rewrite Ec.
    + destruct H as [<-|H].
      * apply K, IH. now left.
      * apply IH. now right.
Qed.

Lemma words_word w rest :
  clean isspace w = true -> at_gap isspace rest = true ->
  words isspace (String.append w rest) = w :: words isspace rest.
Proof.
  induction w as [|c w IH]; intros Hw Hr; [discriminate|].
  unfold clean in Hw. simpl in Hw. apply andb_true_iff in Hw.
  destruct Hw as [Hc Hw]. apply negb_true_iff in Hc.
  simpl. rewrite Hc. destruct w as [|c' w].
  - simpl. now rewrite Hr.
  - assert (Hw' : clean isspace (String c' w) = true) by exact Hw.
    rewrite (IH Hw' Hr). simpl in Hw. apply andb_true_iff in Hw.
    destruct Hw as [Hc' _]. apply negb_true_iff in Hc'. simpl.
    now rewrite Hc'.
Qed.

Lemma append_empty s : String.append s EmptyString = s.
Proof. induction s as [|c s IH]; simpl; [reflexivity | now rewrite IH]. Qed.

Lemma words_concat ws :
  isspace space = true ->
  Forall (fun w => clean isspace w = true) ws ->
  words isspace (String.concat (String space EmptyString) ws) = ws.
Proof.
  intros Hsp. induction 1 as [|w ws Hw Hws IH]; [reflexivity|].
  destruct ws as [|w' ws].
  - simpl. rewrite <- (append_empty w) at 1.
    now rewrite words_word.
  - change (String.concat (String space EmptyString) (w :: w' :: ws))
      with (String.append w
              (String space
                 (String.concat (String space EmptyString) (w' :: ws)))).
    rewrite words_word; [|exact Hw | exact Hsp].
    cbn [words]. rewrite Hsp. now rewrite IH.
Qed.

Lemma occurrences_clean c w :
  isspace c = true -> clean isspace w = true -> occurrences c w = 0.
Proof.
  intros Hc Hw. unfold clean in Hw. apply andb_true_iff in Hw.
  destruct Hw as [_ Hw]. induction w as [|c' w IH]; [reflexivity|].
  simpl in *. apply andb_true_iff in Hw. destruct Hw as [H1 H2].
  rewrite (IH H2). destruct (Ascii.eqb_spec c' c) as [->|N]; [|reflexivity].
  rewrite Hc in H1. discriminate.
Qed.

Lemma occurrences_append c s t :
  occurrences c (String.append s t) = occurrences c s + occurrences c t.
Proof. induction s as [|c' s IH]; simpl; [reflexivity | rewrite IH; lia]. Qed.

Lemma occurrences_concat c sep ws :
  occurrences c sep = 0 ->
  Forall (fun w => occurrences c w = 0) ws ->
  occurrences c (String.concat sep ws) = 0.
Proof.
  intros Hsep. induction 1 as [|w ws Hw Hws IH]; [reflexivity|].
  destruct ws as [|w' ws]; [exact Hw|].
  change (String.concat sep (w :: w' :: ws))
    with (String.append w
            (String.append sep (String.concat sep (w' :: ws)))).
  rewrite !occurrences_append, Hw, Hsep, IH. reflexivity.
Qed.

(** A single string is read as two rows exactly when it holds one newline;
    any other number of newlines gives the error "the chain must contain
    two lines". *)
Theorem two_lists_string_lines s :
  ((exists rows,
      _two_lists isspace CombinatPermutation (AStr s) ANone = Ok rows)
   <-> occurrences newline s = 1)
  /\ (_two_lists isspace CombinatPermutation (AStr s) ANone
      = Raise (ValueError "the chain must contain two lines")
      <-> occurrences newline s <> 1).
Proof.
  pose proof (split_on_length newline s) as L. unfold _two_lists.
  destruct (split_on newline s) as [|t0 [|t1 [|t2 r]]]; simpl in L;
    try discriminate L;
    (split; split;
     first [ intros (rows & H); discriminate
           | intros H; discriminate
           | intros H; lia
           | intros _; reflexivity
           | intros _; eexists; reflexivity ]).
Qed.

(** The three ways of giving two rows of labels as strings agree: one
    string of two lines, a tuple or a list of the two lines (that Sage does
    not read as a permutation), and the two lines as two arguments. *)
Theorem two_lists_forms_agree s t :
  occurrences newline s = 0 -> occurrences newline t = 0 ->
  CombinatPermutation [AStr s; AStr t] = None ->
  _two_lists isspace CombinatPermutation
    (AStr (String.append s (String newline t))) ANone
  = _two_lists isspace CombinatPermutation (AStr s) (AStr t)
  /\ _two_lists isspace CombinatPermutation (ATuple [AStr s; AStr t]) ANone
     = _two_lists isspace CombinatPermutation (AStr s) (AStr t)
  /\ _two_lists isspace CombinatPermutation (AList [AStr s; AStr t]) ANone
     = _two_lists isspace CombinatPermutation (AStr s) (AStr t).
Proof.
  intros Hs Ht Hc. unfold _two_lists.
  rewrite split_on_append by exact Hs. rewrite split_on_whole by exact Ht.
  rewrite Hc. repeat split.
Qed.

(** The labels read from strings are never empty and hold no whitespace,
    whether the rows come as one string of two lines or as two strings. *)
Theorem two_lists_labels_clean s arg2 rows :
  arg2 = ANone \/ (exists t, arg2 = AStr t) ->
  _two_lists isspace CombinatPermutation (AStr s) arg2 = Ok rows ->
  forall r x, In r rows -> In x r ->
    exists w, x = AStr w /\ clean isspace w = true.
Proof.
  assert (K : forall u x, In x (map AStr (words isspace u)) ->
                          exists w, x = AStr w /\ clean isspace w = true).
  { intros u x Hx. apply in_map_iff in Hx. destruct Hx as (w & <- & Hw).
    exists w. split; [reflexivity|]. now apply words_clean in Hw. }
  intros [->|(t & ->)] H r x Hr Hx; unfold _two_lists in H.
  - destruct (split_on newline s) as [|t0 [|t1 [|t2 l]]]; try discriminate.
    injection H as <-. destruct Hr as [<-|[<-|[]]]; now apply K in Hx.
  - simpl in H. injection H as <-.
    destruct Hr as [<-|[<-|[]]]; now apply K in Hx.
Qed.

(** Reading back what was written: labels without whitespace, written
    with one space between them and the two rows on two lines, are read as
    the same two rows of labels. *)
Theorem two_lists_round_trip ws1 ws2 :
  isspace space = true -> isspace newline = true ->
  Forall (fun w => clean isspace w = true) ws1 ->
  Forall (fun w => clean isspace w = true) ws2 ->
  _two_lists isspace CombinatPermutation
    (AStr (String.append (String.concat (String space EmptyString) ws1)
             (String newline
                (String.concat (String space EmptyString) ws2))))
    ANone
  = Ok [map AStr ws1; map AStr ws2].
Proof.
  intros Hsp Hnl H1 H2.
  assert (K : forall ws, Forall (fun w => clean isspace w = true) ws ->
            occurrences newline
              (String.concat (String space EmptyString) ws) = 0).
  { intros ws H. apply occurrences_concat; [reflexivity|].
    eapply Forall_impl; [|exact H]. intros w Hw.
    now apply occurrences_clean. }
  unfold _two_lists.
  rewrite split_on_append by now apply K.
  rewrite split_on_whole by now apply K.
  now rewrite !words_concat.
Qed.

End TwoListsFacts.

Lemma two_lists_forms_agree_witness :
  _two_lists isspace3 no_CombinatPermutation
    (AStr (String.append "a1 a2" (String newline "b1 b2"))) ANone
  = _two_lists isspace3 no_CombinatPermutation (AStr "a1 a2") (AStr "b1 b2")
  /\ _two_lists isspace3 no_CombinatPermutation
       (ATuple [AStr "a1 a2"; AStr "b1 b2"]) ANone
     = _two_lists isspace3 no_CombinatPermutation (AStr "a1 a2")
         (AStr "b1 b2")
  /\ _two_lists isspace3 no_CombinatPermutation
       (AList [AStr "a1 a2"; AStr "b1 b2"]) ANone
     = _two_lists isspace3 no_CombinatPermutation (AStr "a1 a2")
         (AStr "b1 b2").
Proof.
  apply (@two_lists_forms_agree isspace3 no_CombinatPermutation
           "a1 a2" "b1 b2"); reflexivity.
Defined.

Lemma two_lists_labels_clean_witness :
  exists w, AStr "b1" = AStr w /\ clean isspace3 w = true.
Proof.
  apply (@two_lists_labels_clean isspace3 no_CombinatPermutation
           (String.append "a1 a2" (String newline "b1  b2")) ANone
           [[AStr "a1"; AStr "a2"]; [AStr "b1"; AStr "b2"]]
           (or_introl eq_refl) eq_refl
           [AStr "b1"; AStr "b2"] (AStr "b1")).
  - right. now left.
  - now left.
Defined.

Lemma two_lists_round_trip_witness :
  _two_lists isspace3 no_CombinatPermutation
    (AStr (String.append (String.concat (String space EmptyString)
                            ["a"; "b"; "c"]%string)
             (String newline
                (String.concat (String space EmptyString)
                   ["c"; "b"; "a"]%string))))
    ANone
  = Ok [map AStr ["a"; "b"; "c"]%string; map AStr ["c"; "b"; "a"]%string].
Proof.
  apply (@two_lists_round_trip isspace3 no_CombinatPermutation
           ["a"; "b"; "c"]%string ["c"; "b"; "a"]%string).
  - reflexivity.
  - reflexivity.
  - repeat constructor.
  - repeat constructor.
Defined.

(** The doctests of [_two_lists]. *)
Example two_lists_docstring :
  _two_lists isspace3 no_CombinatPermutation
    (ATuple [AStr "a1 a2"; AStr "b1 b2"]) ANone
  = Ok [[AStr "a1"; AStr "a2"]; [AStr "b1"; AStr "b2"]]
  /\ _two_lists isspace3 no_CombinatPermutation
       (AStr (String.append "a1 a2" (String newline "b1 b2"))) ANone
     = Ok [[AStr "a1"; AStr "a2"]; [AStr "b1"; AStr "b2"]]
  /\ _two_lists isspace3 no_CombinatPermutation
       (AList [AStr "a b"; AStr "c"]) ANone
     = Ok [[AStr "a"; AStr "b"]; [AStr "c"]]
  /\ _two_lists isspace3 no_CombinatPermutation
       (ATuple [ATuple [AInt 0; AInt 1]; ATuple [AInt 1; AInt 0]]) ANone
     = Ok [[AInt 0; AInt 1]; [AInt 1; AInt 0]]
  /\ _two_lists isspace3 no_CombinatPermutation
       (ATuple [AInt 0; AInt 1]) (ATuple [AInt 1; AInt 0])
     = Ok [[AInt 0; AInt 1]; [AInt 1; AInt 0]]
  /\ _two_lists isspace3 no_CombinatPermutation (AStr "a b") ANone
     = Raise (ValueError "the chain must contain two lines")
  /\ _two_lists isspace3 no_CombinatPermutation
       (AStr (String.append "a b"
                (String newline
                   (String.append "c d" (String newline "e f"))))) ANone
     = Raise (ValueError "the chain must contain two lines")
  /\ _two_lists isspace3 no_CombinatPermutation (AInt 1) (AInt 1)
     = Raise (TypeError "argument not accepted").
Proof. repeat split. Qed.
